(** * Streaming slide extraction: SSE framer, extraction state machine,
      slide assembly and transport

    A shallow embedding of the streaming pipeline of the slide studio:
    [sse.ts] (the line-oriented Server-Sent-Events framer),
    [extractSlides.ts] (chunk ingestion, [walkEvent], [finalizeSlides]),
    [maskSecrets] and [debugFetch] of [utils/debug.ts], the two copies of
    [callGlmAgent] with [addPage] and [updatePage], and the callbacks with
    which [App.tsx] puts drafts and updated slides on screen.

    Modelling conventions.
    - A JavaScript string is its sequence of UTF-16 code units: [list N].
      [js "..."] turns a literal into that form.
    - Integer-valued numbers are [Z]; [NaN] is [None] where it can occur.
      Numbers with a fractional part are outside the modelled input domain.
    - In-place mutation is explicit state passing; callbacks ([log],
      [onPartial]) append to an effect trace; a JavaScript exception is an
      explicit outcome.
    - What the platform supplies and the program only calls ([JSON.parse]
      on an event's text, [Number] on a retry field, [fetch], the reader of
      a response body) is a parameter of the part that calls it. *)

From Stdlib Require Import ZArith NArith List String Ascii Lia Bool.
From stdpp Require Import gmap list sorting.

Set Default Proof Using "Type".
Set Warnings "-register-all".

(** ** Strings as code-unit sequences *)

Abbreviation jstr := (list N).

Definition js (s : string) : jstr := map N_of_ascii (list_ascii_of_string s).
Arguments js s%_string.

Definition LF : N := 10.
Definition CR : N := 13.
Definition SP : N := 32.
Definition DQUOTE : N := 34.
Definition BACKSLASH : N := 92.

(** A text between double quotes. *)
Definition quoted (s : jstr) : jstr := DQUOTE :: s ++ [DQUOTE].

Definition jstr_eqb (a b : jstr) : bool := bool_decide (a = b).

Definition between (lo hi c : N) : bool := (lo <=? c)%N && (c <=? hi)%N.

(** [\s] of a regular expression, and the code units [String.prototype.trim]
    removes: WhiteSpace and LineTerminator of the language definition. *)
Definition is_space (c : N) : bool :=
  between 9 13 c || (c =? 32)%N || (c =? 160)%N || (c =? 5760)%N
  || between 8192 8202 c || (c =? 8232)%N || (c =? 8233)%N
  || (c =? 8239)%N || (c =? 8287)%N || (c =? 12288)%N || (c =? 65279)%N.

Definition ascii_upper (c : N) : N := if between 97 122 c then (c - 32)%N else c.
Definition ascii_lower (c : N) : N := if between 65 90 c then (c + 32)%N else c.

(** [s.toLowerCase()] on the letters A-Z. The program lower-cases the tool
    name only, and only to look for the words insert, add, page and slide
    in it; the lower-casing of a unit outside ASCII gives none of their
    letters in a place where it could complete one of these words. *)
Definition toLowerCase (s : jstr) : jstr := map ascii_lower s.

Fixpoint startsWith (p s : jstr) : bool :=
  match p, s with
  | [], _ => true
  | a :: p', c :: s' => (a =? c)%N && startsWith p' s'
  | _ :: _, [] => false
  end.

Definition endsWith (p s : jstr) : bool :=
  (length p <=? length s) && jstr_eqb (drop (length s - length p) s) p.

(** [s.indexOf(c, i)] for a one-unit needle; [s] is the text from index [i]
    on, and the result is an index into the whole string. *)
Fixpoint indexOf_from (c : N) (i : nat) (s : jstr) : option nat :=
  match s with
  | [] => None
  | x :: s' => if (x =? c)%N then Some i else indexOf_from c (S i) s'
  end.

Definition indexOf (c : N) (s : jstr) (i : nat) : option nat :=
  indexOf_from c i (drop i s).

(** [s.slice(a, b)] for [0 <= a <= b]. *)
Definition slice (s : jstr) (a b : nat) : jstr := take (b - a) (drop a s).

Fixpoint trimStart (s : jstr) : jstr :=
  match s with
  | c :: s' => if is_space c then trimStart s' else s
  | [] => []
  end.

Definition trimEnd (s : jstr) : jstr := rev (trimStart (rev s)).

(** [s.trim()] *)
Definition trim (s : jstr) : jstr := trimEnd (trimStart s).

(** Decimal rendering of an integer, as string conversion of an
    integer-valued number gives it (below 10^21 in magnitude). A number has
    no more decimal digits than binary ones, which bounds the recursion. *)
Fixpoint digits_of (fuel : nat) (n : N) (acc : jstr) : jstr :=
  match fuel with
  | O => acc
  | S f =>
      let acc' := (48 + n mod 10)%N :: acc in
      if (n <? 10)%N then acc' else digits_of f (n / 10)%N acc'
  end.

Definition show_N (n : N) : jstr := digits_of (S (N.to_nat (N.log2 n))) n [].

Definition show_Z (z : Z) : jstr :=
  match z with
  | Z0 => js "0"
  | Zpos p => show_N (Npos p)
  | Zneg p => js "-" ++ show_N (Npos p)
  end.

(** ** Regular expressions

    The patterns of the program, as syntax, with the backtracking matcher
    that gives them their meaning: alternatives are tried left to right,
    a greedy star takes the longest run first, a lazy one the shortest, and
    a search returns the leftmost start that matches. Quantifiers are applied
    to character classes only, which is all the program uses. *)

Module Re.

Inductive citem :=
| One (c : N)              (* a single code unit *)
| Range (lo hi : N)        (* lo-hi *)
| Space                    (* \s *)
| NotSpace.                (* \S *)

Inductive regex :=
| Bol                              (* ^ *)
| Eol                              (* $ *)
| Lit (p : jstr)                   (* literal code units *)
| Cls (items : list citem)         (* [...] *)
| Star (items : list citem)        (* [...]*  greedy *)
| StarLazy (items : list citem)    (* [...]*? lazy *)
| Opt (r : regex)                  (* (?:r)? *)
| Seq (r1 r2 : regex)
| Alt (r1 r2 : regex).

(** Comparison of two code units; [ci] is the flag [i]. Canonicalization
    folds a-z onto A-Z and never identifies a unit above 127 with one
    below, so against the ASCII patterns of the program it is exact. *)
Definition chr_eq (ci : bool) (a c : N) : bool :=
  if ci then (ascii_upper a =? ascii_upper c)%N else (a =? c)%N.

Definition in_item (ci : bool) (it : citem) (c : N) : bool :=
  match it with
  | One a => chr_eq ci a c
  | Range lo hi =>
      between lo hi c
      || (ci && (between lo hi (ascii_upper c) || between lo hi (ascii_lower c)))
  | Space => is_space c
  | NotSpace => negb (is_space c)
  end.

Definition in_class (ci : bool) (items : list citem) (c : N) : bool :=
  existsb (fun it => in_item ci it c) items.

Fixpoint lit_match (ci : bool) (p s : jstr) : option jstr :=
  match p, s with
  | [], _ => Some s
  | a :: p', c :: s' => if chr_eq ci a c then lit_match ci p' s' else None
  | _ :: _, [] => None
  end.

Definition cont := nat -> jstr -> option nat.

Fixpoint star (ci : bool) (items : list citem) (i : nat) (s : jstr) (k : cont)
  : option nat :=
  match s with
  | c :: s' =>
      if in_class ci items c then
        match star ci items (S i) s' k with
        | Some e => Some e
        | None => k i s
        end
      else k i s
  | [] => k i s
  end.

Fixpoint star_lazy (ci : bool) (items : list citem) (i : nat) (s : jstr) (k : cont)
  : option nat :=
  match k i s with
  | Some e => Some e
  | None =>
      match s with
      | c :: s' => if in_class ci items c then star_lazy ci items (S i) s' k else None
      | [] => None
      end
  end.

(** [rmatch ci r i s k]: match [r] at index [i], where [s] is the input from
    [i] on; [k] is what remains to be matched. The result is the end index
    of the whole match. *)
Fixpoint rmatch (ci : bool) (r : regex) (i : nat) (s : jstr) (k : cont) : option nat :=
  match r with
  | Bol => if (i =? 0)%nat then k i s else None
  | Eol => match s with [] => k i s | _ :: _ => None end
  | Lit p =>
      match lit_match ci p s with
      | Some s' => k (i + length p)%nat s'
      | None => None
      end
  | Cls items =>
      match s with
      | c :: s' => if in_class ci items c then k (S i) s' else None
      | [] => None
      end
  | Star items => star ci items i s k
  | StarLazy items => star_lazy ci items i s k
  | Opt r1 =>
      match rmatch ci r1 i s k with
      | Some e => Some e
      | None => k i s
      end
  | Seq r1 r2 => rmatch ci r1 i s (fun i' s' => rmatch ci r2 i' s' k)
  | Alt r1 r2 =>
      match rmatch ci r1 i s k with
      | Some e => Some e
      | None => rmatch ci r2 i s k
      end
  end.

Definition match_at (ci : bool) (r : regex) (i : nat) (s : jstr) : option nat :=
  rmatch ci r i s (fun e _ => Some e).

(** Leftmost match at or after index [i]: start and end index. *)
Fixpoint search (ci : bool) (r : regex) (i : nat) (s : jstr) : option (nat * nat) :=
  match match_at ci r i s with
  | Some e => Some (i, e)
  | None =>
      match s with
      | [] => None
      | _ :: s' => search ci r (S i) s'
      end
  end.

(** [re.test(s)] *)
Definition test (ci : bool) (r : regex) (s : jstr) : bool :=
  match search ci r 0 s with Some _ => true | None => false end.

(** [re.exec(s)], the matched text [m[0]] *)
Definition exec (ci : bool) (r : regex) (s : jstr) : option jstr :=
  match search ci r 0 s with
  | Some (b, e) => Some (slice s b e)
  | None => None
  end.

(** [s.replace(re, repl)] without the flag [g]: the first match only. *)
Definition replace (ci : bool) (r : regex) (repl s : jstr) : jstr :=
  match search ci r 0 s with
  | Some (b, e) => take b s ++ repl ++ drop e s
  | None => s
  end.

(** [s.replace(re, repl)] with the flag [g]; [s] is the input from index
    [i] on. After an empty match the scan moves on by one unit. Each round
    consumes at least one unit, so [length s + 1] rounds are enough. *)
Fixpoint replace_all_from (ci : bool) (r : regex) (repl : jstr)
    (fuel i : nat) (s : jstr) : jstr :=
  match fuel with
  | O => s
  | S f =>
      match search ci r i s with
      | None => s
      | Some (b, e) =>
          take (b - i) s ++ repl ++
          (if (e =? b)%nat then
             match drop (b - i) s with
             | [] => []
             | c :: s' => c :: replace_all_from ci r repl f (S b) s'
             end
           else replace_all_from ci r repl f e (drop (e - i) s))
      end
  end.

Definition replace_all (ci : bool) (r : regex) (repl s : jstr) : jstr :=
  replace_all_from ci r repl (S (length s)) 0 s.

(** What a match of [r] looks like, for reasoning: [c] is the text matched
    from index [i], [rest] what follows it in the input. *)
Fixpoint matched (ci : bool) (r : regex) (i : nat) (c rest : jstr) : Prop :=
  match r with
  | Bol => i = 0%nat /\ c = []
  | Eol => c = [] /\ rest = []
  | Lit p => lit_match ci p c = Some []
  | Cls items => exists x, c = [x] /\ in_class ci items x = true
  | Star items | StarLazy items => forallb (in_class ci items) c = true
  | Opt r1 => c = [] \/ matched ci r1 i c rest
  | Seq r1 r2 =>
      exists c1 c2, c = c1 ++ c2
        /\ matched ci r1 i c1 (c2 ++ rest)
        /\ matched ci r2 (i + length c1) c2 rest
  | Alt r1 r2 => matched ci r1 i c rest \/ matched ci r2 i c rest
  end.


End Re.

(** ** Values and exceptions

    What [JSON.parse] produces, plus [undefined], which reading a missing
    property gives. An object keeps its members in source order; a later
    member with the same key shadows an earlier one. *)

Inductive value :=
| Undefined
| Null
| Bool (b : bool)
| Num (z : Z)
| Str (s : jstr)
| Arr (items : list value)
| Obj (members : list (jstr * value)).

Inductive exn :=
| TypeError
| SyntaxError.

Inductive outcome (A : Type) :=
| Ok (a : A)
| Throw (e : exn).
Arguments Ok {A} a.
Arguments Throw {A} e.

Definition obind {A B} (m : outcome A) (f : A -> outcome B) : outcome B :=
  match m with
  | Ok a => f a
  | Throw e => Throw e
  end.

Module Json.

Definition is_nullish (v : value) : bool :=
  match v with Undefined | Null => true | _ => false end.

(** ToBoolean *)
Definition truthy (v : value) : bool :=
  match v with
  | Undefined | Null => false
  | Bool b => b
  | Num z => negb (z =? 0)%Z
  | Str s => match s with [] => false | _ :: _ => true end
  | Arr _ | Obj _ => true
  end.

Fixpoint lookup_last (k : jstr) (members : list (jstr * value)) (found : value)
  : value :=
  match members with
  | [] => found
  | (k', v) :: rest => lookup_last k rest (if jstr_eqb k k' then v else found)
  end.

Definition own (k : jstr) (members : list (jstr * value)) : value :=
  lookup_last k members Undefined.

Definition has_own (k : jstr) (members : list (jstr * value)) : bool :=
  existsb (fun kv => jstr_eqb k (fst kv)) members.

(** [v.k] for the property names the program reads ([choices], [messages],
    [content], [type], [object], [delta], ...): none of them is inherited
    from a prototype, so only an object's own members can answer. Reading a
    property of [null] or [undefined] throws. *)
Definition get (v : value) (k : jstr) : outcome value :=
  match v with
  | Undefined | Null => Throw TypeError
  | Obj members => Ok (own k members)
  | _ => Ok Undefined
  end.

(** [v?.k] *)
Definition get_opt (v : value) (k : jstr) : outcome value :=
  if is_nullish v then Ok Undefined else get v k.

(** [v?.[0]] *)
Definition get_opt_index0 (v : value) : value :=
  match v with
  | Arr (x :: _) => x
  | Str (c :: _) => Str [c]
  | Obj members => own (js "0") members
  | _ => Undefined
  end.

(** [a ?? b], with [b] evaluated on demand *)
Definition nullish_or (a : value) (b : outcome value) : outcome value :=
  if is_nullish a then b else Ok a.

(** [a || b], with [b] evaluated on demand *)
Definition or_else (a : value) (b : outcome value) : outcome value :=
  if truthy a then Ok a else b.

(** [x == null ? [] : Array.isArray(x) ? x : [x]] *)
Definition asArray (x : value) : list value :=
  match x with
  | Undefined | Null => []
  | Arr items => items
  | _ => [x]
  end.

(** [String(v)] and the conversion a template literal applies. An object
    with a member called [toString] has a non-callable [toString], and the
    conversion throws; any other object gives [[object Object]]. *)
Fixpoint to_string (v : value) : outcome jstr :=
  match v with
  | Undefined => Ok (js "undefined")
  | Null => Ok (js "null")
  | Bool true => Ok (js "true")
  | Bool false => Ok (js "false")
  | Num z => Ok (show_Z z)
  | Str s => Ok s
  | Arr items =>
      (fix join (l : list value) : outcome jstr :=
         match l with
         | [] => Ok []
         | x :: l' =>
             obind (if is_nullish x then Ok [] else to_string x) (fun sx =>
             match l' with
             | [] => Ok sx
             | _ :: _ => obind (join l') (fun sl => Ok (sx ++ js "," ++ sl))
             end)
         end) items
  | Obj members =>
      if has_own (js "toString") members then Throw TypeError
      else Ok (js "[object Object]")
  end.

Definition is_digit (c : N) : bool := between 48 57 c.

Fixpoint digits_value (s : jstr) (acc : N) : option N :=
  match s with
  | [] => Some acc
  | c :: s' => if is_digit c then digits_value s' (acc * 10 + (c - 48))%N else None
  end.

(** [Number(s)] on a string: surrounding white space is ignored, the empty
    string is 0, an optionally signed run of decimal digits is its value.
    Everything else is [NaN] here ([None]); literals with a fraction, an
    exponent or a radix prefix are outside the modelled domain. *)
Definition string_to_number (s : jstr) : option Z :=
  match trim s with
  | [] => Some 0%Z
  | c :: rest =>
      if (c =? 45)%N then
        match rest with
        | [] => None
        | _ :: _ => option_map (fun n => (- Z.of_N n)%Z) (digits_value rest 0)
        end
      else if (c =? 43)%N then
        match rest with
        | [] => None
        | _ :: _ => option_map Z.of_N (digits_value rest 0)
        end
      else option_map Z.of_N (digits_value (c :: rest) 0)
  end.

(** [Number(v)]; [None] is [NaN]. *)
Definition to_number (v : value) : outcome (option Z) :=
  match v with
  | Undefined => Ok None
  | Null => Ok (Some 0%Z)
  | Bool b => Ok (Some (if b then 1 else 0)%Z)
  | Num z => Ok (Some z)
  | Str s => Ok (string_to_number s)
  | Arr _ => obind (to_string v) (fun s => Ok (string_to_number s))
  | Obj members =>
      if has_own (js "toString") members then Throw TypeError else Ok None
  end.

(** *** [JSON.parse]

    A recursive-descent reading of the JSON grammar. Numbers are read as
    integers; a text with a fraction or an exponent is outside the modelled
    domain and is not accepted. *)

Definition is_json_ws (c : N) : bool :=
  (c =? 32)%N || (c =? 9)%N || (c =? 10)%N || (c =? 13)%N.

Fixpoint skip_ws (s : jstr) : jstr :=
  match s with
  | c :: s' => if is_json_ws c then skip_ws s' else s
  | [] => []
  end.

Definition hex_val (c : N) : option N :=
  if between 48 57 c then Some (c - 48)%N
  else if between 97 102 c then Some (c - 87)%N
  else if between 65 70 c then Some (c - 55)%N
  else None.

Definition hex4 (a b c d : N) : option N :=
  match hex_val a, hex_val b, hex_val c, hex_val d with
  | Some x, Some y, Some z, Some w => Some (((x * 16 + y) * 16 + z) * 16 + w)%N
  | _, _, _, _ => None
  end.

Definition unescape (c : N) : option N :=
  if (c =? 34)%N then Some 34%N          (* quote *)
  else if (c =? 92)%N then Some 92%N     (* backslash *)
  else if (c =? 47)%N then Some 47%N     (* slash *)
  else if (c =? 98)%N then Some 8%N      (* b: backspace *)
  else if (c =? 102)%N then Some 12%N    (* f: form feed *)
  else if (c =? 110)%N then Some 10%N    (* n: line feed *)
  else if (c =? 114)%N then Some 13%N    (* r: carriage return *)
  else if (c =? 116)%N then Some 9%N     (* t: tab *)
  else None.

(** The inside of a string literal, from just after the opening quote:
    the decoded text and what follows the closing quote. *)
Fixpoint parse_string_body (s : jstr) : option (jstr * jstr) :=
  match s with
  | [] => None
  | c :: s1 =>
      if (c =? DQUOTE)%N then Some ([], s1)
      else if (c =? BACKSLASH)%N then
        match s1 with
        | [] => None
        | e :: s2 =>
            if (e =? 117)%N then          (* \uXXXX *)
              match s2 with
              | h1 :: h2 :: h3 :: h4 :: s3 =>
                  match hex4 h1 h2 h3 h4 with
                  | Some u =>
                      match parse_string_body s3 with
                      | Some (t, rest) => Some (u :: t, rest)
                      | None => None
                      end
                  | None => None
                  end
              | _ => None
              end
            else
              match unescape e with
              | Some u =>
                  match parse_string_body s2 with
                  | Some (t, rest) => Some (u :: t, rest)
                  | None => None
                  end
              | None => None
              end
        end
      else if (c <? 32)%N then None
      else
        match parse_string_body s1 with
        | Some (t, rest) => Some (c :: t, rest)
        | None => None
        end
  end.

Fixpoint span_digits (s : jstr) : jstr * jstr :=
  match s with
  | c :: s' =>
      if is_digit c then let '(d, rest) := span_digits s' in (c :: d, rest)
      else ([], s)
  | [] => ([], [])
  end.

(** An integer literal: an optional minus sign, then 0 or a run of digits
    without a leading 0; it must not be followed by a fraction or an
    exponent. *)
Definition parse_int (s : jstr) : option (Z * jstr) :=
  let '(neg, s1) :=
    match s with
    | c :: s' => if (c =? 45)%N then (true, s') else (false, s)
    | [] => (false, s)
    end in
  let '(d, rest) := span_digits s1 in
  match d with
  | [] => None
  | c :: d' =>
      let leading_zero_ok :=
        match d' with [] => true | _ :: _ => negb (c =? 48)%N end in
      let followed_ok :=
        match rest with
        | x :: _ => negb ((x =? 46)%N || (x =? 101)%N || (x =? 69)%N)
        | [] => true
        end in
      if leading_zero_ok && followed_ok then
        match digits_value d 0 with
        | Some n => Some ((if neg then - Z.of_N n else Z.of_N n)%Z, rest)
        | None => None
        end
      else None
  end.

Definition strip_prefix (p s : jstr) : option jstr :=
  if startsWith p s then Some (drop (length p) s) else None.

Fixpoint parse_value (fuel : nat) (s : jstr) : option (value * jstr) :=
  match fuel with
  | O => None
  | S f =>
      match skip_ws s with
      | [] => None
      | c :: s1 =>
          if (c =? DQUOTE)%N then
            match parse_string_body s1 with
            | Some (t, rest) => Some (Str t, rest)
            | None => None
            end
          else if (c =? 91)%N then          (* [ *)
            match skip_ws s1 with
            | c1 :: s2 =>
                if (c1 =? 93)%N then Some (Arr [], s2)
                else
                  (fix elems (g : nat) (s : jstr) (acc : list value)
                     : option (value * jstr) :=
                     match g with
                     | O => None
                     | S g' =>
                         match parse_value f s with
                         | None => None
                         | Some (v, rest) =>
                             match skip_ws rest with
                             | x :: rest' =>
                                 if (x =? 44)%N then elems g' rest' (v :: acc)
                                 else if (x =? 93)%N
                                 then Some (Arr (rev (v :: acc)), rest')
                                 else None
                             | [] => None
                             end
                         end
                     end) f s1 []
            | [] => None
            end
          else if (c =? 123)%N then         (* { *)
            match skip_ws s1 with
            | c1 :: s2 =>
                if (c1 =? 125)%N then Some (Obj [], s2)
                else
                  (fix members (g : nat) (s : jstr) (acc : list (jstr * value))
                     : option (value * jstr) :=
                     match g with
                     | O => None
                     | S g' =>
                         match skip_ws s with
                         | q :: s' =>
                             if (q =? DQUOTE)%N then
                               match parse_string_body s' with
                               | Some (k, rest) =>
                                   match skip_ws rest with
                                   | col :: rest1 =>
                                       if (col =? 58)%N then
                                         match parse_value f rest1 with
                                         | Some (v, rest2) =>
                                             match skip_ws rest2 with
                                             | x :: rest3 =>
                                                 if (x =? 44)%N
                                                 then members g' rest3 ((k, v) :: acc)
                                                 else if (x =? 125)%N
                                                 then Some (Obj (rev ((k, v) :: acc)), rest3)
                                                 else None
                                             | [] => None
                                             end
                                         | None => None
                                         end
                                       else None
                                   | [] => None
                                   end
                               | None => None
                               end
                             else None
                         | [] => None
                         end
                     end) f s1 []
            | [] => None
            end
          else
            match strip_prefix (js "true") (c :: s1) with
            | Some rest => Some (Bool true, rest)
            | None =>
            match strip_prefix (js "false") (c :: s1) with
            | Some rest => Some (Bool false, rest)
            | None =>
            match strip_prefix (js "null") (c :: s1) with
            | Some rest => Some (Null, rest)
            | None =>
            match parse_int (c :: s1) with
            | Some (z, rest) => Some (Num z, rest)
            | None => None
            end end end end
      end
  end.

(** [JSON.parse(text)]; [None] when it throws a [SyntaxError]. Each level
    of the descent consumes input, so the text's length bounds the depth. *)
Definition parse (text : jstr) : option value :=
  match parse_value (S (length text)) text with
  | Some (v, rest) => match skip_ws rest with [] => Some v | _ :: _ => None end
  | None => None
  end.

End Json.

(** ** The SSE framer ([sse.ts]) *)

Module SSE.

Record SSEEvent := mkEvent {
  event : jstr;
  data : jstr;
  id : option jstr;        (* [None]: the property is absent *)
  retry : option Z
}.

(** The variables [createSSEParser] closes over. *)
Record Parser := mkParser {
  buffer : jstr;
  ev : SSEEvent
}.

(** [{ event: "message", data: "" }] *)
Definition fresh : SSEEvent :=
  {| event := js "message"; data := []; id := None; retry := None |}.

Definition createSSEParser : Parser := {| buffer := []; ev := fresh |}.

Definition nonempty (s : jstr) : bool :=
  match s with [] => false | _ :: _ => true end.

Definition id_truthy (e : SSEEvent) : bool :=
  match id e with Some s => nonempty s | None => false end.

Definition retry_truthy (e : SSEEvent) : bool :=
  match retry e with Some z => negb (z =? 0)%Z | None => false end.

(** [ev.data += (ev.data ? "\n" : "") + text] *)
Definition append_data (e : SSEEvent) (text : jstr) : SSEEvent :=
  {| event := event e;
     data := data e ++ (if nonempty (data e) then [LF] else []) ++ text;
     id := id e; retry := retry e |}.

Section Framer.

(** The state of whoever listens, threaded through the synchronous calls
    of [onEvent]. *)
Context {U : Type}.

(** [Number(val)] of the platform on a string; [None] is [NaN]. *)
Variable Number : jstr -> option Z.

Variable onEvent : SSEEvent -> U -> U.

Definition dispatch (e : SSEEvent) (u : U) : SSEEvent * U :=
  if jstr_eqb (data e) [] && negb (id_truthy e) && negb (retry_truthy e)
  then (e, u)
  else (fresh, onEvent e u).

(** [Number(val) || undefined] *)
Definition retry_of (val : jstr) : option Z :=
  match Number val with
  | Some z => if (z =? 0)%Z then None else Some z
  | None => None
  end.

(** The body of the loop for one line that is not empty. *)
Definition field_line (line : jstr) (e : SSEEvent) : SSEEvent :=
  let sep := indexOf 58 line 0 in
  let field := match sep with None => line | Some k => slice line 0 k end in
  let val := match sep with None => [] | Some k => drop (k + 1) line end in
  let val := if startsWith [SP] val then drop 1 val else val in
  if jstr_eqb field (js "event") then
    {| event := val; data := data e; id := id e; retry := retry e |}
  else if jstr_eqb field (js "data") then append_data e val
  else if jstr_eqb field (js "id") then
    {| event := event e; data := data e; id := Some val; retry := retry e |}
  else if jstr_eqb field (js "retry") then
    {| event := event e; data := data e; id := id e; retry := retry_of val |}
  else e.

Definition on_line (line : jstr) (e : SSEEvent) (u : U) : SSEEvent * U :=
  let line := if endsWith [CR] line then take (length line - 1) line else line in
  if jstr_eqb line [] then dispatch e u
  else (field_line line e, u).

(** [while (true) { ... }] of [feed]: [i] is the scan index into [buf].
    One round consumes one line; [None] if [fuel] rounds do not reach the
    [break]. *)
Fixpoint feed_loop (fuel : nat) (buf : jstr) (i : nat) (e : SSEEvent) (u : U)
  : option (nat * SSEEvent * U) :=
  match fuel with
  | O => None
  | S f =>
      match indexOf LF buf i with
      | None => Some (i, e, u)
      | Some nl =>
          let '(e', u') := on_line (slice buf i nl) e u in
          feed_loop f buf (nl + 1) e' u'
      end
  end.

(** [feed(chunk, opts)]. A buffer holds at most [length] lines, so the
    bound on the loop is never reached ([feed_loop_terminates] below). *)
Definition feed (chunk : jstr) (flush : bool) (p : Parser) (u : U) : Parser * U :=
  let buf := buffer p ++ chunk in
  match feed_loop (S (length buf)) buf 0 (ev p) u with
  | None => (p, u)
  | Some (i, e, u) =>
      let buf := drop i buf in
      if flush && nonempty buf then
        let '(e', u') := dispatch (append_data e buf) u in
        ({| buffer := []; ev := e' |}, u')
      else ({| buffer := buf; ev := e |}, u)
  end.

(** Several calls of [feed] in a row, none of them flushing. *)
Fixpoint feed_each (chunks : list jstr) (p : Parser) (u : U) : Parser * U :=
  match chunks with
  | [] => (p, u)
  | c :: rest => let '(p', u') := feed c false p u in feed_each rest p' u'
  end.

(** The same scan told one code unit at a time, for reasoning: [line] is
    the part of the current line read so far, and comes back as the
    unfinished line at the end. *)
Fixpoint scan (line s : jstr) (e : SSEEvent) (u : U) : jstr * SSEEvent * U :=
  match s with
  | [] => (line, e, u)
  | c :: s' =>
      if (c =? LF)%N then let '(e', u') := on_line line e u in scan [] s' e' u'
      else scan (line ++ [c]) s' e u
  end.

End Framer.

(** A listener that records what it is given, in order. *)
Definition record_event (e : SSEEvent) (seen : list SSEEvent) : list SSEEvent :=
  seen ++ [e].

(** A listener hearing a run of events. *)
Definition hear {U : Type} (onEvent : SSEEvent -> U -> U) (u : U)
    (events : list SSEEvent) : U :=
  fold_left (fun u e => onEvent e u) events u.

(** The events one call of [feed] dispatches. *)
Definition framed (Number : jstr -> option Z) (chunk : jstr) (flush : bool)
    (p : Parser) : list SSEEvent :=
  snd (feed Number record_event chunk flush p []).

End SSE.

(** ** The extraction state machine and slide assembly ([extractSlides.ts]) *)

(** What the callbacks receive, in call order: a line for [log], a triple
    for [onPartial]. Both callbacks are taken as given (as they are when
    [callGlmAgent] walks an event) and not to throw. *)
Inductive effect :=
| Log (msg : jstr)
| LogCaught (e : exn) (data : jstr)
    (* the line "[SSE] Error parsing event data: <e>. Data: <data>";
       how <e> reads is the engine's business *)
| Partial (pos : Z) (html : jstr) (complete : bool).

Module Extract.

Import Re.

Record SlideToolState := mkSlide {
  buf : jstr;
  lastLen : nat;
  finalized : bool
}.

Record StreamExtractionState := mkState {
  toolState : gmap Z SlideToolState;
  assistantBuf : jstr
}.

Definition createExtractionState : StreamExtractionState :=
  {| toolState := ∅; assistantBuf := [] |}.

Definition set_slide (state : StreamExtractionState) (pos : Z) (s : SlideToolState)
  : StreamExtractionState :=
  {| toolState := <[pos := s]> (toolState state);
     assistantBuf := assistantBuf state |}.

Definition append_assistant (state : StreamExtractionState) (text : jstr)
  : StreamExtractionState :=
  {| toolState := toolState state; assistantBuf := assistantBuf state ++ text |}.

(** [state.toolState[pos] ||= { buf: "", lastLen: 0, finalized: false }]:
    the state with the entry present, and the entry. *)
Definition upsertPos (state : StreamExtractionState) (pos : Z)
  : StreamExtractionState * SlideToolState :=
  match toolState state !! pos with
  | Some s => (state, s)
  | None =>
      let s := {| buf := []; lastLen := 0; finalized := false |} in
      (set_slide state pos s, s)
  end.

Definition BACKTICKS : jstr := [96; 96; 96]%N.

(** [/^```(?:html)?\s*/i] *)
Definition FENCE_OPEN : regex :=
  Seq Bol (Seq (Lit BACKTICKS) (Seq (Opt (Lit (js "html"))) (Star [Space]))).

(** [/\s*```$/i] *)
Definition FENCE_CLOSE : regex := Seq (Star [Space]) (Seq (Lit BACKTICKS) Eol).

Definition stripFences (s : jstr) : jstr :=
  replace true FENCE_CLOSE [] (replace true FENCE_OPEN [] s).

(** A backslash followed by [n], by [t] or by a double quote. *)
Definition ESCAPED : regex :=
  Alt (Lit [BACKSLASH; 110%N]) (Alt (Lit [BACKSLASH; 116%N]) (Lit [BACKSLASH; DQUOTE])).

(** [/<[a-z!/]/i] *)
Definition TAG_OPEN : regex := Seq (Lit (js "<")) (Cls [Range 97 122; One 33; One 47]).

Definition maybeDecodeJsonString (s : jstr) : jstr :=
  if test false ESCAPED s && negb (test true TAG_OPEN s) then
    match Json.parse (quoted s) with
    | Some (Str decoded) => decoded
    | _ =>
        (* the [catch], then the replacements of the simple cases *)
        replace_all false (Lit [BACKSLASH; DQUOTE]) [DQUOTE]
          (replace_all false (Lit [BACKSLASH; 110%N]) [LF] s)
    end
  else s.

(** [/^\s*<!doctype html/i] *)
Definition DOCTYPE_START : regex :=
  Seq Bol (Seq (Star [Space]) (Lit (js "<!doctype html"))).

(** [/^\s*<html[\s>]/i] *)
Definition HTML_START : regex :=
  Seq Bol (Seq (Star [Space]) (Seq (Lit (js "<html")) (Cls [Space; One 62]))).

(** [/<\/html>\s*$/i] *)
Definition HTML_END : regex := Seq (Lit (js "</html>")) (Seq (Star [Space]) Eol).

Definition is_reset (cleanedRaw : jstr) : bool :=
  test true DOCTYPE_START cleanedRaw || test true HTML_START cleanedRaw.

Definition is_complete (b : jstr) : bool := test true HTML_END b.

Definition show_nat (n : nat) : jstr := show_N (N.of_nat n).

(** The classification of [onToolChunk]: the entry after the cleaned chunk
    has been taken in, and the line logged, if any. *)
Definition ingest (pos : Z) (s : SlideToolState) (cleanedRaw : jstr)
  : SlideToolState * list effect :=
  if is_reset cleanedRaw then
    let s' := {| buf := cleanedRaw; lastLen := length cleanedRaw;
                 finalized := finalized s |} in
    (s', [Log (js "[tool] pos=" ++ show_Z pos ++ js " reset start (len="
               ++ show_nat (lastLen s') ++ js ")")])
  else if (lastLen s <? length cleanedRaw)%nat then
    let tail := drop (lastLen s) cleanedRaw in
    match tail with
    | [] => (s, [])
    | _ :: _ =>
        let s' := {| buf := buf s ++ tail; lastLen := length cleanedRaw;
                     finalized := finalized s |} in
        (s', [Log (js "[tool] pos=" ++ show_Z pos ++ js " +"
                   ++ show_nat (length tail) ++ js " (total="
                   ++ show_nat (length (buf s')) ++ js ")")])
    end
  else if (length cleanedRaw <? lastLen s)%nat && (0 <? length cleanedRaw)%nat then
    let b := buf s ++ cleanedRaw in
    let s' := {| buf := b; lastLen := length b; finalized := finalized s |} in
    (s', [Log (js "[tool] pos=" ++ show_Z pos
               ++ js " non-monotonic, appended raw (total="
               ++ show_nat (length b) ++ js ")")])
  else if (0 <? length cleanedRaw)%nat && (lastLen s =? 0)%nat then
    ({| buf := buf s ++ cleanedRaw; lastLen := length cleanedRaw;
        finalized := finalized s |}, [])
  else (s, []).

(** What a chunk for a finalized position comes to: one line in the log. *)
Definition ignoring (pos : Z) : list effect :=
  [Log (js "[tool] pos=" ++ show_Z pos ++ js " is finalized. Ignoring chunk.")].

Definition onToolChunk (state : StreamExtractionState) (pos : Z) (raw : jstr)
  : StreamExtractionState * list effect :=
  let '(state, s) := upsertPos state pos in
  if finalized s then (state, ignoring pos)
  else
    let cleanedRaw := maybeDecodeJsonString (stripFences raw) in
    let '(s, logged) := ingest pos s cleanedRaw in
    let complete := is_complete (buf s) in
    let partial := [Partial pos (buf s) complete] in
    if complete then
      (set_slide state pos {| buf := buf s; lastLen := lastLen s; finalized := true |},
       logged ++ partial
       ++ [Log (js "[tool] pos=" ++ show_Z pos ++ js " finalized with </html> tag.")])
    else (set_slide state pos s, logged ++ partial).

(** A run of chunks, each with the position it is addressed to. *)
Definition ingest_all (chunks : list (Z * jstr)) (state : StreamExtractionState)
  : StreamExtractionState :=
  fold_left (fun st c => fst (onToolChunk st (fst c) (snd c))) chunks state.

(** The states a stream can be in: [walkEvent] changes the state through
    [onToolChunk] and by appending to the assistant text, and in no other
    way. *)
Inductive reachable : StreamExtractionState -> Prop :=
| reach_created : reachable createExtractionState
| reach_chunk state pos raw :
    reachable state -> reachable (fst (onToolChunk state pos raw))
| reach_text state text :
    reachable state -> reachable (append_assistant state text).

(** *** [walkEvent]

    The walk mutates the state as it goes and may be cut short by an
    exception; what it had done by then stays done. A computation takes the
    state and the effects so far and gives them back with its outcome. *)

Definition W (A : Type) : Type :=
  StreamExtractionState * list effect -> (StreamExtractionState * list effect) * outcome A.

Definition ret {A} (a : A) : W A := fun w => (w, Ok a).

Definition bind {A B} (m : W A) (f : A -> W B) : W B :=
  fun w =>
    match m w with
    | (w', Ok a) => f a w'
    | (w', Throw e) => (w', Throw e)
    end.

Definition lift {A} (o : outcome A) : W A := fun w => (w, o).

Definition emit (e : effect) : W unit := fun w => ((fst w, snd w ++ [e]), Ok tt).

Definition modify (f : StreamExtractionState -> StreamExtractionState) : W unit :=
  fun w => ((f (fst w), snd w), Ok tt).

Definition when (b : bool) (m : W unit) : W unit := if b then m else ret tt.

Declare Scope walk_scope.
Delimit Scope walk_scope with walk.
Notation "'let*' x ':=' m 'in' k" := (bind m (fun x => k))
  (at level 10, x name, m at level 100, k at level 200, only parsing) : walk_scope.
Local Open Scope walk_scope.

(** [for (const x of xs) body(x)] *)
Fixpoint for_of {A} (xs : list A) (body : A -> W unit) : W unit :=
  match xs with
  | [] => ret tt
  | x :: rest => let* _ := body x in for_of rest body
  end.

Definition is_str (v : value) (s : jstr) : bool :=
  match v with Str t => jstr_eqb t s | _ => false end.

(** [Number(a) || ...]: a number that is neither [NaN] nor 0 *)
Definition number_truthy (n : option Z) : bool :=
  match n with Some z => negb (z =? 0)%Z | None => false end.

(** [/insert|add/.test(tool) && /page|slide/.test(tool)] *)
Definition isAdd (tool : jstr) : bool :=
  test false (Alt (Lit (js "insert")) (Lit (js "add"))) tool
  && test false (Alt (Lit (js "page")) (Lit (js "slide"))) tool.

(** [Number(o.position?.[0]) || Number(o.page_index) || 1] *)
Definition position_of (o : value) : outcome Z :=
  obind (Json.get o (js "position")) (fun p =>
  obind (Json.to_number (Json.get_opt_index0 p)) (fun n1 =>
  if number_truthy n1 then Ok (default 1%Z n1)
  else
    obind (Json.get o (js "page_index")) (fun pi =>
    obind (Json.to_number pi) (fun n2 =>
    Ok (if number_truthy n2 then default 1%Z n2 else 1%Z))))).

(** [o.output_delta ?? o.delta ?? o.output ?? o.html ?? ""] *)
Definition raw_of (o : value) : outcome value :=
  obind (Json.get o (js "output_delta")) (fun a =>
  obind (Json.nullish_or a (Json.get o (js "delta"))) (fun b =>
  obind (Json.nullish_or b (Json.get o (js "output"))) (fun c =>
  obind (Json.nullish_or c (Json.get o (js "html"))) (fun d =>
  Json.nullish_or d (Ok (Str [])))))).

(** [onToolChunk(state, pos, raw, log, onPartial)] inside the walk *)
Definition tool_chunk (pos : Z) (raw : jstr) : W unit :=
  fun w =>
    let '(state, produced) := onToolChunk (fst w) pos raw in
    ((state, snd w ++ produced), Ok tt).

(** The first [if] of the loop over the parts: a tool call. *)
Definition walk_object_part (part : value) : W unit :=
  let* ty := lift (Json.get_opt part (js "type")) in
  if is_str ty (js "object") then
    let* o := lift (Json.get part (js "object")) in
    when (Json.truthy o)
      (let* tn := lift (Json.get o (js "tool_name")) in
       let* nm := lift (Json.or_else tn
                         (obind (Json.get o (js "name")) (fun n =>
                          Json.or_else n (Ok (Str []))))) in
       let* tool := lift (obind (Json.to_string nm) (fun s => Ok (toLowerCase s))) in
       when (isAdd tool)
         (let* pos := lift (position_of o) in
          let* raw := lift (raw_of o) in
          match raw with
          | Str (c :: r) => tool_chunk pos (c :: r)
          | _ => ret tt
          end))
  else ret tt.

(** The second [if]: narrative text. *)
Definition walk_text_part (part : value) : W unit :=
  let* ty := lift (Json.get_opt part (js "type")) in
  if is_str ty (js "text") then
    let* tx := lift (Json.get part (js "text")) in
    match tx with
    | Str text => modify (fun st => append_assistant st text)
    | _ => ret tt
    end
  else ret tt.

Definition walk_part (part : value) : W unit :=
  let* _ := walk_object_part part in
  walk_text_part part.

Definition walk_msg (msg : value) : W unit :=
  let* ph := lift (Json.get_opt msg (js "phase")) in
  let* phase := lift (obind (Json.nullish_or ph (Ok (Str (js "?")))) Json.to_string) in
  let* _ := emit (Log (js "[SSE] phase=" ++ phase)) in
  let* content := lift (Json.get msg (js "content")) in
  for_of (Json.asArray content) walk_part.

Definition walk_choice (choice : value) : W unit :=
  let* ms := lift (Json.get choice (js "messages")) in
  let* ms := lift (Json.nullish_or ms (Json.get choice (js "message"))) in
  for_of (Json.asArray ms) walk_msg.

Definition walkEvent (obj : value) : W unit :=
  let* choices := lift (Json.get obj (js "choices")) in
  let* _ := for_of (Json.asArray choices) walk_choice in
  let* ot := lift (Json.get_opt obj (js "output_text")) in
  let* d1 := lift (Json.get_opt ot (js "delta")) in
  let* delta := lift (Json.nullish_or d1
                       (obind (Json.get_opt obj (js "delta")) (fun d2 =>
                        Json.nullish_or d2 (Ok (Str []))))) in
  match delta with
  | Str (c :: r) => modify (fun st => append_assistant st (c :: r))
  | _ => ret tt
  end.

(** A computation of the walk that leads from reachable states to
    reachable states, whether it ends normally or by an exception. *)
Definition keeps {A} (m : W A) : Prop :=
  forall w, reachable (fst w) -> reachable (fst (fst (m w))).

(** *** [finalizeSlides] *)

(** [/<!doctype html[\s\S]*?<\/html>/i] *)
Definition HTML_DOC_RE : regex :=
  Seq (Lit (js "<!doctype html")) (Seq (StarLazy [Space; NotSpace]) (Lit (js "</html>"))).

(** [/<html[\s\S]*?<\/html>/i] *)
Definition HTML_TAG_RE : regex :=
  Seq (Lit (js "<html")) (Seq (StarLazy [Space; NotSpace]) (Lit (js "</html>"))).

Definition cutFirstHtmlDoc (s : jstr) : option jstr :=
  match exec true HTML_DOC_RE s with
  | Some m => Some (trim m)
  | None =>
      match exec true HTML_TAG_RE s with
      | Some m => Some (trim m)
      | None => None
      end
  end.

Record Slide := mkOut {
  position : Z;
  html : jstr
}.

(** The document built around a buffer that holds no complete document. *)
Definition shell (pos : Z) (b : jstr) : jstr :=
  js "<!doctype html><html><head><meta charset=" ++ quoted (js "utf-8")
  ++ js "><title>Slide " ++ show_Z pos
  ++ js "</title></head><body>" ++ b ++ js "</body></html>".

Definition by_position (a b : Z * jstr) : Prop := (fst a <= fst b)%Z.

#[global] Instance by_position_dec a b : Decision (by_position a b).
Proof. unfold by_position. apply _. Defined.

(** [buf && buf.trim().length > 0] *)
Definition has_text (b : jstr) : bool := SSE.nonempty b && (0 <? length (trim b))%nat.

(** [Object.entries(...).map(...).filter(...).sort(...)]: the positions are
    distinct, so whatever order the entries are listed in, the sort leaves
    them in the one ascending order. *)
Definition entries (state : StreamExtractionState) : list (Z * jstr) :=
  merge_sort by_position
    (filter (fun e : Z * jstr => has_text (snd e))
       ((fun e => (fst e, buf (snd e))) <$> map_to_list (toolState state))).

Definition slide_of (e : Z * jstr) : Slide :=
  let '(pos, rawBuf) := e in
  let b := replace true FENCE_CLOSE [] (replace true FENCE_OPEN [] rawBuf) in
  {| position := pos;
     html := match cutFirstHtmlDoc b with
             | Some doc => doc
             | None => shell pos b
             end |}.

Definition finalizeSlides (state : StreamExtractionState) : list Slide :=
  let slides := slide_of <$> entries state in
  match slides with
  | _ :: _ => slides
  | [] =>
      let b := replace true FENCE_CLOSE []
                 (replace true FENCE_OPEN [] (assistantBuf state)) in
      match cutFirstHtmlDoc b with
      | Some doc => if SSE.nonempty doc then [{| position := 1; html := doc |}] else []
      | None => []
      end
  end.

(** *** Runs of chunks and what they report *)

(** The text [onToolChunk] works on:
    [maybeDecodeJsonString(stripFences(raw))] *)
Definition cleanedRaw (raw : jstr) : jstr := maybeDecodeJsonString (stripFences raw).

(** The calls of [onPartial] among the effects, in order. *)
Fixpoint partials (effs : list effect) : list (Z * jstr * bool) :=
  match effs with
  | [] => []
  | Partial pos html complete :: rest => (pos, html, complete) :: partials rest
  | _ :: rest => partials rest
  end.

(** The effects of a run of chunks, in order. *)
Fixpoint ingest_effects (chunks : list (Z * jstr)) (state : StreamExtractionState)
  : list effect :=
  match chunks with
  | [] => []
  | c :: rest =>
      let '(state', effs) := onToolChunk state (fst c) (snd c) in
      effs ++ ingest_effects rest state'
  end.

(** Cumulative snapshots: each text begins with the one before it, and none
    but the last may end with the closing tag. *)
Fixpoint snapshots (prev : jstr) (cs : list jstr) : Prop :=
  match cs with
  | [] => True
  | c :: rest => prev `prefix_of` c /\ is_complete prev = false /\ snapshots c rest
  end.

(** The text begins with [<!doctype html] or with [<html], in either case
    of letters. *)
Definition opens_document (d : jstr) : bool :=
  match lit_match true (js "<!doctype html") d, lit_match true (js "<html") d with
  | None, None => false
  | _, _ => true
  end.

(** A computation of the walk that keeps the property [P] of the
    extraction state, whether it ends normally or by an exception. *)
Definition holds (P : StreamExtractionState -> Prop) {A} (m : W A) : Prop :=
  forall w, P (fst w) -> P (fst (fst (m w))).

End Extract.

(** ** Transport: [debugFetch] and [callGlmAgent]

    The request is always the same POST; what varies is what the network
    makes of each attempt, so the network is a function from the number of
    the attempt to its outcome. Text arrives already decoded. The
    diagnostic channels of [debugEnabled] are off, as they are unless the
    page asks for them: their lines carry wall-clock stamps and are left
    out, and of the other lines written to the log those of the read loop
    and of the listener are kept. *)

Module Net.

(** An instance of [Error]. *)
Record Error := mkError {
  name : jstr;
  message : jstr
}.

(** What a promise is rejected with and a [catch] receives: an instance of
    [Error], or a value that is none - a primitive or a plain object. Of a
    value that is no [Error] only [name] bears on what the program does
    (its [message] goes to a diagnostic line of [debugFetch] and nowhere
    else); [name] is [None] here where the value has no such property or
    has one that is no string. The value is never [null] or [undefined]:
    [fetch] and the reader of a body reject with an exception of their own
    or with the reason of the abort, and the program aborts without giving
    one. *)
Inductive thrown :=
| AnError (e : Error)
| NotAnError (name : option jstr).

Coercion AnError : Error >-> thrown.

(** [err.name === n] *)
Definition named (n : jstr) (t : thrown) : bool :=
  match t with
  | AnError e => jstr_eqb (name e) n
  | NotAnError (Some m) => jstr_eqb m n
  | NotAnError None => false
  end.

(** A response body as its reader hands it out: the chunks, then [done],
    or a rejected [read()] where [failure] is set. *)
Record Body := mkBody {
  chunks : list jstr;
  failure : option thrown
}.

Record Response := mkResponse {
  status : Z;
  statusText : jstr;
  body : option Body;
  text : jstr                   (* what [response.text()] resolves to *)
}.

(** [res.ok] *)
Definition ok (r : Response) : bool := (200 <=? status r)%Z && (status r <=? 299)%Z.

Inductive fetched :=
| Resolves (r : Response)
| Rejects (e : thrown).

Inductive result (A : Type) :=
| Returns (a : A)
| Throws (e : thrown).
Arguments Returns {A} a.
Arguments Throws {A} e.

(** What [debugFetch] does to the outside, in order. *)
Inductive action :=
| Wait (ms : Z)                 (* [setTimeout(r, delay)] awaited *)
| Fetch (attempt : nat).        (* [fetch(input, init)] *)

(** The outcomes after which [debugFetch] tries again while attempts are
    left: a status of 500 or more, or a rejection named [TypeError]. *)
Definition retryable (f : fetched) : bool :=
  match f with
  | Resolves r => (500 <=? status r)%Z
  | Rejects e => named (js "TypeError") e
  end.

(** What one attempt does: the retries wait first. *)
Definition attempt_actions (attempt : nat) : list action :=
  (if (1 <? attempt)%nat then [Wait (1000 * (Z.of_nat attempt - 1))] else [])
  ++ [Fetch attempt].

(** The attempts [first], [first + 1], ..., [count] of them. *)
Definition schedule_from (first count : nat) : list action :=
  flat_map attempt_actions (seq first count).

Section DebugFetch.

(** The network: what the n-th call of [fetch] comes to. *)
Variable network : nat -> fetched.
Variable label : jstr.
Variable retries : nat.

(** [while (attempt < retries) { ... }] and the [throw] after it. One round
    is one attempt; [None] if [fuel] rounds do not settle the call. Where
    the loop goes on after a failure, [lastError] is an object, so
    [lastError || new Error(...)] is [lastError] whenever it is set. *)
Fixpoint debugFetch_loop (fuel attempt : nat) (lastError : option thrown)
    (trace : list action) : option (result Response * list action) :=
  match fuel with
  | O => None
  | S f =>
      if (attempt <? retries)%nat then
        let attempt := S attempt in
        let trace :=
          if (1 <? attempt)%nat
          then trace ++ [Wait (1000 * (Z.of_nat attempt - 1))]
          else trace in
        let trace := trace ++ [Fetch attempt] in
        match network attempt with
        | Resolves res =>
            if negb (ok res) && (500 <=? status res)%Z && (attempt <? retries)%nat
            then
              debugFetch_loop f attempt
                (Some (AnError
                         {| name := js "Error";
                            message := js "Server error: " ++ show_Z (status res)
                                       ++ js " " ++ statusText res |}))
                trace
            else Some (Returns res, trace)
        | Rejects err =>
            if named (js "TypeError") err && (attempt <? retries)%nat
            then debugFetch_loop f attempt (Some err) trace
            else Some (Throws err, trace)
        end
      else
        Some (Throws (default
                        (AnError
                           {| name := js "Error";
                              message := label ++ js " request failed after "
                                         ++ show_N (N.of_nat retries) ++ js " attempts." |})
                        lastError),
              trace)
  end.

Definition debugFetch : option (result Response * list action) :=
  debugFetch_loop (S retries) 0 None [].

End DebugFetch.

Record GeneratedSlide := mkGenerated {
  pageNumber : Z;
  html : jstr;
  draft : jstr;
  complete : bool
}.

(** The variables of one call of [callGlmAgent] that the listener and the
    read loop share. [walked] is not in the program: it notes the payloads
    [walkEvent] was called with. *)
Record Stream := mkStream {
  seenEventIds : gset jstr;
  shouldBreakLoop : bool;
  finalConvId : value;
  extractionState : Extract.StreamExtractionState;
  effects : list effect;
  walked : list value
}.

Definition logged (st : Stream) (e : effect) : Stream :=
  {| seenEventIds := seenEventIds st; shouldBreakLoop := shouldBreakLoop st;
     finalConvId := finalConvId st; extractionState := extractionState st;
     effects := effects st ++ [e]; walked := walked st |}.

Definition start (conversationId : jstr) : Stream :=
  {| seenEventIds := ∅; shouldBreakLoop := false;
     finalConvId := Str conversationId;
     extractionState := Extract.createExtractionState;
     effects := []; walked := [] |}.

Section CallGlmAgent.

(** [JSON.parse] of the platform; [None] when it throws. *)
Variable JSON_parse : jstr -> option value.
(** [Number] of the platform on a string, for the framer. *)
Variable Number : jstr -> option Z.

(** Which of the two copies of [callGlmAgent]: the one that sets
    [shouldBreakLoop] on the end marker and leaves its read loop ([true]),
    or the one that only logs the marker ([false]). *)
Variable breaks : bool.

(** [if (evt.id && seenEventIds.has(evt.id))] *)
Definition is_repeat (evt : SSE.SSEEvent) (st : Stream) : bool :=
  match SSE.id evt with
  | Some i => SSE.nonempty i && bool_decide (i ∈ seenEventIds st)
  | None => false
  end.

Definition remember (evt : SSE.SSEEvent) (st : Stream) : Stream :=
  match SSE.id evt with
  | Some i =>
      if SSE.nonempty i then
        {| seenEventIds := {[ i ]} ∪ seenEventIds st;
           shouldBreakLoop := shouldBreakLoop st; finalConvId := finalConvId st;
           extractionState := extractionState st; effects := effects st;
           walked := walked st |}
      else st
  | None => st
  end.

(** The [try] block of the listener once the text has parsed. *)
Definition deliver (evt : SSE.SSEEvent) (eventData : value) (st : Stream) : Stream :=
  match Json.get eventData (js "conversation_id") with
  | Throw e => logged st (LogCaught e (SSE.data evt))
  | Ok cid =>
      let conv :=
        if Json.truthy cid && negb (Json.truthy (finalConvId st))
        then cid else finalConvId st in
      let '((ext, eff), out) :=
        Extract.walkEvent eventData (extractionState st, effects st) in
      let st' :=
        {| seenEventIds := seenEventIds st; shouldBreakLoop := shouldBreakLoop st;
           finalConvId := conv; extractionState := ext; effects := eff;
           walked := walked st ++ [eventData] |} in
      match out with
      | Ok _ => st'
      | Throw e => logged st' (LogCaught e (SSE.data evt))
      end
  end.

(** The listener given to [createSSEParser]. *)
Definition onEvent (evt : SSE.SSEEvent) (st : Stream) : Stream :=
  if is_repeat evt st then st
  else
    let st := remember evt st in
    if jstr_eqb (trim (SSE.data evt)) (js "[DONE]") then
      let st := logged st (Log (js "[SSE] Received [DONE] marker.")) in
      if breaks then
        {| seenEventIds := seenEventIds st; shouldBreakLoop := true;
           finalConvId := finalConvId st; extractionState := extractionState st;
           effects := effects st; walked := walked st |}
      else st
    else
      match JSON_parse (SSE.data evt) with
      | None => logged st (LogCaught SyntaxError (SSE.data evt))
      | Some eventData => deliver evt eventData st
      end.

Definition parse (chunk : jstr) (flush : bool) (p : SSE.Parser) (st : Stream)
  : SSE.Parser * Stream :=
  SSE.feed Number onEvent chunk flush p st.

(** How the read loop ended, and how many chunks it took from the body. *)
Record Read := mkRead {
  parser : SSE.Parser;
  stream : Stream;
  taken : nat;
  rejected : option thrown
}.

(** [while (true) { const { done, value } = await reader.read(); ... }] *)
Fixpoint read_loop (pending : list jstr) (failure : option thrown)
    (p : SSE.Parser) (st : Stream) (taken : nat) : Read :=
  match pending with
  | [] =>
      match failure with
      | Some e => {| parser := p; stream := st; taken := taken; rejected := Some e |}
      | None =>
          let st := if breaks then logged st (Log (js "[GLM API] Stream closed by server."))
                    else st in
          {| parser := p; stream := st; taken := taken; rejected := None |}
      end
  | chunk :: rest =>
      let '(p, st) := parse chunk false p st in
      if breaks && shouldBreakLoop st then
        {| parser := p;
           stream := logged st
                       (Log (js "[GLM API] Breaking read loop after receiving [DONE]."));
           taken := S taken; rejected := None |}
      else read_loop rest failure p st (S taken)
  end.

Definition finalSlides (st : Stream) : list GeneratedSlide :=
  (fun s => {| pageNumber := Extract.position s; html := Extract.html s;
               draft := Extract.html s; complete := true |})
  <$> Extract.finalizeSlides (extractionState st).

(** What the caller hears at the end. *)
Inductive callback :=
| OnComplete (conversationId : value) (slides : list GeneratedSlide)
| OnError (message : jstr).

(** From the reader to [onComplete]: the read loop, the last flush, the
    assembly. A rejected read leaves through the [catch]. *)
Definition consume (b : Body) (conversationId : jstr) : result callback * Read :=
  let st := logged (start conversationId) (Log (js "[GLM API] Waiting for stream...")) in
  let r := read_loop (chunks b) (failure b) SSE.createSSEParser st 0 in
  match rejected r with
  | Some e => (Throws e, r)
  | None =>
      let '(p, st) := parse [] true (parser r) (stream r) in
      let st := logged st (Log (js "[GLM API] Stream finished.")) in
      (Returns (OnComplete (finalConvId st) (finalSlides st)),
       {| parser := p; stream := st; taken := taken r; rejected := None |})
  end.

(** The [catch] of [callGlmAgent]: the message given to [onError]. It
    starts as
    [error instanceof Error ? error.message : 'An unknown error occurred']
    and is replaced where the name of what was caught is [AbortError] or
    [TypeError]. *)
Definition error_message (error : thrown) : jstr :=
  let message :=
    match error with
    | AnError e => message e
    | NotAnError _ => js "An unknown error occurred"
    end in
  if named (js "AbortError") error then js "Request aborted by client."
  else if named (js "TypeError") error then
    js "A network error occurred after multiple retries. This could be due to a CORS policy, a firewall, or loss of internet connectivity. Please check your network and the server's status."
  else message.

(** [callGlmAgent] with both [onComplete] and [onError] supplied: the one
    callback it ends with. [None] only if [debugFetch] did not settle. *)
Definition callGlmAgent (network : nat -> fetched) (conversationId : jstr)
  : option callback :=
  match debugFetch network (js "agents") 3 with
  | None => None
  | Some (Throws e, _) => Some (OnError (error_message e))
  | Some (Returns response, _) =>
      match (if ok response then body response else None) with
      | None =>
          Some (OnError (js "API request failed: " ++ show_Z (status response)
                         ++ js " " ++ statusText response ++ js " - " ++ text response))
      | Some b =>
          match fst (consume b conversationId) with
          | Returns cb => Some cb
          | Throws e => Some (OnError (error_message e))
          end
      end
  end.

(** [addPage]: the call has no conversation id. *)
Definition addPage (network : nat -> fetched) : option callback :=
  callGlmAgent network [].

(** [updatePage]: without a conversation id ([undefined] or the empty
    string) the call reports an error and does not reach [callGlmAgent]. *)
Definition updatePage (network : nat -> fetched) (conversationId : option jstr)
  : option callback :=
  match conversationId with
  | Some (c :: r) => callGlmAgent network (c :: r)
  | _ => Some (OnError (js "conversationId is required for updatePage"))
  end.

End CallGlmAgent.

End Net.

(** ** The callers in [App.tsx]: what the callbacks do to the slides on
       screen

    [handleGenerate] and [handleUpdateSlide] hand [onPartial] and
    [onComplete] to [addPage] and [updatePage]; each callback replaces the
    list [generatedSlides] of the state by a function of the list it
    finds. These are those functions. A slide on screen carries all four
    fields, as every slide does that these callbacks or [callGlmAgent]
    made. *)

Module App.

Import Net.

(** What the padding loop pushes when the list has [n] slides:
    [{ pageNumber: slides.length + 1, html: '', draft: '', complete: false }] *)
Definition placeholder (n : nat) : GeneratedSlide :=
  {| pageNumber := Z.of_nat n + 1; html := []; draft := []; complete := false |}.

(** [while (slides.length <= i) slides.push(...)], as many rounds as given. *)
Fixpoint pad (rounds : nat) (slides : list GeneratedSlide) : list GeneratedSlide :=
  match rounds with
  | O => slides
  | S n => pad n (slides ++ [placeholder (length slides)])
  end.

(** [{ ...prev, draft: html, ...(complete ? { html, complete: true } : {}) }] *)
Definition drafted (prev : GeneratedSlide) (text : jstr) (done : bool) : GeneratedSlide :=
  {| pageNumber := pageNumber prev;
     html := if done then text else html prev;
     draft := text;
     complete := if done then true else complete prev |}.

(** An array has at most 2^32 - 1 elements. *)
Definition MAX_LENGTH : Z := 4294967295.

(** [onPartial] of [handleGenerate], for a position that is an integer (as
    every position of this development is). An index below 0 names no
    element of the array: the loop does not run, the write lands beside
    the elements, and the list of slides is as before. Otherwise the loop
    runs while the length is at most [i], so [S i - length slides] times -
    unless [i] is 2^32 - 1 or more: then the array is full before the loop
    is done, the next [push] throws a RangeError, and the function gives
    no list ([None]). *)
Definition onPartial (slides : list GeneratedSlide) (pos : Z) (text : jstr) (done : bool)
  : option (list GeneratedSlide) :=
  let i := (pos - 1)%Z in
  if (i <? 0)%Z then Some slides
  else if (MAX_LENGTH <=? i)%Z then None
  else
    let i := Z.to_nat i in
    let slides := pad (S i - length slides) slides in
    match slides !! i with
    | Some prev =>
        Some (<[i := drafted {| pageNumber := pos; html := html prev; draft := draft prev;
                                complete := complete prev |} text done]> slides)
    | None => Some slides
    end.

(** [onPartial] of [handleUpdateSlide]: [if (i >= slides.length) return s]
    and then the write, which for an index below 0 lands beside the
    elements. *)
Definition onPartialUpdate (slides : list GeneratedSlide) (pos : Z) (text : jstr)
    (done : bool) : list GeneratedSlide :=
  let i := (pos - 1)%Z in
  if (Z.of_nat (length slides) <=? i)%Z then slides
  else if (i <? 0)%Z then slides
  else
    match slides !! Z.to_nat i with
    | Some prev => <[Z.to_nat i := drafted prev text done]> slides
    | None => slides
    end.

(** [newSlides.findIndex(s => s.pageNumber === n)] *)
Fixpoint findIndex (n : Z) (slides : list GeneratedSlide) : option nat :=
  match slides with
  | [] => None
  | s :: rest => if (pageNumber s =? n)%Z then Some 0%nat else S <$> findIndex n rest
  end.

(** [{ ...updatedSlide, draft: updatedSlide.html, complete: true }] *)
Definition completed (u : GeneratedSlide) : GeneratedSlide :=
  {| pageNumber := pageNumber u; html := html u; draft := html u; complete := true |}.

(** The slides after [onComplete] of [handleUpdateSlide]: each slide that
    came back replaces the first slide with its page number, if any. *)
Definition mergeUpdated (current updated : list GeneratedSlide) : list GeneratedSlide :=
  fold_left (fun acc u =>
               match findIndex (pageNumber u) acc with
               | Some i => <[i := completed u]> acc
               | None => acc
               end) updated current.

(** The slides on screen after the calls of [onPartial] in [ps]; [None]
    if one of them gives no list. *)
Fixpoint replay (ps : list (Z * jstr * bool)) (slides : list GeneratedSlide)
  : option (list GeneratedSlide) :=
  match ps with
  | [] => Some slides
  | p :: rest =>
      match onPartial slides p.1.1 p.1.2 p.2 with
      | Some slides => replay rest slides
      | None => None
      end
  end.

(** What the screen shows of an entry of the extraction state. *)
Definition shown (pos : Z) (s : Extract.SlideToolState) : GeneratedSlide :=
  {| pageNumber := pos;
     html := if Extract.finalized s then Extract.buf s else [];
     draft := Extract.buf s;
     complete := Extract.finalized s |}.

(** The screen and the extraction state agree: every slide on screen is
    what [shown] makes of the entry for its position, or a placeholder
    where there is no entry, and every entry from position 1 on has its
    slide. *)
Definition mirrors (st : Extract.StreamExtractionState) (ui : list GeneratedSlide) : Prop :=
  (forall i slide, ui !! i = Some slide ->
     slide = match Extract.toolState st !! (Z.of_nat i + 1)%Z with
             | Some s => shown (Z.of_nat i + 1) s
             | None => placeholder i
             end)
  /\ (forall pos s, (1 <= pos)%Z -> Extract.toolState st !! pos = Some s ->
        (Z.to_nat (pos - 1) < length ui)%nat).

End App.

(** ** Masking secrets in what is logged ([maskSecrets] of [utils/debug.ts])

    Both patterns have the form of a group followed by more, and the
    replacement keeps the text of the group and puts three bullets in the
    place of what followed it. *)

Module Debug.

Import Re.

(** The three bullets of the replacement *)
Definition BULLETS : jstr := [8226; 8226; 8226]%N.

(** A pattern [(head)tail] at index [i], where [s] is the input from [i]
    on: the end of the group and the end of the match. The matcher tries
    the ways to match the group in order and stays with the first after
    which the tail matches. *)
Definition match_group (ci : bool) (head tail : regex) (i : nat) (s : jstr)
  : option (nat * nat) :=
  match rmatch ci head i s
          (fun j s' => match match_at ci tail j s' with
                       | Some _ => Some j
                       | None => None
                       end) with
  | Some j =>
      match match_at ci tail j (drop (j - i) s) with
      | Some e => Some (j, e)
      | None => None
      end
  | None => None
  end.

(** Leftmost match at or after index [i]: start, end of the group, end. *)
Fixpoint search_group (ci : bool) (head tail : regex) (i : nat) (s : jstr)
  : option (nat * nat * nat) :=
  match match_group ci head tail i s with
  | Some (j, e) => Some (i, j, e)
  | None =>
      match s with
      | [] => None
      | _ :: s' => search_group ci head tail (S i) s'
      end
  end.

(** [s.replace(/(head)tail/g, "$1" + bullets + suffix)]; [s] is the input
    from index [i] on. As in [replace_all_from], each round consumes at
    least one unit. *)
Fixpoint mask_from (ci : bool) (head tail : regex) (suffix : jstr)
    (fuel i : nat) (s : jstr) : jstr :=
  match fuel with
  | O => s
  | S f =>
      match search_group ci head tail i s with
      | None => s
      | Some (b, j, e) =>
          take (b - i) s ++ slice s (b - i) (j - i) ++ BULLETS ++ suffix ++
          (if (e =? b)%nat then
             match drop (b - i) s with
             | [] => []
             | c :: s' => c :: mask_from ci head tail suffix f (S b) s'
             end
           else mask_from ci head tail suffix f e (drop (e - i) s))
      end
  end.

Definition mask (ci : bool) (head tail : regex) (suffix s : jstr) : jstr :=
  mask_from ci head tail suffix (S (length s)) 0 s.

(** [[A-Za-z0-9\.\-\_]] *)
Definition TOKEN_UNIT : list citem :=
  [Range 65 90; Range 97 122; Range 48 57; One 46; One 45; One 95].

(** [(Authorization:\s*Bearer\s+)] *)
Definition BEARER_HEAD : regex :=
  Seq (Lit (js "Authorization:"))
    (Seq (Star [Space]) (Seq (Lit (js "Bearer")) (Seq (Cls [Space]) (Star [Space])))).

(** [[A-Za-z0-9\.\-\_]+] *)
Definition BEARER_TOKEN : regex := Seq (Cls TOKEN_UNIT) (Star TOKEN_UNIT).

(** Any unit but the double quote *)
Definition NOT_QUOTE : list citem := [Range 0 33; Range 35 65535].

(** [[_-]?] *)
Definition JOINT : regex := Opt (Cls [One 95; One 45]).

(** [token|api[_-]?key|download_token|access[_-]?token] *)
Definition KEY_NAME : regex :=
  Alt (Lit (js "token"))
    (Alt (Seq (Lit (js "api")) (Seq JOINT (Lit (js "key"))))
       (Alt (Lit (js "download_token"))
          (Seq (Lit (js "access")) (Seq JOINT (Lit (js "token")))))).

(** What [KEY_NAME] matches, in lower case *)
Definition KEY_NAMES : list jstr :=
  [js "token"; js "api_key"; js "apikey"; js "api-key"; js "download_token";
   js "access_token"; js "accesstoken"; js "access-token"].

(** The first group of the second pattern: an optional quote, the name, an
    optional quote, a colon with white space around it, the opening quote
    of the value. *)
Definition KEY_HEAD : regex :=
  Seq (Opt (Lit [DQUOTE]))
    (Seq KEY_NAME
       (Seq (Opt (Lit [DQUOTE]))
          (Seq (Star [Space]) (Seq (Lit (js ":")) (Seq (Star [Space]) (Lit [DQUOTE])))))).

(** The value and the closing quote, groups three and four *)
Definition KEY_VALUE : regex := Seq (Cls NOT_QUOTE) (Seq (Star NOT_QUOTE) (Lit [DQUOTE])).

(** [maskSecrets]: both patterns carry the flags [g] and [i]; the second
    replacement ends with the fourth group, which is a double quote. *)
Definition maskSecrets (s : jstr) : jstr :=
  mask true KEY_HEAD KEY_VALUE [DQUOTE] (mask true BEARER_HEAD BEARER_TOKEN [] s).

End Debug.

(** ** Sample inputs *)

Module Samples.

(** One event of the stream: a [data] line and the blank line after it. *)
Definition data_block (text : jstr) : jstr := js "data: " ++ text ++ [LF; LF].

(** The JSON text of a payload with a top-level [delta]. *)
Definition delta_text (text : jstr) : jstr :=
  js "{" ++ quoted (js "delta") ++ js ":" ++ quoted text ++ js "}".

(** The JSON text of a payload with one call of the tool [insert_page] at
    position [pos] carrying [delta]; [delta] must need no escaping. *)
Definition tool_call_text (pos delta : jstr) : jstr :=
  js "{" ++ quoted (js "choices") ++ js ":[{" ++ quoted (js "messages") ++ js ":[{"
  ++ quoted (js "content") ++ js ":[{" ++ quoted (js "type") ++ js ":"
  ++ quoted (js "object") ++ js "," ++ quoted (js "object") ++ js ":{"
  ++ quoted (js "tool_name") ++ js ":" ++ quoted (js "insert_page") ++ js ","
  ++ quoted (js "position") ++ js ":[" ++ pos ++ js "],"
  ++ quoted (js "output_delta") ++ js ":" ++ quoted delta ++ js "}}]}]}]}".

(** A body that delivers one event per chunk and then ends. *)
Definition stream_of (texts : list jstr) : Net.Body :=
  {| Net.chunks := data_block <$> texts; Net.failure := None |}.

Definition event_with_id (i text : jstr) : SSE.SSEEvent :=
  {| SSE.event := js "message"; SSE.data := text; SSE.id := Some i; SSE.retry := None |}.

(** The end marker and, behind it in the same chunk, one more event. *)
Definition done_then_delta : jstr :=
  data_block (js "[DONE]") ++ data_block (delta_text (js "x")).

Definition unavailable : Net.Response :=
  {| Net.status := 503; Net.statusText := js "Service Unavailable";
     Net.body := None; Net.text := [] |}.

Definition fine (b : Net.Body) : Net.Response :=
  {| Net.status := 200; Net.statusText := js "OK"; Net.body := Some b; Net.text := [] |}.


(** A text of whole lines, each followed by the line end [eol]. *)
Definition lines (eol : jstr) (ls : list jstr) : jstr := concat ((fun l => l ++ eol) <$> ls).

(** The payload of one tool call: the tool [name] at position [pos] with
    [raw] as its [output_delta]. *)
Definition tool_call (name : jstr) (pos : Z) (raw : jstr) : value :=
  Obj [(js "choices",
        Arr [Obj [(js "messages",
                   Arr [Obj [(js "content",
                              Arr [Obj [(js "type", Str (js "object"));
                                        (js "object",
                                         Obj [(js "tool_name", Str name);
                                              (js "position", Arr [Num pos]);
                                              (js "output_delta", Str raw)])]])]])]])].

End Samples.

(** * Part II: facts about the definitions *)

(** ** The matcher *)
Section ReFacts.
Import Re.
Variable ci : bool.

Lemma lit_match_split p s s' :
  lit_match ci p s = Some s' ->
  exists c, s = c ++ s' /\ length c = length p /\ lit_match ci p c = Some [].
Proof.
  revert s. induction p as [|a p IH]; intros s H; simpl in H.
  - exists []. injection H as <-. auto.
  - destruct s as [|x s]; [discriminate|].
    destruct (chr_eq ci a x) eqn:E; [|discriminate].
    destruct (IH _ H) as (c & -> & Hl & Hc).
    exists (x :: c). simpl. rewrite E. auto.
Qed.

Lemma lit_match_app p c rest :
  lit_match ci p c = Some [] -> lit_match ci p (c ++ rest) = Some rest.
Proof.
  revert c. induction p as [|a p IH]; intros c H; simpl in *.
  - injection H as ->. reflexivity.
  - destruct c as [|x c]; [discriminate|]. simpl.
    destruct (chr_eq ci a x); [auto|discriminate].
Qed.

Lemma star_sound items : forall s i k e,
  star ci items i s k = Some e ->
  exists c rest, s = c ++ rest /\ forallb (in_class ci items) c = true
    /\ k (i + length c)%nat rest = Some e.
Proof.
  induction s as [|x s IH]; intros i k e H; simpl in H.
  - exists [], []. simpl. rewrite Nat.add_0_r. auto.
  - destruct (in_class ci items x) eqn:E.
    + destruct (star ci items (S i) s k) eqn:Es.
      * injection H as ->. destruct (IH _ _ _ Es) as (c & rest & -> & Hc & Hk).
        exists (x :: c), rest. simpl. rewrite E, Hc.
        replace (i + S (length c))%nat with (S i + length c)%nat by lia. auto.
      * exists [], (x :: s). simpl. rewrite Nat.add_0_r. auto.
    + exists [], (x :: s). simpl. rewrite Nat.add_0_r. auto.
Qed.

Lemma star_lazy_sound items : forall s i k e,
  star_lazy ci items i s k = Some e ->
  exists c rest, s = c ++ rest /\ forallb (in_class ci items) c = true
    /\ k (i + length c)%nat rest = Some e.
Proof.
  induction s as [|x s IH]; intros i k e H; simpl in H.
  - destruct (k i []) eqn:Ek; [|discriminate]. injection H as ->.
    exists [], []. simpl. rewrite Nat.add_0_r. auto.
  - destruct (k i (x :: s)) eqn:Ek.
    + injection H as ->. exists [], (x :: s). simpl. rewrite Nat.add_0_r. auto.
    + destruct (in_class ci items x) eqn:E; [|discriminate].
      destruct (IH _ _ _ H) as (c & rest & -> & Hc & Hk).
      exists (x :: c), rest. simpl. rewrite E, Hc.
      replace (i + S (length c))%nat with (S i + length c)%nat by lia. auto.
Qed.

(** Soundness of the matcher: a successful match is a split of the input
    into the matched text and a rest on which the continuation succeeds. *)
Lemma rmatch_sound r : forall i s k e,
  rmatch ci r i s k = Some e ->
  exists c rest, s = c ++ rest /\ matched ci r i c rest
    /\ k (i + length c)%nat rest = Some e.
Proof.
  induction r as [| |p|items|items|items|r IH|r1 IH1 r2 IH2|r1 IH1 r2 IH2];
    intros i s k e H; simpl in H.
  - destruct (Nat.eqb_spec i 0); [|discriminate].
    exists [], s. simpl. rewrite Nat.add_0_r. auto.
  - destruct s; [|discriminate]. exists [], []. simpl. rewrite Nat.add_0_r. auto.
  - destruct (lit_match ci p s) as [s'|] eqn:E; [|discriminate].
    destruct (lit_match_split _ _ _ E) as (c & -> & Hl & Hc).
    exists c, s'. simpl. rewrite Hl. auto.
  - destruct s as [|x s]; [discriminate|].
    destruct (in_class ci items x) eqn:E; [|discriminate].
    exists [x], s. simpl. replace (i + 1)%nat with (S i) by lia. eauto.
  - apply star_sound in H. exact H.
  - apply star_lazy_sound in H. exact H.
  - destruct (rmatch ci r i s k) eqn:E.
    + injection H as ->. destruct (IH _ _ _ _ E) as (c & rest & -> & Hm & Hk).
      exists c, rest. simpl. auto.
    + exists [], s. simpl. rewrite Nat.add_0_r. auto.
  - destruct (IH1 _ _ _ _ H) as (c1 & rest1 & -> & Hm1 & Hk1).
    destruct (IH2 _ _ _ _ Hk1) as (c2 & rest & -> & Hm2 & Hk).
    exists (c1 ++ c2), rest. rewrite <- app_assoc. split; [reflexivity|].
    split.
    + simpl. exists c1, c2. auto.
    + rewrite length_app, Nat.add_assoc. exact Hk.
  - destruct (rmatch ci r1 i s k) eqn:E.
    + injection H as ->. destruct (IH1 _ _ _ _ E) as (c & rest & -> & Hm & Hk).
      exists c, rest. simpl. auto.
    + destruct (IH2 _ _ _ _ H) as (c & rest & -> & Hm & Hk).
      exists c, rest. simpl. auto.
Qed.

(** A search that succeeds found a match of the pattern in the input. *)
Lemma search_sound r : forall s i b e,
  search ci r i s = Some (b, e) ->
  exists pre c rest, s = pre ++ c ++ rest /\ b = (i + length pre)%nat
    /\ e = (b + length c)%nat /\ matched ci r b c rest.
Proof.
  induction s as [|x s IH]; intros i b e H; simpl in H.
  - destruct (match_at ci r i []) eqn:E; [|discriminate].
    injection H as <- <-. apply rmatch_sound in E.
    destruct E as (c & rest & Hs & Hm & Hk). injection Hk as <-.
    exists [], c, rest. simpl. rewrite Nat.add_0_r. auto.
  - destruct (match_at ci r i (x :: s)) eqn:E.
    + injection H as <- <-. apply rmatch_sound in E.
      destruct E as (c & rest & Hs & Hm & Hk). injection Hk as <-.
      exists [], c, rest. simpl. rewrite Nat.add_0_r. auto.
    + destruct (IH _ _ _ H) as (pre & c & rest & -> & -> & -> & Hm).
      exists (x :: pre), c, rest. simpl.
      replace (i + S (length pre))%nat with (S i + length pre)%nat by lia. auto.
Qed.






End ReFacts.

(** ** The framer *)
Section FramerFacts.
Import SSE.
Context {U : Type}.
Variable Number : jstr -> option Z.
Variable h : SSEEvent -> U -> U.

Lemma indexOf_from_spec c s : forall i,
  match indexOf_from c i s with
  | None => (c ∉ s)
  | Some nl => exists line rest, s = line ++ c :: rest /\ (c ∉ line)
                 /\ nl = (i + length line)%nat
  end.
Proof.
  induction s as [|x s IH]; intros i; simpl.
  - apply not_elem_of_nil.
  - destruct (N.eqb_spec x c) as [->|Hne].
    + exists [], s. simpl. split; [reflexivity|]. split; [apply not_elem_of_nil|lia].
    + specialize (IH (S i)). destruct (indexOf_from c (S i) s) as [nl|].
      * destruct IH as (line & rest & -> & Hn & ->).
        exists (x :: line), rest. simpl. split; [reflexivity|].
        split; [|lia]. rewrite not_elem_of_cons. split; [congruence|exact Hn].
      * rewrite not_elem_of_cons. split; [congruence|exact IH].
Qed.

Lemma scan_line line s e u :
  LF ∉ s -> scan Number h line s e u = (line ++ s, e, u).
Proof.
  revert line. induction s as [|x s IH]; intros line Hn; simpl.
  - rewrite app_nil_r. reflexivity.
  - rewrite not_elem_of_cons in Hn. destruct Hn as [Hx Hs].
    destruct (N.eqb_spec x LF) as [->|_]; [congruence|].
    rewrite IH by exact Hs. rewrite <- app_assoc. reflexivity.
Qed.

Lemma scan_app s1 : forall line s2 e u,
  scan Number h line (s1 ++ s2) e u
  = let '(line', e', u') := scan Number h line s1 e u in scan Number h line' s2 e' u'.
Proof.
  induction s1 as [|x s1 IH]; intros line s2 e u; simpl.
  - reflexivity.
  - destruct (x =? LF)%N.
    + destruct (on_line Number h line e u) as [e' u']. apply IH.
    + apply IH.
Qed.

Lemma scan_newline line s e u :
  scan Number h line (LF :: s) e u
  = let '(e', u') := on_line Number h line e u in scan Number h [] s e' u'.
Proof. reflexivity. Qed.

(** The unfinished line that a scan leaves holds no line feed. *)
Lemma scan_rest_no_LF s : forall line e u,
  LF ∉ line -> LF ∉ fst (fst (scan Number h line s e u)).
Proof.
  induction s as [|x s IH]; intros line e u Hn; simpl.
  - exact Hn.
  - destruct (N.eqb_spec x LF) as [->|Hne].
    + destruct (on_line Number h line e u) as [e' u']. apply IH, not_elem_of_nil.
    + apply IH. rewrite elem_of_app, list_elem_of_singleton. intros [?|?]; congruence.
Qed.

(** The loop of [feed], run with enough fuel, is the scan of what lies
    beyond the index. *)
Lemma feed_loop_scan fuel : forall buf i e u,
  (i <= length buf)%nat -> (length buf - i < fuel)%nat ->
  exists i', (i' <= length buf)%nat
    /\ feed_loop Number h fuel buf i e u
       = Some (i', snd (fst (scan Number h [] (drop i buf) e u)),
               snd (scan Number h [] (drop i buf) e u))
    /\ drop i' buf = fst (fst (scan Number h [] (drop i buf) e u)).
Proof.
  induction fuel as [|f IH]; intros buf i e u Hi Hf; [lia|]. simpl.
  unfold indexOf. pose proof (indexOf_from_spec LF (drop i buf) i) as Hspec.
  destruct (indexOf_from LF i (drop i buf)) as [nl|].
  - destruct Hspec as (line & rest & Hd & Hn & ->).
    assert (Hlen : length (drop i buf) = (length line + S (length rest))%nat).
    { rewrite Hd, length_app. reflexivity. }
    rewrite length_drop in Hlen.
    assert (Hslice : slice buf i (i + length line) = line).
    { unfold slice. rewrite Hd. replace (i + length line - i)%nat with (length line) by lia.
      apply take_app_length. }
    assert (Hrest : drop (i + length line + 1) buf = rest).
    { replace (i + length line + 1)%nat with (i + (length line + 1))%nat by lia.
      rewrite <- drop_drop, Hd.
      replace (length line + 1)%nat with (length line + 1)%nat by lia.
      rewrite drop_app_add. reflexivity. }
    rewrite Hslice. rewrite Hd.
    rewrite (scan_app line [] (LF :: rest)), (scan_line [] line) by exact Hn.
    simpl app. rewrite scan_newline.
    destruct (on_line Number h line e u) as [e' u'].
    destruct (IH buf (i + length line + 1)%nat e' u') as (i' & Hi' & Hloop & Hdrop);
      [lia|lia|].
    rewrite Hrest in Hloop, Hdrop. exists i'. auto.
  - exists i. rewrite scan_line by exact Hspec. simpl. auto.
Qed.

(** The loop always reaches its [break]. *)
Lemma feed_loop_terminates buf e u :
  exists r, feed_loop Number h (S (length buf)) buf 0 e u = Some r.
Proof.
  destruct (feed_loop_scan (S (length buf)) buf 0 e u) as (i' & _ & H & _); [lia|lia|].
  eauto.
Qed.

(** [feed] as a scan of the buffer with the chunk appended. *)
Lemma feed_scan chunk flush p u :
  feed Number h chunk flush p u
  = let '(rest, e, u') := scan Number h [] (buffer p ++ chunk) (ev p) u in
    if flush && nonempty rest then
      let '(e', u'') := dispatch h (append_data e rest) u' in
      ({| buffer := []; ev := e' |}, u'')
    else ({| buffer := rest; ev := e |}, u').
Proof.
  unfold feed.
  destruct (feed_loop_scan (S (length (buffer p ++ chunk))) (buffer p ++ chunk) 0 (ev p) u)
    as (i' & _ & Hloop & Hd); [lia|lia|].
  rewrite drop_0 in Hloop, Hd. rewrite Hloop, Hd.
  destruct (scan Number h [] (buffer p ++ chunk) (ev p) u) as [[rest e] u']. reflexivity.
Qed.

Lemma scan_prefix line : forall pre s e u,
  LF ∉ line -> scan Number h pre (line ++ s) e u = scan Number h (pre ++ line) s e u.
Proof.
  induction line as [|x line IH]; intros pre s e u Hn; simpl.
  - rewrite app_nil_r. reflexivity.
  - rewrite not_elem_of_cons in Hn. destruct Hn as [Hx Hl].
    destruct (N.eqb_spec x LF) as [->|_]; [congruence|].
    rewrite IH by exact Hl. rewrite <- app_assoc. reflexivity.
Qed.

(** Without a flush, [feed] continues the scan from the unfinished line. *)
Lemma feed_continue chunk p u :
  LF ∉ buffer p ->
  feed Number h chunk false p u
  = let '(rest, e, u') := scan Number h (buffer p) chunk (ev p) u in
    ({| buffer := rest; ev := e |}, u').
Proof.
  intros Hn. rewrite feed_scan. rewrite (scan_prefix (buffer p) []) by exact Hn.
  simpl. destruct (scan Number h (buffer p) chunk (ev p) u) as [[rest e] u']. reflexivity.
Qed.

Lemma feed_buffer_no_LF chunk p u :
  LF ∉ buffer p -> LF ∉ buffer (fst (feed Number h chunk false p u)).
Proof.
  intros Hn. rewrite feed_continue by exact Hn.
  pose proof (scan_rest_no_LF chunk (buffer p) (ev p) u Hn) as Hr.
  destruct (scan Number h (buffer p) chunk (ev p) u) as [[rest e] u']. exact Hr.
Qed.

(** Where the input is cut into chunks does not matter. *)
Lemma feed_each_concat chunks : forall p u,
  LF ∉ buffer p ->
  feed_each Number h chunks p u = feed Number h (concat chunks) false p u.
Proof.
  induction chunks as [|c chunks IH]; intros p u Hn; simpl.
  - rewrite feed_continue by exact Hn. simpl. destruct p. reflexivity.
  - pose proof (feed_buffer_no_LF c p u Hn) as Hn'.
    rewrite (feed_continue (c ++ concat chunks)) by exact Hn.
    rewrite scan_app.
    rewrite (feed_continue c) in * by exact Hn.
    destruct (scan Number h (buffer p) c (ev p) u) as [[rest e] u'].
    simpl in Hn'. rewrite IH by exact Hn'.
    rewrite feed_continue by exact Hn'. reflexivity.
Qed.

End FramerFacts.
Section FramerListener.
Import SSE.
Context {U : Type}.
Variable Number : jstr -> option Z.
Variable h : SSEEvent -> U -> U.

Lemma dispatch_recorded e l u :
  exists evs,
    dispatch record_event e l = (fst (dispatch h e u), l ++ evs)
    /\ snd (dispatch h e u) = hear h u evs.
Proof.
  unfold dispatch.
  destruct (jstr_eqb (data e) [] && negb (id_truthy e) && negb (retry_truthy e)).
  - exists []. rewrite app_nil_r. auto.
  - exists [e]. auto.
Qed.

Lemma on_line_recorded line e l u :
  exists evs,
    on_line Number record_event line e l = (fst (on_line Number h line e u), l ++ evs)
    /\ snd (on_line Number h line e u) = hear h u evs.
Proof.
  unfold on_line.
  destruct (jstr_eqb _ []).
  - apply dispatch_recorded.
  - exists []. rewrite app_nil_r. auto.
Qed.

Lemma scan_recorded s : forall line e l u,
  exists evs,
    scan Number record_event line s e l
    = (fst (scan Number h line s e u), l ++ evs)
    /\ snd (scan Number h line s e u) = hear h u evs.
Proof.
  induction s as [|x s IH]; intros line e l u; simpl.
  - exists []. rewrite app_nil_r. auto.
  - destruct (x =? LF)%N; [|apply IH].
    destruct (on_line_recorded line e l u) as (evs1 & H1 & H2).
    rewrite H1. destruct (on_line Number h line e u) as [e' u']. simpl in *. subst u'.
    destruct (IH [] e' (l ++ evs1) (hear h u evs1)) as (evs2 & H3 & H4).
    exists (evs1 ++ evs2). rewrite app_assoc. split; [exact H3|].
    rewrite H4. unfold hear. rewrite fold_left_app. reflexivity.
Qed.

(** A listener hears exactly the events the framer dispatches, in order,
    and the framer does not depend on who listens. *)
Lemma feed_framed chunk flush p u :
  feed Number h chunk flush p u
  = (fst (feed Number record_event chunk flush p []),
     hear h u (framed Number chunk flush p)).
Proof.
  unfold framed. rewrite !feed_scan.
  destruct (scan_recorded (buffer p ++ chunk) [] (ev p) [] u) as (evs1 & H1 & H2).
  rewrite H1. destruct (scan Number h [] (buffer p ++ chunk) (ev p) u) as [[rest e] u'].
  simpl in *. subst u'.
  destruct (flush && nonempty rest); [|reflexivity].
  destruct (dispatch_recorded (append_data e rest) evs1 (hear h u evs1)) as (evs2 & H3 & H4).
  rewrite H3. destruct (dispatch h (append_data e rest) (hear h u evs1)) as [e' u''].
  simpl in *. subst u''. unfold hear. rewrite fold_left_app. reflexivity.
Qed.

End FramerListener.

(** ** Chunk ingestion, the walk and the assembly *)
Section ExtractFacts.
Import Re Extract.







Lemma entries_elem state pos b :
  (pos, b) ∈ entries state <->
  exists s, toolState state !! pos = Some s /\ buf s = b /\ has_text b = true.
Proof.
  unfold entries. rewrite merge_sort_Permutation.
  rewrite list_elem_of_filter, list_elem_of_fmap. simpl. split.
  - intros (Ht & [k s] & Heq & Hin). simpl in Heq. injection Heq as -> ->.
    apply elem_of_map_to_list in Hin. exists s. split; [exact Hin|].
    split; [reflexivity|]. apply Is_true_true. exact Ht.
  - intros (s & Hl & <- & Ht). split; [apply Is_true_true; exact Ht|].
    exists (pos, s). split; [reflexivity|]. apply elem_of_map_to_list. exact Hl.
Qed.

Lemma slide_of_position e : position (slide_of e) = fst e.
Proof. destruct e. reflexivity. Qed.

Lemma in_class_space ci c : in_class ci [Space] c = is_space c.
Proof. unfold in_class. simpl. apply orb_false_r. Qed.

Lemma forallb_space ci ws : forallb (in_class ci [Space]) ws = forallb is_space ws.
Proof.
  induction ws as [|c ws IH]; simpl; [reflexivity|].
  rewrite IH, orb_false_r. reflexivity.
Qed.

(** A chunk is a reset only if, after white space, it begins with the
    doctype or with the html tag, in either case of letters. *)
Lemma is_reset_marker s :
  is_reset s = true ->
  exists ws rest tail,
    s = ws ++ rest /\ forallb is_space ws = true
    /\ (lit_match true (js "<!doctype html") rest = Some tail
        \/ lit_match true (js "<html") rest = Some tail).
Proof.
  unfold is_reset, test. intros H. apply orb_true_iff in H. destruct H as [H|H].
  - destruct (search true DOCTYPE_START 0 s) as [[b e]|] eqn:E; [|discriminate].
    destruct (search_sound _ _ _ _ _ _ E) as (pre & c & rest & -> & -> & _ & Hm).
    cbn [matched DOCTYPE_START] in Hm.
    destruct Hm as (c1 & c2 & -> & (Hz & ->) & (ws & lit & -> & Hws & Hlit)).
    simpl in Hz. apply length_zero_iff_nil in Hz. subst pre.
    exists ws, (lit ++ rest), rest. rewrite !app_nil_l, <- app_assoc.
    split; [reflexivity|]. split.
    + rewrite <- (forallb_space true). exact Hws.
    + left. apply lit_match_app. exact Hlit.
  - destruct (search true HTML_START 0 s) as [[b e]|] eqn:E; [|discriminate].
    destruct (search_sound _ _ _ _ _ _ E) as (pre & c & rest & -> & -> & _ & Hm).
    cbn [matched HTML_START] in Hm.
    destruct Hm as (c1 & c2 & -> & (Hz & ->)
                    & (ws & c3 & -> & Hws & (lit & c4 & -> & Hlit & _))).
    simpl in Hz. apply length_zero_iff_nil in Hz. subst pre.
    exists ws, (lit ++ c4 ++ rest), (c4 ++ rest). rewrite !app_nil_l, <- !app_assoc.
    split; [reflexivity|]. split.
    + rewrite <- (forallb_space true). exact Hws.
    + right. apply lit_match_app. exact Hlit.
Qed.

End ExtractFacts.
Section IngestFacts.
Import Re Extract.

Lemma upsertPos_lookup state pos :
  toolState (upsertPos state pos).1 !! pos = Some (upsertPos state pos).2.
Proof.
  unfold upsertPos. destruct (toolState state !! pos) eqn:E; simpl.
  - exact E.
  - apply lookup_insert_eq.
Qed.

Lemma upsertPos_other state pos pos' :
  pos <> pos' -> toolState (upsertPos state pos').1 !! pos = toolState state !! pos.
Proof.
  intros Hne. unfold upsertPos. destruct (toolState state !! pos'); simpl; [reflexivity|].
  apply lookup_insert_ne. congruence.
Qed.

Lemma upsertPos_present state pos s :
  toolState state !! pos = Some s -> upsertPos state pos = (state, s).
Proof. intros H. unfold upsertPos. rewrite H. reflexivity. Qed.

(** A chunk for a finalized position changes nothing and reports nothing. *)
Lemma onToolChunk_finalized state pos s raw :
  toolState state !! pos = Some s -> finalized s = true ->
  onToolChunk state pos raw = (state, ignoring pos).
Proof.
  intros Hl Hf. unfold onToolChunk. rewrite (upsertPos_present _ _ _ Hl), Hf.
  reflexivity.
Qed.

(** The entry a chunk leaves at its position, when that position was still
    open. *)
Lemma onToolChunk_open state pos raw :
  finalized (upsertPos state pos).2 = false ->
  let taken := (ingest pos (upsertPos state pos).2
                  (maybeDecodeJsonString (stripFences raw))).1 in
  toolState (onToolChunk state pos raw).1 !! pos
  = Some {| buf := buf taken; lastLen := lastLen taken;
            finalized := is_complete (buf taken) |}.
Proof.
  intros Hf taken. unfold onToolChunk.
  destruct (upsertPos state pos) as [st s] eqn:Eu. simpl in Hf, taken. rewrite Hf.
  destruct (ingest pos s (maybeDecodeJsonString (stripFences raw))) as [s' lg] eqn:Ei.
  simpl in taken. subst taken.
  assert (Hs' : finalized s' = false).
  { revert Ei. unfold ingest.
    repeat match goal with
           | |- context [if ?b then _ else _] => destruct b
           | |- context [match ?l with [] => _ | _ :: _ => _ end] => destruct l
           end; intros [= <- _]; simpl; exact Hf. }
  destruct (is_complete (buf s')) eqn:Ec; simpl.
  - apply lookup_insert_eq.
  - rewrite lookup_insert_eq. destruct s'; simpl in *. congruence.
Qed.

Lemma onToolChunk_other state pos pos' raw :
  pos <> pos' ->
  toolState (onToolChunk state pos' raw).1 !! pos = toolState state !! pos.
Proof.
  intros Hne. unfold onToolChunk.
  pose proof (upsertPos_other state pos pos' Hne) as Hu.
  destruct (upsertPos state pos') as [st s]. simpl in Hu.
  destruct (finalized s); [exact Hu|].
  destruct (ingest pos' s _) as [s' lg].
  destruct (is_complete (buf s')); simpl;
    (rewrite lookup_insert_ne; [exact Hu|congruence]).
Qed.

(** In every reachable state the flag of an entry says whether its buffer
    ends with the closing tag. *)
Lemma reachable_finalized state :
  reachable state ->
  forall pos s, toolState state !! pos = Some s -> finalized s = is_complete (buf s).
Proof.
  induction 1 as [|state p raw Hr IH|state text Hr IH]; intros pos s Hl.
  - unfold createExtractionState in Hl. simpl in Hl.
    rewrite lookup_empty in Hl. discriminate.
  - destruct (decide (pos = p)) as [->|Hne].
    + destruct (finalized (upsertPos state p).2) eqn:Ef.
      * pose proof (upsertPos_lookup state p) as Hu.
        unfold upsertPos in Hu, Ef.
        destruct (toolState state !! p) as [s0|] eqn:E0; simpl in *; [|discriminate].
        rewrite (onToolChunk_finalized _ _ _ raw E0 Ef) in Hl. simpl in Hl.
        eapply IH. exact Hl.
      * rewrite (onToolChunk_open _ _ raw Ef) in Hl. injection Hl as <-. reflexivity.
    + rewrite onToolChunk_other in Hl by exact Hne. eapply IH. exact Hl.
  - eapply IH. exact Hl.
Qed.

Lemma ingest_all_finalized later : forall state pos s,
  toolState state !! pos = Some s -> finalized s = true ->
  toolState (ingest_all later state) !! pos = Some s.
Proof.
  induction later as [|[p raw] later IH]; intros state pos s Hl Hf; simpl.
  - exact Hl.
  - apply IH; [|exact Hf]. simpl.
    destruct (decide (pos = p)) as [->|Hne].
    + rewrite (onToolChunk_finalized _ _ _ raw Hl Hf). exact Hl.
    + rewrite onToolChunk_other by exact Hne. exact Hl.
Qed.

End IngestFacts.
Section WalkFacts.
Import Re Extract.

Lemma keeps_ret {A} (a : A) : keeps (ret a).
Proof. intros w H. exact H. Qed.

Lemma keeps_lift {A} (o : outcome A) : keeps (lift o).
Proof. intros w H. exact H. Qed.

Lemma keeps_emit e : keeps (emit e).
Proof. intros w H. exact H. Qed.

Lemma keeps_append text : keeps (modify (fun st => append_assistant st text)).
Proof. intros w H. simpl. apply reach_text. exact H. Qed.

Lemma keeps_tool_chunk pos raw : keeps (tool_chunk pos raw).
Proof.
  intros w H. unfold tool_chunk.
  pose proof (reach_chunk _ pos raw H) as Hr.
  destruct (onToolChunk w.1 pos raw). exact Hr.
Qed.

Lemma keeps_bind {A B} (m : W A) (f : A -> W B) :
  keeps m -> (forall a, keeps (f a)) -> keeps (bind m f).
Proof.
  intros Hm Hf w H. unfold bind. specialize (Hm w H).
  destruct (m w) as [w' [a|e]]; simpl in *; [apply Hf|]; exact Hm.
Qed.

Lemma keeps_when b m : keeps m -> keeps (when b m).
Proof. intros H. destruct b; [exact H|apply keeps_ret]. Qed.

Lemma keeps_for_of {A} (xs : list A) body :
  (forall x, keeps (body x)) -> keeps (for_of xs body).
Proof.
  intros Hb. induction xs as [|x xs IH]; simpl.
  - apply keeps_ret.
  - apply keeps_bind; [apply Hb|intros _; exact IH].
Qed.

Ltac keeps_step :=
  first [ apply keeps_ret | apply keeps_lift | apply keeps_emit | apply keeps_append
        | apply keeps_tool_chunk | apply keeps_when | apply keeps_for_of
        | apply keeps_bind; [|intros ?] ].

Lemma keeps_walk_part part : keeps (walk_part part).
Proof.
  unfold walk_part, walk_object_part, walk_text_part.
  repeat first
    [ keeps_step
    | match goal with
      | |- keeps (if ?b then _ else _) => destruct b
      | |- keeps (match ?v with Undefined => _ | _ => _ end) => destruct v
      | |- keeps (match ?l with [] => _ | _ :: _ => _ end) => destruct l
      end ].
Qed.

Lemma keeps_walk_msg msg : keeps (walk_msg msg).
Proof.
  unfold walk_msg. repeat (apply keeps_bind; [keeps_step|intros ?]).
  apply keeps_for_of, keeps_walk_part.
Qed.

Lemma keeps_walk_choice choice : keeps (walk_choice choice).
Proof.
  unfold walk_choice. repeat (apply keeps_bind; [keeps_step|intros ?]).
  apply keeps_for_of, keeps_walk_msg.
Qed.

Lemma keeps_walkEvent obj : keeps (walkEvent obj).
Proof.
  unfold walkEvent.
  apply keeps_bind; [keeps_step|intros choices].
  apply keeps_bind; [apply keeps_for_of, keeps_walk_choice|intros _].
  repeat (apply keeps_bind; [keeps_step|intros ?]).
  match goal with |- keeps (match ?v with Undefined => _ | _ => _ end) => destruct v end;
    try apply keeps_ret.
  match goal with |- keeps (match ?l with [] => _ | _ :: _ => _ end) => destruct l end;
    [apply keeps_ret|apply keeps_append].
Qed.

End WalkFacts.
Section Order.
Import Extract.

Lemma by_position_trans : Transitive by_position.
Proof. intros a b c. unfold by_position. lia. Qed.

Lemma by_position_total : Total by_position.
Proof. intros a b. unfold by_position. lia. Qed.

Lemma entries_sorted state : StronglySorted by_position (entries state).
Proof.
  unfold entries.
  apply StronglySorted_merge_sort; [apply by_position_trans|apply by_position_total].
Qed.

Lemma entries_positions_NoDup state : NoDup (fst <$> entries state).
Proof.
  unfold entries. rewrite merge_sort_Permutation.
  apply (sublist_NoDup _
           (fst <$> ((fun e : Z * SlideToolState => (fst e, buf (snd e)))
                     <$> map_to_list (toolState state)))).
  - rewrite <- list_fmap_compose. apply (NoDup_fst_map_to_list (toolState state)).
  - apply fmap_sublist, sublist_filter.
Qed.

Lemma ascending_from_sorted (l : list (Z * jstr)) :
  StronglySorted by_position l -> NoDup (fst <$> l) ->
  StronglySorted (fun a b : Z => (a < b)%Z) (fst <$> l).
Proof.
  induction 1 as [|e l Hs IH Hall]; intros Hnd; simpl.
  - constructor.
  - apply NoDup_cons in Hnd. destruct Hnd as [Hnotin Hnd]. constructor; [auto|].
    apply Forall_fmap, Forall_forall. intros e' Hin. simpl.
    rewrite Forall_forall in Hall. specialize (Hall _ Hin). unfold by_position in Hall.
    assert (fst e <> fst e').
    { intros Heq. apply Hnotin. rewrite Heq. apply list_elem_of_fmap. eauto. }
    lia.
Qed.

End Order.

(** ** The transport *)
Section DebugFetchFacts.
Import Net.
Variable network : nat -> fetched.
Variable label : jstr.
Variable retries : nat.

Lemma server_error_retryable r :
  negb (ok r) && (500 <=? status r)%Z = retryable (Resolves r).
Proof.
  unfold ok, retryable. destruct (Z.leb_spec 500 (status r)) as [H|H].
  - rewrite andb_true_r. destruct (Z.leb_spec (status r) 299); [lia|].
    rewrite andb_false_r. reflexivity.
  - apply andb_false_r.
Qed.

Lemma schedule_from_S first count :
  schedule_from first (S count) = attempt_actions first ++ schedule_from (S first) count.
Proof. reflexivity. Qed.

(** The loop from any attempt on: it stops at the first attempt [k] whose
    outcome is not retryable, or at the last one, with that outcome. *)
Lemma debugFetch_loop_policy fuel : forall attempt lastError trace,
  (attempt < retries)%nat -> (retries - attempt < fuel)%nat ->
  exists k,
    (attempt < k <= retries)%nat
    /\ debugFetch_loop network label retries fuel attempt lastError trace
       = Some (match network k with Resolves r => Returns r | Rejects e => Throws e end,
               trace ++ schedule_from (S attempt) (k - attempt))
    /\ (forall j, (attempt < j < k)%nat -> retryable (network j) = true)
    /\ ((k < retries)%nat -> retryable (network k) = false).
Proof.
  induction fuel as [|f IH]; intros attempt lastError trace Hlt Hf; [lia|].
  cbn [debugFetch_loop]. apply Nat.ltb_lt in Hlt as Hb. rewrite Hb.
  set (trace' := (if (1 <? S attempt)%nat then _ else trace) ++ [Fetch (S attempt)]).
  assert (Htrace : trace' = trace ++ attempt_actions (S attempt)).
  { unfold trace', attempt_actions. destruct (1 <? S attempt)%nat.
    - rewrite <- app_assoc. reflexivity.
    - reflexivity. }
  assert (Hstop : retryable (network (S attempt)) && (S attempt <? retries)%nat = false ->
    exists k, (attempt < k <= retries)%nat
      /\ Some (match network (S attempt) with
               | Resolves r => Returns r | Rejects e => Throws e end, trace')
         = Some (match network k with Resolves r => Returns r | Rejects e => Throws e end,
                 trace ++ schedule_from (S attempt) (k - attempt))
      /\ (forall j, (attempt < j < k)%nat -> retryable (network j) = true)
      /\ ((k < retries)%nat -> retryable (network k) = false)).
  { intros Hs. exists (S attempt). split; [lia|]. split.
    - replace (S attempt - attempt)%nat with 1%nat by lia.
      rewrite Htrace. unfold schedule_from. simpl. rewrite app_nil_r. reflexivity.
    - split; [intros j Hj; lia|]. intros Hk. apply Nat.ltb_lt in Hk.
      rewrite Hk, andb_true_r in Hs. exact Hs. }
  assert (Hgo : forall le, retryable (network (S attempt)) && (S attempt <? retries)%nat = true ->
    exists k, (attempt < k <= retries)%nat
      /\ debugFetch_loop network label retries f (S attempt) le trace'
         = Some (match network k with Resolves r => Returns r | Rejects e => Throws e end,
                 trace ++ schedule_from (S attempt) (k - attempt))
      /\ (forall j, (attempt < j < k)%nat -> retryable (network j) = true)
      /\ ((k < retries)%nat -> retryable (network k) = false)).
  { intros le Hs. apply andb_true_iff in Hs. destruct Hs as [Hr Hn].
    apply Nat.ltb_lt in Hn.
    destruct (IH (S attempt) le trace') as (k & Hk & Heq & Hall & Hlast); [lia|lia|].
    exists k. split; [lia|]. split.
    - rewrite Heq, Htrace, <- app_assoc.
      replace (k - attempt)%nat with (S (k - S attempt)) by lia.
      rewrite schedule_from_S. reflexivity.
    - split; [|exact Hlast]. intros j Hj.
      destruct (decide (j = S attempt)) as [->|Hne]; [exact Hr|]. apply Hall. lia. }
  destruct (network (S attempt)) as [r|e] eqn:En.
  - rewrite <- andb_assoc, andb_assoc, server_error_retryable.
    destruct (retryable (Resolves r) && (S attempt <? retries)%nat) eqn:Hs.
    + apply Hgo. reflexivity.
    + apply Hstop. reflexivity.
  - change (named (js "TypeError") e) with (retryable (Rejects e)).
    destruct (retryable (Rejects e) && (S attempt <? retries)%nat) eqn:Hs.
    + apply Hgo. reflexivity.
    + apply Hstop. reflexivity.
Qed.

(** [debugFetch] always settles: the bound on its loop is never reached. *)
Lemma debugFetch_settles : exists r, debugFetch network label retries = Some r.
Proof.
  unfold debugFetch. destruct retries as [|n] eqn:E.
  - eexists. reflexivity.
  - rewrite <- E.
    destruct (debugFetch_loop_policy (S retries) 0 None []) as (k & _ & Heq & _);
      [lia|lia|].
    eauto.
Qed.

End DebugFetchFacts.
Section ListenerFacts.
Import Net.
Variable JSON_parse : jstr -> option value.
Variable Number : jstr -> option Z.
Variable breaks : bool.

Local Abbreviation onEvent := (Net.onEvent JSON_parse breaks).

Lemma deliver_seen evt d st : seenEventIds (deliver evt d st) = seenEventIds st.
Proof.
  unfold deliver. destruct (Json.get d (js "conversation_id")); [|reflexivity].
  destruct (Extract.walkEvent d _) as [[ext eff] [?|?]]; reflexivity.
Qed.

Lemma deliver_break evt d st : shouldBreakLoop (deliver evt d st) = shouldBreakLoop st.
Proof.
  unfold deliver. destruct (Json.get d (js "conversation_id")); [|reflexivity].
  destruct (Extract.walkEvent d _) as [[ext eff] [?|?]]; reflexivity.
Qed.

Lemma remember_seen evt st i :
  i ∈ seenEventIds st -> i ∈ seenEventIds (remember evt st).
Proof.
  unfold remember. destruct (SSE.id evt) as [j|]; [|auto].
  destruct (SSE.nonempty j); [|auto]. cbn [seenEventIds].
  rewrite elem_of_union. right. exact H.
Qed.

Lemma remember_break evt st : shouldBreakLoop (remember evt st) = shouldBreakLoop st.
Proof.
  unfold remember. destruct (SSE.id evt) as [j|]; [|auto].
  destruct (SSE.nonempty j); reflexivity.
Qed.

(** What the listener does after the duplicate check keeps the set of ids
    as [remember] left it. *)
Lemma onEvent_seen evt st :
  seenEventIds (onEvent evt st)
  = if is_repeat evt st then seenEventIds st else seenEventIds (remember evt st).
Proof.
  unfold Net.onEvent. destruct (is_repeat evt st); [reflexivity|].
  destruct (jstr_eqb _ _).
  - destruct breaks; reflexivity.
  - destruct (JSON_parse _); [apply deliver_seen|reflexivity].
Qed.

Lemma onEvent_seen_mono evt st i :
  i ∈ seenEventIds st -> i ∈ seenEventIds (onEvent evt st).
Proof.
  intros H. rewrite onEvent_seen. destruct (is_repeat evt st); [exact H|].
  apply remember_seen, H.
Qed.

(** An event with an id leaves its id in the set, whatever becomes of it. *)
Lemma onEvent_remembers evt st i :
  SSE.id evt = Some i -> SSE.nonempty i = true -> i ∈ seenEventIds (onEvent evt st).
Proof.
  intros Hid Hne. rewrite onEvent_seen.
  destruct (is_repeat evt st) eqn:Hr.
  - unfold is_repeat in Hr. rewrite Hid, Hne in Hr. simpl in Hr.
    apply bool_decide_eq_true in Hr. exact Hr.
  - unfold remember. rewrite Hid, Hne. cbn [seenEventIds].
    rewrite elem_of_union, elem_of_singleton. left. reflexivity.
Qed.

Lemma hear_seen_mono evs : forall st i,
  i ∈ seenEventIds st -> i ∈ seenEventIds (SSE.hear (Net.onEvent JSON_parse breaks) st evs).
Proof.
  induction evs as [|e evs IH]; intros st i H; simpl; [exact H|].
  apply IH, onEvent_seen_mono, H.
Qed.

(** The flag is never lowered. *)
Lemma onEvent_break_stays evt st :
  shouldBreakLoop st = true -> shouldBreakLoop (onEvent evt st) = true.
Proof.
  intros H. unfold Net.onEvent. destruct (is_repeat evt st); [exact H|].
  destruct (jstr_eqb _ _).
  - destruct breaks; simpl; [reflexivity|]. rewrite remember_break. exact H.
  - destruct (JSON_parse _).
    + rewrite deliver_break, remember_break. exact H.
    + simpl. rewrite remember_break. exact H.
Qed.

Lemma hear_break_stays evs : forall st,
  shouldBreakLoop st = true ->
  shouldBreakLoop (SSE.hear (Net.onEvent JSON_parse breaks) st evs) = true.
Proof.
  induction evs as [|e evs IH]; intros st H; simpl; [exact H|].
  apply IH, onEvent_break_stays, H.
Qed.

(** In the copy that leaves its loop, an end marker that is not a repeat
    raises the flag. *)
Lemma onEvent_done_breaks evt st :
  trim (SSE.data evt) = js "[DONE]" -> is_repeat evt st = false ->
  shouldBreakLoop (Net.onEvent JSON_parse true evt st) = true.
Proof.
  intros Hdone Hrep. unfold Net.onEvent. rewrite Hrep, Hdone. reflexivity.
Qed.

(** The listener keeps the extraction state among the reachable ones. *)
Lemma onEvent_reachable evt st :
  Extract.reachable (extractionState st) ->
  Extract.reachable (extractionState (onEvent evt st)).
Proof.
  intros H. unfold Net.onEvent. destruct (is_repeat evt st); [exact H|].
  assert (Hr : Extract.reachable (extractionState (remember evt st))).
  { unfold remember. destruct (SSE.id evt) as [i|]; [destruct (SSE.nonempty i)|]; exact H. }
  destruct (jstr_eqb _ _).
  - destruct breaks; exact Hr.
  - destruct (JSON_parse _) as [d|]; [|exact Hr].
    unfold deliver. destruct (Json.get d (js "conversation_id")); [|exact Hr].
    pose proof (keeps_walkEvent d (extractionState (remember evt st),
                                   effects (remember evt st)) Hr) as Hw.
    destruct (Extract.walkEvent d _) as [[ext eff] [?|?]]; exact Hw.
Qed.

Lemma hear_reachable evs : forall st,
  Extract.reachable (extractionState st) ->
  Extract.reachable (extractionState (SSE.hear (Net.onEvent JSON_parse breaks) st evs)).
Proof.
  induction evs as [|e evs IH]; intros st H; simpl; [exact H|].
  apply IH, onEvent_reachable, H.
Qed.

(** So is every extraction state the read loop of [callGlmAgent] passes
    through: what is proved of reachable states holds of them. *)
Lemma read_loop_reachable pending : forall failure p st n,
  Extract.reachable (extractionState st) ->
  Extract.reachable
    (extractionState (stream (read_loop JSON_parse Number breaks pending failure p st n))).
Proof.
  induction pending as [|chunk rest IH]; intros failure p st n H; simpl.
  - destruct failure; [exact H|]. destruct breaks; exact H.
  - unfold parse. rewrite feed_framed.
    pose proof (hear_reachable (SSE.framed Number chunk false p) st H) as Hh.
    destruct (breaks && shouldBreakLoop _); [exact Hh|]. apply IH, Hh.
Qed.

End ListenerFacts.

Lemma parse_value_quoted fuel s :
  Json.parse_value (S fuel) (DQUOTE :: s)
  = match Json.parse_string_body s with
    | Some (t, rest) => Some (Str t, rest)
    | None => None
    end.
Proof. reflexivity. Qed.

(** A text between quotes parses to a string or not at all. *)
Lemma parse_quoted_is_string s v :
  Json.parse (quoted s) = Some v -> exists t, v = Str t.
Proof.
  unfold Json.parse, quoted. rewrite parse_value_quoted.
  destruct (Json.parse_string_body (s ++ [DQUOTE])) as [[t rest]|]; [|discriminate].
  destruct (Json.skip_ws rest); [|discriminate]. intros [= <-]. eauto.
Qed.

(** * Part III: the claims *)

(** ** The framer *)

Section FramerClaims.
Import Samples.

(** C3. The framer does not see where the input is cut: fed one code unit
    per call, a stream leaves the parser in the same state and dispatches
    the same events, in the same order, as fed in a single call. The
    stream of an id line, two data lines and a blank line gives the one
    event with id 1, name message and the two data lines joined by a line
    feed. *)
Theorem feed_unit_by_unit_same_events (Number : jstr -> option Z) :
  (forall s : jstr,
     SSE.feed_each Number SSE.record_event (map (fun c => [c]) s) SSE.createSSEParser []
     = SSE.feed Number SSE.record_event s false SSE.createSSEParser [])
  /\ SSE.framed Number
       (js "id: 1" ++ [LF] ++ js "data: foo" ++ [LF] ++ js "data: bar" ++ [LF; LF])
       false SSE.createSSEParser
     = [{| SSE.event := js "message"; SSE.data := js "foo" ++ [LF] ++ js "bar";
           SSE.id := Some (js "1"); SSE.retry := None |}].
Proof.
  split.
  - intros s. rewrite feed_each_concat by apply not_elem_of_nil.
    f_equal. induction s as [|c s IH]; simpl; [reflexivity|]. rewrite IH. reflexivity.
  - vm_compute. reflexivity.
Qed.

(** C8. The final flush misses what it is there for. After
    [feed("data: partial")] nothing has been dispatched, and the flushing
    call with no input dispatches exactly one event; but its data is the
    whole unfinished line, field name and colon included, and not
    [partial]. The flush appends the rest of the buffer to the data as it
    stands, where the loop over the lines splits a line into field and
    value: the same line closed by a line feed and a blank line gives the
    data [partial]. *)
Theorem flush_keeps_field_name :
  let '(p, heard) :=
    SSE.feed Json.string_to_number SSE.record_event (js "data: partial") false
      SSE.createSSEParser [] in
  heard = []
  /\ snd (SSE.feed Json.string_to_number SSE.record_event [] true p heard)
     = [{| SSE.event := js "message"; SSE.data := js "data: partial";
           SSE.id := None; SSE.retry := None |}]
  /\ SSE.framed Json.string_to_number (js "data: partial" ++ [LF; LF]) false
       SSE.createSSEParser
     = [{| SSE.event := js "message"; SSE.data := js "partial";
           SSE.id := None; SSE.retry := None |}]
  /\ jstr_eqb (js "data: partial") (js "partial") = false.
Proof. vm_compute. repeat split; reflexivity. Qed.

End FramerClaims.

(** ** Chunk ingestion, the walk and the assembly *)

Section ExtractClaims.
Import Re Extract Samples.

(** C1. For every state and position whose stored entry is not finalized,
    a chunk that cleans to a text which is no reset (by [is_reset_marker],
    one that begins with neither marker will do) and is strictly longer
    than the last observed length appends exactly the part beyond that
    length to the buffer stored for the position, and the length becomes
    that of the cleaned chunk. At a position that has no entry yet the
    buffer becomes the cleaned chunk. And at any position of a fresh
    state, the snapshots [<html>AB] and then [<html>ABCD] leave the buffer
    [<html>ABCD]. *)
Theorem growth_appends_new_suffix :
  (forall state pos s raw,
     let cleaned := maybeDecodeJsonString (stripFences raw) in
     toolState state !! pos = Some s ->
     finalized s = false ->
     is_reset cleaned = false ->
     (lastLen s < length cleaned)%nat ->
     exists s', toolState (onToolChunk state pos raw).1 !! pos = Some s'
       /\ buf s' = buf s ++ drop (lastLen s) cleaned
       /\ lastLen s' = length cleaned)
  /\ (forall state pos raw,
        let cleaned := maybeDecodeJsonString (stripFences raw) in
        toolState state !! pos = None ->
        is_reset cleaned = false ->
        (0 < length cleaned)%nat ->
        exists s', toolState (onToolChunk state pos raw).1 !! pos = Some s'
          /\ buf s' = cleaned
          /\ lastLen s' = length cleaned)
  /\ (forall pos, exists s',
        toolState (ingest_all [(pos, js "<html>AB"); (pos, js "<html>ABCD")]
                     createExtractionState) !! pos = Some s'
        /\ buf s' = js "<html>ABCD").
Proof.
  assert (grow : forall state pos raw,
            let s := (upsertPos state pos).2 in
            let cleaned := maybeDecodeJsonString (stripFences raw) in
            finalized s = false ->
            is_reset cleaned = false ->
            (lastLen s < length cleaned)%nat ->
            exists s', toolState (onToolChunk state pos raw).1 !! pos = Some s'
              /\ buf s' = buf s ++ drop (lastLen s) cleaned
              /\ lastLen s' = length cleaned).
  { intros state pos raw s cleaned Hf Hr Hlt.
    eexists. split; [apply onToolChunk_open; exact Hf|].
    fold s. fold cleaned. unfold ingest. rewrite Hr.
    apply Nat.ltb_lt in Hlt as Hb. rewrite Hb.
    destruct (drop (lastLen s) cleaned) as [|c tail] eqn:Ed.
    + apply (f_equal length) in Ed. rewrite length_drop in Ed. simpl in Ed. lia.
    + simpl. auto. }
  split; [|split].
  - intros state pos s raw cleaned Hl Hf Hr Hlt.
    pose proof (grow state pos raw) as G. cbv zeta in G.
    rewrite (upsertPos_present _ _ _ Hl) in G. exact (G Hf Hr Hlt).
  - intros state pos raw cleaned Hl Hr Hlt.
    pose proof (grow state pos raw) as G. cbv zeta in G.
    unfold upsertPos in G. rewrite Hl in G. cbn [snd finalized lastLen buf] in G.
    exact (G eq_refl Hr Hlt).
  - intros p. unfold ingest_all. simpl.
    set (st1 := (onToolChunk createExtractionState p (js "<html>AB")).1).
    assert (H1 : toolState st1 !! p
                 = Some {| buf := js "<html>AB"; lastLen := 8; finalized := false |}).
    { unfold st1. rewrite onToolChunk_open by reflexivity. reflexivity. }
    eexists. split.
    + rewrite onToolChunk_open.
      * rewrite (upsertPos_present _ _ _ H1). reflexivity.
      * rewrite (upsertPos_present _ _ _ H1). reflexivity.
    + reflexivity.
Qed.

(** C1 at work: position 1 holds [xAB] from an earlier chunk, and of the
    chunk [xyzCD] only what lies beyond the three units seen before, [CD],
    is added to it. *)
Lemma growth_witness :
  let state := fst (onToolChunk createExtractionState 1 (js "xAB")) in
  let s := {| buf := js "xAB"; lastLen := 3; finalized := false |} in
  let cleaned := maybeDecodeJsonString (stripFences (js "xyzCD")) in
  toolState state !! 1%Z = Some s
  /\ finalized s = false /\ is_reset cleaned = false /\ (lastLen s < length cleaned)%nat
  /\ buf s ++ drop (lastLen s) cleaned = js "xABCD"
  /\ exists s', toolState (fst (onToolChunk state 1 (js "xyzCD"))) !! 1%Z = Some s'
       /\ buf s' = buf s ++ drop (lastLen s) cleaned
       /\ lastLen s' = length cleaned.
Proof.
  intros state s cleaned.
  assert (H0 : toolState state !! 1%Z = Some s) by (vm_compute; reflexivity).
  assert (H1 : finalized s = false) by reflexivity.
  assert (H2 : is_reset cleaned = false) by (vm_compute; reflexivity).
  assert (H3 : (lastLen s < length cleaned)%nat) by (vm_compute; lia).
  split; [exact H0|]. split; [exact H1|]. split; [exact H2|]. split; [exact H3|].
  split; [vm_compute; reflexivity|].
  exact (proj1 growth_appends_new_suffix state 1%Z s (js "xyzCD") H0 H1 H2 H3).
Defined.

(** C2. In a state the stream can reach, an entry whose buffer ends with
    the closing tag (white space after it allowed) has its flag set; from
    then on, whatever chunks follow for whatever positions, the entry is
    what it was, and a chunk for its position returns the state as it is,
    with one line in the log and no call of [onPartial]. *)
Theorem finalized_slide_is_immutable state pos s (later : list (Z * jstr)) :
  reachable state ->
  toolState state !! pos = Some s ->
  is_complete (buf s) = true ->
  let state' := ingest_all later state in
  finalized s = true
  /\ toolState state' !! pos = Some s
  /\ forall raw, onToolChunk state' pos raw = (state', ignoring pos).
Proof.
  intros Hr Hl Hc state'.
  assert (Hf : finalized s = true).
  { rewrite (reachable_finalized _ Hr _ _ Hl). exact Hc. }
  assert (Hl' : toolState state' !! pos = Some s).
  { apply ingest_all_finalized; assumption. }
  split; [exact Hf|]. split; [exact Hl'|].
  intros raw. apply onToolChunk_finalized with s; assumption.
Qed.

(** C2 at work: position 1 is closed by its first chunk; three more chunks
    follow, two of them for position 1. *)
Lemma finalized_witness :
  let state := fst (onToolChunk createExtractionState 1 (js "<html>x</html>")) in
  let s := {| buf := js "<html>x</html>"; lastLen := 14; finalized := true |} in
  let later := [(1%Z, js "<html>y</html>"); (2%Z, js "other"); (1%Z, js "tail")] in
  reachable state /\ toolState state !! 1%Z = Some s /\ is_complete (buf s) = true
  /\ finalized s = true
  /\ toolState (ingest_all later state) !! 1%Z = Some s
  /\ forall raw, onToolChunk (ingest_all later state) 1 raw
                 = (ingest_all later state, ignoring 1).
Proof.
  intros state s later.
  assert (H1 : reachable state) by (apply reach_chunk, reach_created).
  assert (H2 : toolState state !! 1%Z = Some s) by (vm_compute; reflexivity).
  assert (H3 : is_complete (buf s) = true) by (vm_compute; reflexivity).
  split; [exact H1|]. split; [exact H2|]. split; [exact H3|].
  exact (finalized_slide_is_immutable state 1%Z s later H1 H2 H3).
Defined.




(** C9 fails on the code. The payload with a [null] among the messages
    parses, the walk logs the phase of that message through [msg?.phase]
    and then throws on [msg.content]; [null] itself as payload and a
    [null] among the choices throw as well. *)
Theorem walkEvent_throws_on_null_message :
  let text := js "{" ++ quoted (js "choices") ++ js ":[{"
              ++ quoted (js "messages") ++ js ":[null]}]}" in
  let payload := Obj [(js "choices", Arr [Obj [(js "messages", Arr [Null])]])] in
  Json.parse text = Some payload
  /\ walkEvent payload (createExtractionState, [])
     = ((createExtractionState, [Log (js "[SSE] phase=?")]), Throw TypeError)
  /\ snd (walkEvent Null (createExtractionState, [])) = Throw TypeError
  /\ snd (walkEvent (Obj [(js "choices", Arr [Null])]) (createExtractionState, []))
     = Throw TypeError.
Proof. vm_compute. repeat split. Qed.



(** X3. Chunks addressed to other positions leave a position's entry as it
    is: buffer, length and flag. *)
Theorem other_positions_untouched state pos (chunks : list (Z * jstr)) :
  Forall (fun c => fst c <> pos) chunks ->
  toolState (ingest_all chunks state) !! pos = toolState state !! pos.
Proof.
  intros Hall. revert state.
  induction Hall as [|[p raw] chunks Hne _ IH]; intros state; simpl.
  - reflexivity.
  - rewrite IH. apply onToolChunk_other. simpl in Hne. congruence.
Qed.

(** X3 at work: position 1 while chunks for 2 and 3 come in. *)
Lemma other_positions_witness :
  let state := fst (onToolChunk createExtractionState 1 (js "one")) in
  let chunks := [(2%Z, js "<html>two</html>"); (3%Z, js "three")] in
  Forall (fun c : Z * jstr => fst c <> 1%Z) chunks
  /\ toolState (ingest_all chunks state) !! 1%Z = toolState state !! 1%Z.
Proof.
  intros state chunks.
  assert (H : Forall (fun c : Z * jstr => fst c <> 1%Z) chunks).
  { repeat constructor; simpl; discriminate. }
  split; [exact H|]. exact (other_positions_untouched state 1%Z chunks H).
Defined.

(** X4. However a walk ends, it leaves a state that chunk ingestion and
    appends to the assistant text account for. *)
Theorem walkEvent_stays_reachable obj state eff :
  reachable state -> reachable (fst (fst (walkEvent obj (state, eff)))).
Proof. intros H. apply (keeps_walkEvent obj (state, eff)). exact H. Qed.

(** X4 at work: a walk that throws at once. *)
Lemma walkEvent_stays_reachable_witness :
  reachable createExtractionState
  /\ reachable (fst (fst (walkEvent (Obj [(js "choices", Arr [Null])])
                            (createExtractionState, [])))).
Proof.
  split; [exact reach_created|].
  exact (walkEvent_stays_reachable (Obj [(js "choices", Arr [Null])])
           createExtractionState [] reach_created).
Defined.

(** X1. The assembled slides come in strictly ascending order of position, so
    no position occurs twice. *)
Theorem finalizeSlides_ascending state :
  StronglySorted (fun a b : Z => (a < b)%Z) (position <$> finalizeSlides state).
Proof.
  unfold finalizeSlides.
  destruct (slide_of <$> entries state) as [|sl rest] eqn:E.
  - destruct (cutFirstHtmlDoc _) as [doc|]; [|constructor].
    destruct (SSE.nonempty doc); repeat constructor.
  - rewrite <- E, <- list_fmap_compose.
    rewrite (list_fmap_ext (position ∘ slide_of) fst)
      by (intros _ e _; apply slide_of_position).
    apply ascending_from_sorted; [apply entries_sorted|apply entries_positions_NoDup].
Qed.

End ExtractClaims.

(** ** The transport *)

Section TransportClaims.
Import Net Samples.

(** C4. Once an event with a non-empty id has come through the listener,
    a later event with the same id is a repeat: the listener returns the
    stream's variables as they are, so [walkEvent] is not called and the
    extraction state does not change. This holds in both copies of
    [callGlmAgent] and whatever the text of either event. *)
Theorem repeated_id_is_dropped JSON_parse breaks
    (before between : list SSE.SSEEvent) (first again : SSE.SSEEvent) i st :
  SSE.id first = Some i -> SSE.id again = Some i -> SSE.nonempty i = true ->
  let arrived := SSE.hear (onEvent JSON_parse breaks) st (before ++ first :: between) in
  is_repeat again arrived = true
  /\ onEvent JSON_parse breaks again arrived = arrived
  /\ walked (onEvent JSON_parse breaks again arrived) = walked arrived
  /\ extractionState (onEvent JSON_parse breaks again arrived) = extractionState arrived.
Proof.
  intros Hfirst Hagain Hne arrived.
  assert (Hin : i ∈ seenEventIds arrived).
  { unfold arrived, SSE.hear. rewrite fold_left_app. simpl.
    apply hear_seen_mono, onEvent_remembers; assumption. }
  assert (Hrep : is_repeat again arrived = true).
  { unfold is_repeat. rewrite Hagain, Hne. simpl. apply bool_decide_eq_true, Hin. }
  assert (Hsame : onEvent JSON_parse breaks again arrived = arrived).
  { unfold onEvent. rewrite Hrep. reflexivity. }
  rewrite Hsame. auto.
Qed.

(** C4 at work: ids 7, 8 and 7 again; the texts of the first two reach the
    assistant text, the third event changes nothing. *)
Lemma repeated_id_witness :
  let first := event_with_id (js "7") (delta_text (js "a")) in
  let other := event_with_id (js "8") (delta_text (js "b")) in
  let again := event_with_id (js "7") (delta_text (js "c")) in
  let arrived := SSE.hear (onEvent Json.parse true) (start []) ([] ++ first :: [other]) in
  SSE.id first = Some (js "7") /\ SSE.id again = Some (js "7")
  /\ SSE.nonempty (js "7") = true
  /\ Extract.assistantBuf (extractionState arrived) = js "ab"
  /\ is_repeat again arrived = true
  /\ onEvent Json.parse true again arrived = arrived
  /\ walked (onEvent Json.parse true again arrived) = walked arrived
  /\ extractionState (onEvent Json.parse true again arrived) = extractionState arrived.
Proof.
  intros first other again arrived.
  split; [reflexivity|]. split; [reflexivity|]. split; [reflexivity|].
  split; [vm_compute; reflexivity|].
  exact (repeated_id_is_dropped Json.parse true [] [other] first again (js "7") (start [])
           eq_refl eq_refl eq_refl).
Defined.

(** C5, as the code has it. In the copy of [callGlmAgent] that sets
    [shouldBreakLoop]: if, while a chunk is fed, the framer dispatches an
    event whose trimmed data is the end marker and which is not a repeat,
    then the read loop ends with that chunk: no further chunk is taken
    from the body, whatever the body still holds. The events dispatched
    behind the marker while the same chunk is fed are heard like any
    others. *)
Theorem done_marker_ends_reading JSON_parse Number
    (chunk : jstr) (rest : list jstr) failure p st n
    (earlier later : list SSE.SSEEvent) (marker : SSE.SSEEvent) :
  SSE.framed Number chunk false p = earlier ++ marker :: later ->
  trim (SSE.data marker) = js "[DONE]" ->
  is_repeat marker (SSE.hear (onEvent JSON_parse true) st earlier) = false ->
  let r := read_loop JSON_parse Number true (chunk :: rest) failure p st n in
  taken r = S n
  /\ rejected r = None
  /\ r = read_loop JSON_parse Number true [chunk] None p st n
  /\ walked (stream r)
     = walked (SSE.hear (onEvent JSON_parse true) st (earlier ++ marker :: later)).
Proof.
  intros Hframed Hdone Hrep r.
  assert (Hparse : parse JSON_parse Number true chunk false p st
                   = (fst (SSE.feed Number SSE.record_event chunk false p []),
                      SSE.hear (onEvent JSON_parse true) st (earlier ++ marker :: later))).
  { unfold parse. rewrite feed_framed, Hframed. reflexivity. }
  assert (Hflag : shouldBreakLoop
                    (SSE.hear (onEvent JSON_parse true) st (earlier ++ marker :: later))
                  = true).
  { unfold SSE.hear. rewrite fold_left_app. simpl. apply hear_break_stays.
    apply onEvent_done_breaks; [exact Hdone|exact Hrep]. }
  unfold r. simpl. rewrite Hparse, Hflag. simpl. auto.
Qed.

(** C5 at work: the marker first in its chunk, one event behind it, one
    more chunk in the body. *)
Lemma done_marker_witness :
  let marker := {| SSE.event := js "message"; SSE.data := js "[DONE]";
                   SSE.id := None; SSE.retry := None |} in
  let behind := {| SSE.event := js "message"; SSE.data := delta_text (js "x");
                   SSE.id := None; SSE.retry := None |} in
  let rest := [data_block (delta_text (js "y"))] in
  let r := read_loop Json.parse Json.string_to_number true (done_then_delta :: rest) None
             SSE.createSSEParser (start []) 0 in
  SSE.framed Json.string_to_number done_then_delta false SSE.createSSEParser
  = [] ++ marker :: [behind]
  /\ trim (SSE.data marker) = js "[DONE]"
  /\ is_repeat marker (SSE.hear (onEvent Json.parse true) (start []) []) = false
  /\ taken r = 1%nat
  /\ rejected r = None
  /\ r = read_loop Json.parse Json.string_to_number true [done_then_delta] None
           SSE.createSSEParser (start []) 0
  /\ walked (stream r)
     = walked (SSE.hear (onEvent Json.parse true) (start []) ([] ++ marker :: [behind])).
Proof.
  intros marker behind rest r.
  assert (H1 : SSE.framed Json.string_to_number done_then_delta false SSE.createSSEParser
               = [] ++ marker :: [behind]) by (vm_compute; reflexivity).
  assert (H2 : trim (SSE.data marker) = js "[DONE]") by (vm_compute; reflexivity).
  assert (H3 : is_repeat marker (SSE.hear (onEvent Json.parse true) (start []) []) = false)
    by reflexivity.
  split; [exact H1|]. split; [exact H2|]. split; [exact H3|].
  exact (done_marker_ends_reading Json.parse Json.string_to_number done_then_delta rest
           None SSE.createSSEParser (start []) 0 [] [behind] marker H1 H2 H3).
Defined.

(** C5 as stated fails. The framer dispatches the end marker and then,
    from the same chunk, one more event; that event reaches [walkEvent]
    and changes the extraction state, although the loop reads no second
    chunk. *)
Lemma event_behind_done_is_walked :
  map SSE.data (SSE.framed Json.string_to_number done_then_delta false SSE.createSSEParser)
  = [js "[DONE]"; delta_text (js "x")]
  /\ (let r := read_loop Json.parse Json.string_to_number true
                 [done_then_delta; data_block (delta_text (js "y"))] None
                 SSE.createSSEParser (start []) 0 in
      taken r = 1%nat
      /\ walked (stream r) = [Obj [(js "delta", Str (js "x"))]]
      /\ Extract.assistantBuf (extractionState (stream r)) = js "x").
Proof. vm_compute. repeat split. Qed.

(** The copy of [callGlmAgent] without the flag logs the end marker and
    reads on: the chunk after it is taken and walked. *)
Lemma marker_without_flag_reads_on :
  let r := read_loop Json.parse Json.string_to_number false
             [data_block (js "[DONE]"); data_block (delta_text (js "y"))] None
             SSE.createSSEParser (start []) 0 in
  taken r = 2%nat
  /\ walked (stream r) = [Obj [(js "delta", Str (js "y"))]].
Proof. vm_compute. split; reflexivity. Qed.

(** C6, as the code has it. With [retries] at least 1, [debugFetch] settles
    after some [k] attempts, [k] at most [retries]; it waits 1000 ms times
    the number of attempts made before each attempt but the first; every
    attempt before the [k]-th ended in a status of 500 or more or in a
    rejection named [TypeError]; an attempt that is not the last and ends
    otherwise settles the call at once; and the call settles as its last
    attempt did: a response is returned, also one of status 500 or more
    on the last attempt allowed, and a rejection is thrown again. *)
Theorem debugFetch_retry_policy network label retries :
  (0 < retries)%nat ->
  exists k,
    (1 <= k <= retries)%nat
    /\ debugFetch network label retries
       = Some (match network k with Resolves r => Returns r | Rejects e => Throws e end,
               schedule_from 1 k)
    /\ (forall j, (1 <= j < k)%nat -> retryable (network j) = true)
    /\ ((k < retries)%nat -> retryable (network k) = false).
Proof.
  intros Hpos. unfold debugFetch.
  destruct (debugFetch_loop_policy network label retries (S retries) 0 None [])
    as (k & Hk & Heq & Hall & Hlast); [lia|lia|].
  exists k. split; [lia|]. rewrite Nat.sub_0_r in Heq. split; [exact Heq|].
  split; [|exact Hlast]. intros j Hj. apply Hall. lia.
Qed.

(** C6 at work: a 503, then a network error, then an abort. *)
Lemma retry_policy_witness :
  let network := fun n : nat =>
    if (n =? 1)%nat then Resolves unavailable
    else if (n =? 2)%nat
         then Rejects {| name := js "TypeError"; message := js "Failed to fetch" |}
    else Rejects {| name := js "AbortError"; message := js "aborted" |} in
  (0 < 3)%nat
  /\ debugFetch network (js "agents") 3
     = Some (Throws {| name := js "AbortError"; message := js "aborted" |},
             [Fetch 1; Wait 1000; Fetch 2; Wait 2000; Fetch 3])
  /\ exists k,
       (1 <= k <= 3)%nat
       /\ debugFetch network (js "agents") 3
          = Some (match network k with Resolves r => Returns r | Rejects e => Throws e end,
                  schedule_from 1 k)
       /\ (forall j, (1 <= j < k)%nat -> retryable (network j) = true)
       /\ ((k < 3)%nat -> retryable (network k) = false).
Proof.
  intros network.
  assert (H : (0 < 3)%nat) by lia.
  split; [exact H|]. split; [vm_compute; reflexivity|].
  exact (debugFetch_retry_policy network (js "agents") 3 H).
Defined.

(** C6 as stated fails: after three answers of status 503 the third
    response is returned and no error is thrown. *)
Lemma last_server_error_is_returned :
  debugFetch (fun _ => Resolves unavailable) (js "agents") 3
  = Some (Returns unavailable, [Fetch 1; Wait 1000; Fetch 2; Wait 2000; Fetch 3]).
Proof. vm_compute. reflexivity. Qed.

(** C10. Whatever the network and the stream, [callGlmAgent] ends with one
    callback, and every slide it hands to [onComplete] has [complete] set
    and [draft] equal to [html]. So has the slide of a stream whose only
    chunk never closed its document: its entry is not finalized, its html
    is the generated document. *)
Theorem final_slides_complete_with_draft :
  (forall JSON_parse Number breaks network conversationId,
     exists cb,
       callGlmAgent JSON_parse Number breaks network conversationId = Some cb
       /\ match cb with
          | OnComplete _ slides =>
              Forall (fun s => complete s = true /\ draft s = html s) slides
          | OnError _ => True
          end)
  /\ callGlmAgent Json.parse Json.string_to_number true
       (fun _ => Resolves (fine (stream_of [tool_call_text (js "2") (js "Hi")]))) []
     = Some (OnComplete (Str [])
               [{| pageNumber := 2; html := Extract.shell 2 (js "Hi");
                   draft := Extract.shell 2 (js "Hi"); complete := true |}])
  /\ Extract.finalized <$>
       (Extract.toolState
          (extractionState
             (stream (snd (consume Json.parse Json.string_to_number true
                             (stream_of [tool_call_text (js "2") (js "Hi")]) []))))
        !! 2%Z)
     = Some false.
Proof.
  split; [|vm_compute; split; reflexivity].
  intros JSON_parse Number breaks network conversationId.
  unfold callGlmAgent.
  destruct (debugFetch_settles network (js "agents") 3) as ([[response|e] trace] & ->);
    [|eexists; split; [reflexivity|exact I]].
  destruct (if ok response then body response else None) as [b|];
    [|eexists; split; [reflexivity|exact I]].
  unfold consume.
  destruct (rejected (read_loop _ _ _ _ _ _ _ _)); simpl;
    [eexists; split; [reflexivity|exact I]|].
  destruct (parse _ _ _ _ _ _ _) as [p st]. simpl.
  eexists. split; [reflexivity|]. simpl.
  unfold finalSlides. apply Forall_fmap, Forall_forall. intros sl _. simpl. auto.
Qed.

(** X5. An event whose text does not parse is logged and skipped: the id, if
    any, is remembered, and neither the extraction state nor anything else
    of the stream changes. The next event is handled as usual. *)
Theorem malformed_event_is_skipped JSON_parse breaks evt st :
  is_repeat evt st = false ->
  jstr_eqb (trim (SSE.data evt)) (js "[DONE]") = false ->
  JSON_parse (SSE.data evt) = None ->
  onEvent JSON_parse breaks evt st
  = logged (remember evt st) (LogCaught SyntaxError (SSE.data evt))
  /\ extractionState (onEvent JSON_parse breaks evt st) = extractionState st
  /\ walked (onEvent JSON_parse breaks evt st) = walked st
  /\ shouldBreakLoop (onEvent JSON_parse breaks evt st) = shouldBreakLoop st.
Proof.
  intros Hrep Hdone Hparse. unfold onEvent. rewrite Hrep, Hdone, Hparse.
  split; [reflexivity|]. unfold remember.
  destruct (SSE.id evt) as [i|]; [destruct (SSE.nonempty i)|]; auto.
Qed.

(** X5 at work: an event with id 3 and a text that is no JSON. *)
Lemma malformed_event_witness :
  let evt := event_with_id (js "3") (js "{not json") in
  let st := start [] in
  is_repeat evt st = false
  /\ jstr_eqb (trim (SSE.data evt)) (js "[DONE]") = false
  /\ Json.parse (SSE.data evt) = None
  /\ onEvent Json.parse true evt st
     = logged (remember evt st) (LogCaught SyntaxError (SSE.data evt))
  /\ extractionState (onEvent Json.parse true evt st) = extractionState st
  /\ walked (onEvent Json.parse true evt st) = walked st
  /\ shouldBreakLoop (onEvent Json.parse true evt st) = shouldBreakLoop st.
Proof.
  intros evt st.
  assert (H1 : is_repeat evt st = false) by reflexivity.
  assert (H2 : jstr_eqb (trim (SSE.data evt)) (js "[DONE]") = false)
    by (vm_compute; reflexivity).
  assert (H3 : Json.parse (SSE.data evt) = None) by (vm_compute; reflexivity).
  split; [exact H1|]. split; [exact H2|]. split; [exact H3|].
  exact (malformed_event_is_skipped Json.parse true evt st H1 H2 H3).
Defined.

End TransportClaims.

(** * Part IV: the sample runs of the specification *)

Section SampleRuns.
Import Samples.

(** Two tool calls for position 2, the second closing the document, then
    the end marker: one slide, page 2, the second chunk's text. *)
Example end_to_end_scenario :
  let first := js "<!doctype html><html><body>Hi" in
  let second := js "<!doctype html><html><body>Hi</body></html>" in
  Net.callGlmAgent Json.parse Json.string_to_number true
    (fun _ => Net.Resolves (fine (stream_of [tool_call_text (js "2") first;
                                             tool_call_text (js "2") second;
                                             js "[DONE]"]))) []
  = Some (Net.OnComplete (Str [])
            [{| Net.pageNumber := 2; Net.html := second; Net.draft := second;
                Net.complete := true |}]).
Proof. vm_compute. reflexivity. Qed.

(** A stream that ends without a single event still completes, with no
    slides. *)
Example empty_stream_completes :
  Net.callGlmAgent Json.parse Json.string_to_number true
    (fun _ => Net.Resolves (fine (stream_of []))) (js "c-1")
  = Some (Net.OnComplete (Str (js "c-1")) []).
Proof. vm_compute. reflexivity. Qed.

(** A chunk that starts a document over replaces what was there. *)
Example reset_overrides_growth :
  Extract.buf <$>
    (Extract.toolState
       (Extract.ingest_all [(1%Z, js "<html>A"); (1%Z, js "<!doctype html><html>B")]
          Extract.createExtractionState) !! 1%Z)
  = Some (js "<!doctype html><html>B").
Proof. vm_compute. reflexivity. Qed.

(** With no tool buffers, the document inside the assistant text becomes
    slide 1. *)
Example assembly_fallback :
  Extract.finalizeSlides
    (Extract.append_assistant Extract.createExtractionState
       (js "Here it is: <html><body>x</body></html> done"))
  = [{| Extract.position := 1; Extract.html := js "<html><body>x</body></html>" |}].
Proof. vm_compute. reflexivity. Qed.

(** Escapes are decoded as a JSON string; when that fails, [\n] and the
    escaped quote are replaced literally; a text with a tag is left alone. *)
Example decode_samples :
  Extract.maybeDecodeJsonString (js "a\nb\tc") = js "a" ++ [LF] ++ js "b" ++ [9%N] ++ js "c"
  /\ Extract.maybeDecodeJsonString (js "a\nb\q") = js "a" ++ [LF] ++ js "b\q"
  /\ Extract.maybeDecodeJsonString (js "a\n<p>") = js "a\n<p>".
Proof. vm_compute. repeat split. Qed.

Example stripFences_samples :
  Extract.stripFences (js "```html" ++ [LF] ++ js "<p>x</p>" ++ [LF] ++ js "```")
  = js "<p>x</p>"
  /\ Extract.stripFences (js "```HTML  <p>x</p>") = js "<p>x</p>"
  /\ Extract.stripFences (js "<p>```</p>") = js "<p>```</p>".
Proof. vm_compute. repeat split. Qed.

Example show_Z_samples :
  show_Z 0 = js "0" /\ show_Z 1024 = js "1024" /\ show_Z (-305) = js "-305".
Proof. vm_compute. repeat split. Qed.

Example json_samples :
  Json.parse (js " [1, -20, true, null, [], {}] ")
  = Some (Arr [Num 1; Num (-20); Bool true; Null; Arr []; Obj []])
  /\ Json.parse (js "[DONE]") = None
  /\ Json.parse (js "data: partial") = None
  /\ Json.parse (delta_text (js "x")) = Some (Obj [(js "delta", Str (js "x"))]).
Proof. vm_compute. repeat split. Qed.

End SampleRuns.

(** * Part V: further properties of the code *)

Section FramerMore.
Import SSE Samples.
Context {U : Type}.
Variable Number : jstr -> option Z.
Variable h : SSEEvent -> U -> U.

(** One whole line of the input is one call of [on_line]. *)
Lemma scan_one_line l rest e u :
  LF ∉ l ->
  scan Number h [] (l ++ LF :: rest) e u
  = let '(e', u') := on_line Number h l e u in scan Number h [] rest e' u'.
Proof.
  intros Hn. rewrite (scan_prefix Number h l []) by exact Hn. reflexivity.
Qed.

Lemma on_line_CR l e u :
  endsWith [CR] l = false ->
  on_line Number h (l ++ [CR]) e u = on_line Number h l e u.
Proof.
  intros Hl. unfold on_line. rewrite Hl.
  assert (He : endsWith [CR] (l ++ [CR]) = true).
  { unfold endsWith. rewrite length_app. simpl length.
    replace (length l + 1 - 1)%nat with (length l) by lia.
    rewrite drop_app_length, Nat.add_1_r. reflexivity. }
  rewrite He. rewrite length_app. simpl.
  replace (length l + 1 - 1)%nat with (length l) by lia.
  rewrite take_app_length. reflexivity.
Qed.

Lemma lines_cons eol l ls : lines eol (l :: ls) = l ++ eol ++ lines eol ls.
Proof. unfold lines. simpl. rewrite <- app_assoc. reflexivity. Qed.

Lemma scan_first_line l ls rest e u :
  LF ∉ l ->
  scan Number h [] (lines [LF] (l :: ls) ++ rest) e u
  = let '(e', u') := on_line Number h l e u in
    scan Number h [] (lines [LF] ls ++ rest) e' u'.
Proof.
  intros Hn. rewrite lines_cons, <- !app_assoc. apply scan_one_line. exact Hn.
Qed.

Lemma scan_lines_CRLF ls : forall rest e u,
  Forall (fun l => (LF ∉ l) /\ endsWith [CR] l = false) ls ->
  scan Number h [] (lines [CR; LF] ls ++ rest) e u
  = scan Number h [] (lines [LF] ls ++ rest) e u.
Proof.
  induction ls as [|l ls IH]; intros rest e u Hall; [reflexivity|].
  apply Forall_cons in Hall. destruct Hall as [[Hn Hc] Hall].
  rewrite !lines_cons, <- !app_assoc.
  change ([CR; LF] ++ lines [CR; LF] ls ++ rest)
    with ([CR] ++ LF :: lines [CR; LF] ls ++ rest).
  change ([LF] ++ lines [LF] ls ++ rest) with (LF :: lines [LF] ls ++ rest).
  rewrite (app_assoc l [CR]).
  rewrite scan_one_line.
  2:{ rewrite elem_of_app, list_elem_of_singleton. intros [?|?]; [auto|discriminate]. }
  rewrite scan_one_line by exact Hn.
  rewrite on_line_CR by exact Hc.
  destruct (on_line Number h l e u) as [e' u']. apply IH. exact Hall.
Qed.

Lemma comment_line c e u : on_line Number h (58%N :: c) e u = (e, u).
Proof.
  unfold on_line.
  set (line := if endsWith [CR] (58%N :: c) then _ else _).
  assert (Hl : exists c', line = 58%N :: c').
  { unfold line. destruct (endsWith [CR] (58%N :: c)) eqn:E; [|eauto].
    destruct c as [|x c]; [vm_compute in E; discriminate|].
    cbn [length Nat.sub take]. eauto. }
  destruct Hl as (c' & ->). reflexivity.
Qed.


Lemma endsWith_app_CR pre l :
  l <> [] -> endsWith [CR] (pre ++ l) = endsWith [CR] l.
Proof.
  intros Hl. unfold endsWith. rewrite length_app.
  destruct l as [|x l]; [congruence|]. simpl length.
  replace (1 <=? length pre + S (length l))%nat with true
    by (symmetry; apply Nat.leb_le; lia).
  replace (1 <=? S (length l))%nat with true by reflexivity.
  replace (length pre + S (length l) - 1)%nat with (length pre + length l)%nat by lia.
  rewrite drop_app_add.
  replace (S (length l) - 1)%nat with (length l) by lia. reflexivity.
Qed.

(** A [data] line adds its text to the data of the event in the making. *)
Lemma data_line l e u :
  endsWith [CR] l = false ->
  on_line Number h (js "data: " ++ l) e u = (append_data e l, u).
Proof.
  intros Hl. unfold on_line.
  assert (He : endsWith [CR] (js "data: " ++ l) = false).
  { destruct l as [|x l]; [reflexivity|]. rewrite endsWith_app_CR by discriminate. exact Hl. }
  rewrite He. reflexivity.
Qed.

Lemma scan_data_lines ds : forall rest e u,
  Forall (fun l => (LF ∉ l) /\ endsWith [CR] l = false) ds ->
  nonempty (data e) = true ->
  scan Number h [] (lines [LF] ((fun l => js "data: " ++ l) <$> ds) ++ rest) e u
  = scan Number h [] rest
      {| event := event e; data := data e ++ concat ((fun l => LF :: l) <$> ds);
         id := id e; retry := retry e |} u.
Proof.
  induction ds as [|l ds IH]; intros rest e u Hall Hne.
  - simpl. rewrite app_nil_r. destruct e. reflexivity.
  - apply Forall_cons in Hall. destruct Hall as [[Hn Hc] Hall].
    rewrite fmap_cons, scan_first_line.
    2:{ rewrite elem_of_app. intros [H|H]; [|auto].
        revert H. apply (bool_decide_unpack _). vm_compute. exact I. }
    rewrite data_line by exact Hc.
    rewrite IH; [|exact Hall|].
    + unfold append_data. simpl. rewrite Hne. rewrite <- !app_assoc. reflexivity.
    + unfold append_data. simpl. rewrite Hne. destruct (data e); [discriminate|reflexivity].
Qed.

(** Once a line feed has been read the unfinished line is empty. *)
Lemma scan_ends_with_LF s : forall line e u,
  fst (fst (scan Number h line (s ++ [LF]) e u)) = [].
Proof.
  induction s as [|x s IH]; intros line e u; simpl.
  - destruct (on_line Number h line e u). reflexivity.
  - destruct (x =? LF)%N; [destruct (on_line Number h line e u)|]; apply IH.
Qed.

End FramerMore.

Section FramerExtras.
Import SSE Samples.


(** X7. The framer never hands over an empty event: whatever the input and
    the state of the parser, each event dispatched has data, or an id that
    is not empty, or a retry value that is neither 0 nor NaN. *)
Theorem dispatched_events_are_not_empty (Number : jstr -> option Z)
    (chunk : jstr) (flush : bool) (p : Parser) :
  Forall (fun e => jstr_eqb (data e) [] && negb (id_truthy e) && negb (retry_truthy e)
                   = false)
         (framed Number chunk flush p).
Proof.
  set (P := fun e => jstr_eqb (data e) [] && negb (id_truthy e) && negb (retry_truthy e)
                     = false).
  assert (Hd : forall e l, Forall P l -> Forall P (snd (dispatch record_event e l))).
  { intros e l Hl. unfold dispatch.
    destruct (jstr_eqb (data e) [] && negb (id_truthy e) && negb (retry_truthy e)) eqn:E;
      simpl; [exact Hl|].
    unfold record_event. apply Forall_app. split; [exact Hl|]. repeat constructor. exact E. }
  assert (Hs : forall s line e l, Forall P l ->
                 Forall P (snd (scan Number record_event line s e l))).
  { induction s as [|x s IH]; intros line e l Hl; simpl; [exact Hl|].
    destruct (x =? LF)%N; [|apply IH, Hl].
    unfold on_line. destruct (jstr_eqb _ []).
    - specialize (Hd e l Hl). destruct (dispatch record_event e l) as [e' l'].
      apply IH, Hd.
    - apply IH, Hl. }
  unfold framed. rewrite feed_scan.
  specialize (Hs (buffer p ++ chunk) [] (ev p) [] (Forall_nil_2 _)).
  destruct (scan Number record_event [] (buffer p ++ chunk) (ev p) []) as [[rest e] l].
  simpl in Hs. destruct (flush && nonempty rest); [|exact Hs].
  specialize (Hd (append_data e rest) l Hs).
  destruct (dispatch record_event (append_data e rest) l). exact Hd.
Qed.

(** X8. Line ends may be CR LF as well as LF: a text of whole lines, none of
    which ends in a carriage return of its own, is framed alike with
    either. *)
Theorem crlf_same_as_lf {U : Type} (Number : jstr -> option Z) (h : SSEEvent -> U -> U)
    (ls : list jstr) (flush : bool) (u : U) :
  Forall (fun l => (LF ∉ l) /\ endsWith [CR] l = false) ls ->
  feed Number h (lines [CR; LF] ls) flush createSSEParser u
  = feed Number h (lines [LF] ls) flush createSSEParser u.
Proof.
  intros Hall. rewrite !feed_scan. simpl buffer. simpl ev. simpl app.
  pose proof (scan_lines_CRLF Number h ls [] fresh u Hall) as H.
  rewrite !app_nil_r in H. rewrite H. reflexivity.
Qed.

Lemma crlf_witness :
  let ls := [js "id: 4"; js "data: x"; []] in
  Forall (fun l : jstr => (LF ∉ l) /\ endsWith [CR] l = false) ls
  /\ feed Json.string_to_number record_event (lines [CR; LF] ls) false createSSEParser []
     = feed Json.string_to_number record_event (lines [LF] ls) false createSSEParser []
  /\ framed Json.string_to_number (lines [CR; LF] ls) false createSSEParser
     = [{| event := js "message"; data := js "x"; id := Some (js "4"); retry := None |}].
Proof.
  intros ls.
  assert (H : Forall (fun l : jstr => (LF ∉ l) /\ endsWith [CR] l = false) ls).
  { apply (bool_decide_unpack _). vm_compute. exact I. }
  split; [exact H|].
  split; [exact (crlf_same_as_lf Json.string_to_number record_event ls false [] H)|].
  vm_compute. reflexivity.
Defined.

(** X9. A comment line, one that begins with a colon, changes nothing: put
    behind any whole lines of a text and before whatever follows, it leaves
    the parser and the listener as they are without it. *)
Theorem comment_lines_are_ignored {U : Type} (Number : jstr -> option Z)
    (h : SSEEvent -> U -> U) (before : list jstr) (comment rest : jstr)
    (flush : bool) (u : U) :
  Forall (fun l => LF ∉ l) before -> LF ∉ comment ->
  feed Number h (lines [LF] before ++ (58%N :: comment) ++ [LF] ++ rest) flush
       createSSEParser u
  = feed Number h (lines [LF] before ++ rest) flush createSSEParser u.
Proof.
  intros Hall Hc. rewrite !feed_scan. simpl buffer. simpl ev. rewrite !app_nil_l.
  assert (H : forall e u,
    scan Number h [] (lines [LF] before ++ (58%N :: comment) ++ [LF] ++ rest) e u
    = scan Number h [] (lines [LF] before ++ rest) e u).
  { clear u. induction Hall as [|l ls Hl _ IH]; intros e u.
    - simpl app at 1. change (58%N :: comment ++ LF :: rest)
        with ((58%N :: comment) ++ LF :: rest).
      rewrite scan_one_line.
      + rewrite comment_line. reflexivity.
      + rewrite not_elem_of_cons. split; [discriminate|exact Hc].
    - rewrite !scan_first_line by exact Hl.
      destruct (on_line Number h l e u) as [e' u']. apply IH. }
  rewrite H. reflexivity.
Qed.

Lemma comment_witness :
  let before := [js "data: a"] in
  let rest := js "data: b" ++ [LF; LF] in
  Forall (fun l : jstr => LF ∉ l) before /\ (LF ∉ js " keep-alive")
  /\ feed Json.string_to_number record_event
       (lines [LF] before ++ (58%N :: js " keep-alive") ++ [LF] ++ rest) false
       createSSEParser []
     = feed Json.string_to_number record_event (lines [LF] before ++ rest) false
         createSSEParser []
  /\ framed Json.string_to_number
       (lines [LF] before ++ (58%N :: js " keep-alive") ++ [LF] ++ rest) false createSSEParser
     = [{| event := js "message"; data := js "a" ++ [LF] ++ js "b";
           id := None; retry := None |}].
Proof.
  intros before rest.
  assert (H1 : Forall (fun l : jstr => LF ∉ l) before).
  { apply (bool_decide_unpack _). vm_compute. exact I. }
  assert (H2 : LF ∉ js " keep-alive").
  { apply (bool_decide_unpack _). vm_compute. exact I. }
  split; [exact H1|]. split; [exact H2|].
  split; [|vm_compute; reflexivity].
  exact (comment_lines_are_ignored Json.string_to_number record_event before
           (js " keep-alive") rest false [] H1 H2).
Defined.

(** X10. The data lines of an event are joined by line feeds: a block of
    [data] lines, the first of them with a text, closed by a blank line,
    gives exactly one event, named [message], whose data is the texts of
    the lines in order with a line feed between each two. *)
Theorem data_lines_joined (Number : jstr -> option Z) (d : jstr) (ds : list jstr) :
  d <> [] ->
  Forall (fun l => (LF ∉ l) /\ endsWith [CR] l = false) (d :: ds) ->
  framed Number (lines [LF] ((fun l => js "data: " ++ l) <$> d :: ds) ++ [LF])
         false createSSEParser
  = [{| event := js "message"; data := d ++ concat ((fun l => LF :: l) <$> ds);
        id := None; retry := None |}].
Proof.
  intros Hd Hall. apply Forall_cons in Hall. destruct Hall as [[Hn Hc] Hall].
  unfold framed. rewrite feed_scan. simpl buffer. simpl ev. rewrite app_nil_l.
  rewrite fmap_cons, scan_first_line.
  2:{ rewrite elem_of_app. intros [H|H]; [|auto].
      revert H. apply (bool_decide_unpack _). vm_compute. exact I. }
  rewrite data_line by exact Hc.
  rewrite scan_data_lines; [|exact Hall|destruct d; [congruence|reflexivity]].
  simpl. destruct d as [|x d]; [congruence|]. reflexivity.
Qed.

Lemma data_lines_witness :
  let d := js "{" in
  let ds := [js " 1"; []; js "}"] in
  d <> []
  /\ Forall (fun l : jstr => (LF ∉ l) /\ endsWith [CR] l = false) (d :: ds)
  /\ framed Json.string_to_number
       (lines [LF] ((fun l => js "data: " ++ l) <$> d :: ds) ++ [LF]) false createSSEParser
     = [{| event := js "message"; data := d ++ concat ((fun l => LF :: l) <$> ds);
           id := None; retry := None |}].
Proof.
  intros d ds.
  assert (H1 : d <> []) by discriminate.
  assert (H2 : Forall (fun l : jstr => (LF ∉ l) /\ endsWith [CR] l = false) (d :: ds)).
  { apply (bool_decide_unpack _). vm_compute. exact I. }
  split; [exact H1|]. split; [exact H2|].
  exact (data_lines_joined Json.string_to_number d ds H1 H2).
Defined.

(** X11. A flush acts on an unfinished line only. After a text that ends with
    a line feed the flushing call does what the plain one does: an event
    whose lines are all there but whose closing blank line never came stays
    in the parser and is not handed over. *)
Theorem flush_after_newline_does_nothing {U : Type} (Number : jstr -> option Z)
    (h : SSEEvent -> U -> U) (text : jstr) (p : Parser) (u : U) :
  feed Number h (text ++ [LF]) true p u = feed Number h (text ++ [LF]) false p u.
Proof.
  rewrite !feed_scan. rewrite app_assoc.
  pose proof (scan_ends_with_LF Number h (buffer p ++ text) [] (ev p) u) as H.
  destruct (scan Number h [] ((buffer p ++ text) ++ [LF]) (ev p) u) as [[rest e] u'].
  simpl in H. subst rest. reflexivity.
Qed.

End FramerExtras.

Section IngestMore.
Import Re Extract.

Lemma ingest_finalized pos s c : finalized (ingest pos s c).1 = finalized s.
Proof.
  unfold ingest.
  repeat match goal with
         | |- context [if ?b then _ else _] => destruct b
         | |- context [match ?l with [] => _ | _ :: _ => _ end] => destruct l
         end; reflexivity.
Qed.

(** What [ingest] leaves in the buffer is the old buffer and, behind it, an
    end piece of the chunk - unless the chunk is a reset. *)
Lemma ingest_appends pos s c :
  is_reset c = false -> exists k, buf (ingest pos s c).1 = buf s ++ drop k c.
Proof.
  intros Hr. unfold ingest. rewrite Hr.
  destruct (lastLen s <? length c)%nat.
  - destruct (drop (lastLen s) c) eqn:Ed.
    + exists (length c). rewrite drop_all, app_nil_r. reflexivity.
    + exists (lastLen s). rewrite Ed. reflexivity.
  - destruct ((length c <? lastLen s)%nat && (0 <? length c)%nat).
    + exists 0%nat. rewrite drop_0. reflexivity.
    + destruct ((0 <? length c)%nat && (lastLen s =? 0)%nat).
      * exists 0%nat. rewrite drop_0. reflexivity.
      * exists (length c). rewrite drop_all, app_nil_r. reflexivity.
Qed.

(** The state and the effects of [onToolChunk] for a position still open. *)
Lemma onToolChunk_open_full state pos raw :
  finalized (upsertPos state pos).2 = false ->
  let taken := (ingest pos (upsertPos state pos).2 (cleanedRaw raw)).1 in
  let s' := {| buf := buf taken; lastLen := lastLen taken;
               finalized := is_complete (buf taken) |} in
  (onToolChunk state pos raw).1 = set_slide (upsertPos state pos).1 pos s'
  /\ partials (onToolChunk state pos raw).2 = [(pos, buf s', finalized s')].
Proof.
  intros Hf taken s'. unfold onToolChunk.
  destruct (upsertPos state pos) as [st s] eqn:Eu. simpl in Hf, taken. rewrite Hf.
  pose proof (ingest_finalized pos s (cleanedRaw raw)) as Hfin. rewrite Hf in Hfin.
  fold (cleanedRaw raw).
  assert (Hlogs : partials (ingest pos s (cleanedRaw raw)).2 = []).
  { unfold ingest.
    repeat match goal with
           | |- context [if ?b then _ else _] => destruct b
           | |- context [match ?l with [] => _ | _ :: _ => _ end] => destruct l
           end; reflexivity. }
  assert (Happ : forall a b, partials (a ++ b) = partials a ++ partials b).
  { induction a as [|[ | |] a IH]; intros b; simpl; rewrite ?IH; reflexivity. }
  destruct (ingest pos s (cleanedRaw raw)) as [t lg] eqn:Ei.
  simpl in taken, Hfin, Hlogs. subst taken s'. simpl.
  destruct (is_complete (buf t)) eqn:Ec; simpl; rewrite ?Happ, Hlogs; simpl.
  - auto.
  - split; [|reflexivity]. destruct t; simpl in *. subst. reflexivity.
Qed.

End IngestMore.

Section IngestExtras.
Import Re Extract.

(** X12. Only a reset takes text away from a slide: a chunk that is no reset
    leaves the buffer of its position as it was with, behind it, an end
    piece of the cleaned chunk (possibly none of it). *)
Theorem buffer_grows_without_reset state pos raw :
  is_reset (cleanedRaw raw) = false ->
  exists s' k,
    toolState (onToolChunk state pos raw).1 !! pos = Some s'
    /\ buf s' = buf (upsertPos state pos).2 ++ drop k (cleanedRaw raw).
Proof.
  intros Hr. destruct (finalized (upsertPos state pos).2) eqn:Ef.
  - pose proof (upsertPos_lookup state pos) as Hl.
    exists (upsertPos state pos).2, (length (cleanedRaw raw)).
    rewrite drop_all, app_nil_r. split; [|reflexivity].
    unfold onToolChunk. destruct (upsertPos state pos) as [st s]. simpl in *.
    rewrite Ef. exact Hl.
  - destruct (ingest_appends pos (upsertPos state pos).2 (cleanedRaw raw) Hr) as (k & Hk).
    eexists _, k. split; [apply onToolChunk_open; exact Ef|]. exact Hk.
Qed.

Lemma buffer_grows_witness :
  let state := fst (onToolChunk createExtractionState 1 (js "<p>one")) in
  let raw := js "</p>" in
  is_reset (cleanedRaw raw) = false
  /\ buf (upsertPos state 1).2 = js "<p>one"
  /\ exists s' k,
       toolState (onToolChunk state 1 raw).1 !! 1%Z = Some s'
       /\ buf s' = buf (upsertPos state 1).2 ++ drop k (cleanedRaw raw).
Proof.
  intros state raw.
  assert (H : is_reset (cleanedRaw raw) = false) by (vm_compute; reflexivity).
  split; [exact H|]. split; [vm_compute; reflexivity|].
  exact (buffer_grows_without_reset state 1%Z raw H).
Defined.

(** X13. Every chunk taken in is reported once: a chunk for a position that is
    not finalized calls [onPartial] exactly once, with the buffer and the
    flag as the state holds them after the chunk; a chunk for a finalized
    position does not call it. *)
Theorem partial_reports_buffer state pos raw :
  (finalized (upsertPos state pos).2 = true ->
   partials (onToolChunk state pos raw).2 = [])
  /\ (finalized (upsertPos state pos).2 = false ->
      exists s', toolState (onToolChunk state pos raw).1 !! pos = Some s'
        /\ partials (onToolChunk state pos raw).2 = [(pos, buf s', finalized s')]).
Proof.
  split; intros Hf.
  - unfold onToolChunk. destruct (upsertPos state pos) as [st s]. simpl in Hf.
    rewrite Hf. reflexivity.
  - destruct (onToolChunk_open_full state pos raw Hf) as [_ Hp].
    eexists. split; [apply onToolChunk_open; exact Hf|]. exact Hp.
Qed.

Lemma prefix_same_length (a b : jstr) : a `prefix_of` b -> length a = length b -> a = b.
Proof.
  intros [t ->] Hl. rewrite length_app in Hl.
  destruct t; [symmetry; apply app_nil_r|simpl in Hl; lia].
Qed.

(** One snapshot on top of the one before it. *)
Lemma ingest_snapshot pos c0 c :
  c0 `prefix_of` c ->
  let s := {| buf := c0; lastLen := length c0; finalized := false |} in
  buf (ingest pos s c).1 = c /\ lastLen (ingest pos s c).1 = length c.
Proof.
  intros Hp s. unfold ingest.
  destruct (is_reset c); [auto|]. simpl buf. simpl lastLen.
  destruct (Nat.ltb_spec (length c0) (length c)) as [Hlt|Hge].
  - destruct Hp as [t ->]. rewrite drop_app_length.
    destruct t; [rewrite length_app in Hlt; simpl in Hlt; lia|]. simpl. auto.
  - assert (Heq : c0 = c).
    { apply prefix_same_length; [exact Hp|]. apply prefix_length in Hp. lia. }
    subst c0.
    replace (length c <? length c)%nat with false by (symmetry; apply Nat.ltb_irrefl).
    simpl. destruct (0 <? length c)%nat eqn:E0; simpl.
    + destruct (Nat.eqb_spec (length c) 0) as [Hz|_]; simpl; [|auto].
      apply Nat.ltb_lt in E0. lia.
    + auto.
Qed.

Lemma snapshots_run raws : forall state pos c0,
  (toolState state !! pos = Some {| buf := c0; lastLen := length c0; finalized := false |}
   \/ (toolState state !! pos = None /\ c0 = [])) ->
  snapshots c0 (cleanedRaw <$> raws) ->
  raws <> [] ->
  let last := default [] (last (cleanedRaw <$> raws)) in
  toolState (ingest_all ((fun r => (pos, r)) <$> raws) state) !! pos
  = Some {| buf := last; lastLen := length last; finalized := is_complete last |}.
Proof.
  induction raws as [|raw raws IH]; intros state pos c0 Hst Hsn Hne; [congruence|].
  simpl in Hsn. destruct Hsn as (Hp & Hc0 & Hsn).
  cbn [fmap list_fmap ingest_all fold_left fst snd].
  change (fold_left _ ?l ?st) with (ingest_all l st).
  assert (Hu : (upsertPos state pos).2
               = {| buf := c0; lastLen := length c0; finalized := false |}).
  { unfold upsertPos. destruct Hst as [H|[H ->]]; rewrite H; reflexivity. }
  assert (Hopen : finalized (upsertPos state pos).2 = false) by (rewrite Hu; reflexivity).
  pose proof (onToolChunk_open state pos raw Hopen) as Hl. simpl in Hl.
  fold (cleanedRaw raw) in Hl. rewrite Hu in Hl.
  destruct (ingest_snapshot pos c0 (cleanedRaw raw) Hp) as [Hb Hlen].
  rewrite Hb, Hlen in Hl.
  destruct raws as [|raw' raws'].
  - simpl. exact Hl.
  - assert (Hnot : is_complete (cleanedRaw raw) = false).
    { simpl in Hsn. tauto. }
    rewrite Hnot in Hl.
    specialize (IH (onToolChunk state pos raw).1 pos (cleanedRaw raw) (or_introl Hl) Hsn).
    rewrite IH by discriminate. reflexivity.
Qed.

(** X14. Cumulative snapshots leave the last snapshot. When the chunks for a
    new position are snapshots of one growing text - each cleaned chunk
    begins with the one before it, and none but the last ends with the
    closing tag - then, resets or not, the buffer ends up being the last
    cleaned chunk, the length its length, and the flag says whether it
    ends with the closing tag. *)
Theorem snapshots_leave_last_snapshot state pos (raws : list jstr) :
  toolState state !! pos = None ->
  raws <> [] ->
  snapshots [] (cleanedRaw <$> raws) ->
  let last := default [] (last (cleanedRaw <$> raws)) in
  toolState (ingest_all ((fun r => (pos, r)) <$> raws) state) !! pos
  = Some {| buf := last; lastLen := length last; finalized := is_complete last |}.
Proof.
  intros Hnone Hne Hsn. apply snapshots_run with (c0 := []); auto.
Qed.

Lemma snapshots_witness :
  let raws := [js "<html><b"; js "<html><body>Hi"; js "<html><body>Hi</body></html>"] in
  toolState createExtractionState !! 3%Z = None
  /\ raws <> []
  /\ snapshots [] (cleanedRaw <$> raws)
  /\ toolState (ingest_all ((fun r => (3%Z, r)) <$> raws) createExtractionState) !! 3%Z
     = Some {| buf := js "<html><body>Hi</body></html>"; lastLen := 28; finalized := true |}.
Proof.
  intros raws.
  assert (H1 : toolState createExtractionState !! 3%Z = None) by reflexivity.
  assert (H2 : raws <> []) by discriminate.
  assert (H3 : snapshots [] (cleanedRaw <$> raws)).
  { repeat split; try (vm_compute; reflexivity);
      apply (bool_decide_unpack _); vm_compute; exact I. }
  split; [exact H1|]. split; [exact H2|]. split; [exact H3|].
  exact (snapshots_leave_last_snapshot createExtractionState 3%Z raws H1 H2 H3).
Defined.

End IngestExtras.

Section ReMore.
Import Re.

(** A search finds a match wherever one begins. *)
Lemma search_complete ci r : forall pre s i e,
  match_at ci r (i + length pre) s = Some e -> search ci r i (pre ++ s) <> None.
Proof.
  induction pre as [|x pre IH]; intros s i e H.
  - simpl in *. rewrite Nat.add_0_r in H.
    destruct s; simpl; rewrite H; discriminate.
  - simpl. destruct (match_at ci r i (x :: pre ++ s)); [discriminate|].
    apply (IH s (S i) e). simpl in H.
    replace (S i + length pre)%nat with (i + S (length pre))%nat by lia. exact H.
Qed.

Lemma lit_match_Forall2 ci p : forall c,
  lit_match ci p c = Some [] -> Forall2 (fun a x => chr_eq ci a x = true) p c.
Proof.
  induction p as [|a p IH]; intros c H; simpl in H.
  - injection H as ->. constructor.
  - destruct c as [|x c]; [discriminate|].
    destruct (chr_eq ci a x) eqn:E; [|discriminate]. constructor; auto.
Qed.

(** Under the flag [i] a unit that is no letter matches itself only. *)
Lemma chr_eq_no_letter a x :
  between 65 90 a = false -> between 97 122 a = false ->
  chr_eq true a x = true -> x = a.
Proof.
  unfold chr_eq, ascii_upper, between. intros Hu Hl.
  rewrite Hl.
  destruct ((97 <=? x)%N && (x <=? 122)%N) eqn:Ex; intros H; apply N.eqb_eq in H.
  - apply andb_true_iff in Ex. destruct Ex as [E1 E2].
    apply N.leb_le in E1, E2.
    assert (Ha : (65 <= a <= 90)%N) by lia.
    destruct Ha as [A1 A2]. apply N.leb_le in A1, A2. rewrite A1, A2 in Hu. discriminate.
  - congruence.
Qed.

Lemma slice_middle (pre c rest : jstr) :
  slice (pre ++ c ++ rest) (length pre) (length pre + length c) = c.
Proof.
  unfold slice. rewrite drop_app_length.
  replace (length pre + length c - length pre)%nat with (length c) by lia.
  apply take_app_length.
Qed.

Lemma trim_between x mid y :
  is_space x = false -> is_space y = false ->
  trim (x :: mid ++ [y]) = x :: mid ++ [y].
Proof.
  intros Hx Hy. unfold trim. simpl trimStart. rewrite Hx.
  unfold trimEnd. simpl rev. rewrite rev_app_distr. simpl.
  rewrite Hy. simpl. rewrite rev_app_distr, rev_involutive. reflexivity.
Qed.

End ReMore.

Section AssemblyMore.
Import Re Extract.

Lemma is_complete_closing pre c :
  lit_match true (js "</html>") c = Some [] -> is_complete (pre ++ c) = true.
Proof.
  intros Hc. unfold is_complete, test.
  destruct (search true HTML_END 0 (pre ++ c)) eqn:E; [reflexivity|].
  exfalso. revert E. apply (search_complete true HTML_END pre c 0 (length pre + 7)).
  unfold match_at, HTML_END. cbn [rmatch]. rewrite Hc. reflexivity.
Qed.

(** What a document pattern matches begins with its opening literal, ends
    with the closing tag, and has no white space at either end. *)
Lemma doc_pattern_shape (open : jstr) x open' s m :
  open = x :: open' -> between 65 90 x = false -> between 97 122 x = false ->
  is_space x = false ->
  exec true (Seq (Lit open) (Seq (StarLazy [Space; NotSpace]) (Lit (js "</html>")))) s
    = Some m ->
  trim m = m
  /\ (exists tail, lit_match true open m = Some tail)
  /\ (exists pre c, m = pre ++ c /\ lit_match true (js "</html>") c = Some [])
  /\ exists before after, s = before ++ m ++ after.
Proof.
  intros Ho Hu Hl Hsp. unfold exec. intros H.
  destruct (search true _ 0 s) as [[b e]|] eqn:E; [|discriminate].
  injection H as <-.
  destruct (search_sound _ _ _ _ _ _ E) as (pre & c & rest & -> & -> & -> & Hm).
  cbn [matched] in Hm. destruct Hm as (c1 & c23 & -> & Hc1 & (c2 & c3 & -> & _ & Hc3)).
  simpl plus. rewrite slice_middle.
  pose proof (lit_match_Forall2 _ _ _ Hc1) as F1.
  pose proof (lit_match_Forall2 _ _ _ Hc3) as F3.
  rewrite Ho in F1. inversion F1 as [|a x1 p1 c1' Hx F1' Ha Hc]; subst.
  apply chr_eq_no_letter in Hx; [|assumption..]. subst x1.
  assert (H3 : exists c3', c3 = c3' ++ [62%N]).
  { change (js "</html>") with ([60; 47; 104; 116; 109; 108; 62]%N) in F3.
    repeat match goal with
           | H : Forall2 _ (_ :: _) _ |- _ => inversion H; clear H; subst
           | H : Forall2 _ [] _ |- _ => inversion H; clear H; subst
           end.
    match goal with
    | H : chr_eq true 62 ?y = true |- _ =>
        apply chr_eq_no_letter in H; [|reflexivity..]; subst
    end.
    eexists [_; _; _; _; _; _]. reflexivity. }
  destruct H3 as (c3' & ->).
  split; [|split; [|split]].
  - replace ((x :: c1') ++ c2 ++ c3' ++ [62%N]) with (x :: (c1' ++ c2 ++ c3') ++ [62%N])
      by (simpl; rewrite <- !app_assoc; reflexivity).
    apply trim_between; [exact Hsp|reflexivity].
  - exists (c2 ++ c3' ++ [62%N]). apply lit_match_app. exact Hc1.
  - exists ((x :: c1') ++ c2), (c3' ++ [62%N]). rewrite <- app_assoc. auto.
  - exists pre, rest. reflexivity.
Qed.

Lemma cutFirstHtmlDoc_shape s d :
  cutFirstHtmlDoc s = Some d ->
  opens_document d = true /\ is_complete d = true
  /\ exists before after, s = before ++ d ++ after.
Proof.
  unfold cutFirstHtmlDoc. intros H.
  destruct (exec true HTML_DOC_RE s) as [m|] eqn:E1.
  - injection H as <-.
    destruct (doc_pattern_shape (js "<!doctype html") 60%N (js "!doctype html") s m
                eq_refl eq_refl eq_refl eq_refl E1)
      as (Ht & (tail & Ho) & (pre & c & Hm & Hc) & Hpiece).
    rewrite Ht. split; [|split; [|exact Hpiece]].
    + unfold opens_document. rewrite Ho. reflexivity.
    + rewrite Hm. apply is_complete_closing, Hc.
  - destruct (exec true HTML_TAG_RE s) as [m|] eqn:E2; [|discriminate].
    injection H as <-.
    destruct (doc_pattern_shape (js "<html") 60%N (js "html") s m
                eq_refl eq_refl eq_refl eq_refl E2)
      as (Ht & (tail & Ho) & (pre & c & Hm & Hc) & Hpiece).
    rewrite Ht. split; [|split; [|exact Hpiece]].
    + unfold opens_document. rewrite Ho.
      destruct (lit_match true (js "<!doctype html") m); reflexivity.
    + rewrite Hm. apply is_complete_closing, Hc.
Qed.

Lemma shell_is_document pos b :
  opens_document (shell pos b) = true /\ is_complete (shell pos b) = true.
Proof.
  split; [reflexivity|].
  unfold shell.
  change (js "</body></html>") with (js "</body>" ++ js "</html>").
  rewrite !app_assoc. apply is_complete_closing. reflexivity.
Qed.

End AssemblyMore.

Section AssemblyExtras.
Import Re Extract.

Lemma slide_of_is_document e :
  opens_document (html (slide_of e)) = true /\ is_complete (html (slide_of e)) = true.
Proof.
  destruct e as [pos rawBuf]. unfold slide_of. cbn [html].
  destruct (cutFirstHtmlDoc _) as [doc|] eqn:E.
  - apply cutFirstHtmlDoc_shape in E. tauto.
  - apply shell_is_document.
Qed.

(** X15. Every slide that [finalizeSlides] returns is a document from end to
    end: its html begins with [<!doctype html] or [<html] and ends with
    [</html>] (in either case of letters; white space may follow the
    closing tag), whether it was cut out of a buffer or built around one.
    It is what chunk ingestion itself counts as complete. *)
Theorem assembled_html_is_a_document state :
  Forall (fun sl => opens_document (html sl) = true /\ is_complete (html sl) = true)
         (finalizeSlides state).
Proof.
  unfold finalizeSlides.
  destruct (slide_of <$> entries state) as [|sl rest] eqn:E.
  - destruct (cutFirstHtmlDoc _) as [doc|] eqn:Ec; [|constructor].
    destruct (SSE.nonempty doc); [|constructor].
    repeat constructor; cbn [html]; apply cutFirstHtmlDoc_shape in Ec; tauto.
  - rewrite <- E. apply Forall_fmap, Forall_forall. intros e _. apply slide_of_is_document.
Qed.

Lemma entries_same_tools state state' :
  toolState state' = toolState state -> entries state' = entries state.
Proof. intros H. unfold entries. rewrite H. reflexivity. Qed.

(** X16. Slides of the tool take precedence over the assistant text. As soon
    as one position has a buffer with more than white space in it, the
    result is made of the tool buffers alone - the assistant text plays no
    part - and it has a slide for a position exactly when that position's
    buffer holds more than white space. *)
Theorem tool_slides_take_precedence state pos s :
  toolState state !! pos = Some s ->
  has_text (buf s) = true ->
  (forall state', toolState state' = toolState state ->
                  finalizeSlides state' = finalizeSlides state)
  /\ (forall p, p ∈ position <$> finalizeSlides state
        <-> exists s', toolState state !! p = Some s' /\ has_text (buf s') = true).
Proof.
  intros Hl Ht.
  assert (Hin : (pos, buf s) ∈ entries state) by (apply entries_elem; eauto).
  assert (Hfin : forall st, toolState st = toolState state ->
                            finalizeSlides st = slide_of <$> entries state).
  { intros st Hst. unfold finalizeSlides. rewrite (entries_same_tools _ _ Hst).
    destruct (entries state) as [|e l]; [|reflexivity].
    apply elem_of_nil in Hin. contradiction. }
  split.
  - intros st Hst. rewrite (Hfin st Hst), (Hfin state eq_refl). reflexivity.
  - intros p. rewrite (Hfin state eq_refl), <- list_fmap_compose.
    rewrite list_elem_of_fmap. split.
    + intros ([k b] & -> & Hkb). simpl. apply entries_elem in Hkb.
      destruct Hkb as (s' & Hs' & <- & Ht'). eauto.
    + intros (s' & Hs' & Ht'). exists (p, buf s'). split; [reflexivity|].
      apply entries_elem. eauto.
Qed.

Lemma precedence_witness :
  let state := append_assistant (fst (onToolChunk createExtractionState 2 (js "Hi")))
                 (js "<html>other</html>") in
  let s := {| buf := js "Hi"; lastLen := 2; finalized := false |} in
  toolState state !! 2%Z = Some s
  /\ has_text (buf s) = true
  /\ finalizeSlides state = [{| position := 2; html := shell 2 (js "Hi") |}]
  /\ (forall state', toolState state' = toolState state ->
                     finalizeSlides state' = finalizeSlides state)
  /\ (forall p, p ∈ position <$> finalizeSlides state
        <-> exists s', toolState state !! p = Some s' /\ has_text (buf s') = true).
Proof.
  intros state s.
  assert (H1 : toolState state !! 2%Z = Some s) by (vm_compute; reflexivity).
  assert (H2 : has_text (buf s) = true) by (vm_compute; reflexivity).
  split; [exact H1|]. split; [exact H2|]. split; [vm_compute; reflexivity|].
  exact (tool_slides_take_precedence state 2%Z s H1 H2).
Defined.



End AssemblyExtras.

Section WalkExtras.
Import Re Extract Samples.

(** X18. A tool call is one chunk. The walk of a payload that carries one call
    of a tool whose name (lower-cased) holds [insert] or [add] and [page]
    or [slide], with a position other than 0 and a text that is not
    empty, logs the phase and hands that text to chunk ingestion for that
    position once: state and effects are those of [onToolChunk]. *)
Theorem tool_call_is_one_chunk name pos raw state eff :
  isAdd (toLowerCase name) = true -> pos <> 0%Z -> raw <> [] ->
  walkEvent (tool_call name pos raw) (state, eff)
  = ((fst (onToolChunk state pos raw),
      eff ++ [Log (js "[SSE] phase=?")] ++ snd (onToolChunk state pos raw)), Ok tt).
Proof.
  intros Hadd Hpos Hraw.
  destruct name as [|n0 name]; [vm_compute in Hadd; discriminate|].
  destruct raw as [|r0 raw]; [congruence|].
  unfold walkEvent, tool_call.
  lazy -[onToolChunk isAdd toLowerCase app]. rewrite Hadd.
  destruct pos as [|q|q]; [congruence| |];
    destruct (onToolChunk state _ (r0 :: raw)) as [st' produced];
    rewrite <- app_assoc; reflexivity.
Qed.

Lemma tool_call_witness :
  let name := js "Insert_Page" in
  let raw := js "<p>Hi</p>" in
  isAdd (toLowerCase name) = true /\ 3%Z <> 0%Z /\ raw <> []
  /\ walkEvent (tool_call name 3 raw) (createExtractionState, [])
     = ((fst (onToolChunk createExtractionState 3 raw),
         [] ++ [Log (js "[SSE] phase=?")] ++ snd (onToolChunk createExtractionState 3 raw)),
        Ok tt).
Proof.
  intros name raw.
  assert (H1 : isAdd (toLowerCase name) = true) by (vm_compute; reflexivity).
  assert (H2 : 3%Z <> 0%Z) by discriminate.
  assert (H3 : raw <> []) by discriminate.
  split; [exact H1|]. split; [exact H2|]. split; [exact H3|].
  exact (tool_call_is_one_chunk name 3%Z raw createExtractionState [] H1 H2 H3).
Defined.
End WalkExtras.

(** ** Invariants of the walk *)
Section WalkInvariant.
Import Re Extract.

(** A property of the extraction state that appends to the assistant text
    keep, and that chunks keep when they are addressed to a position other
    than 0. *)
Variable P : StreamExtractionState -> Prop.
Hypothesis P_text : forall st text, P st -> P (append_assistant st text).
Hypothesis P_chunk : forall st pos raw, pos <> 0%Z -> P st -> P (fst (onToolChunk st pos raw)).


Lemma holds_ret {A} (a : A) : holds P (ret a).
Proof. intros w H. exact H. Qed.

Lemma holds_emit e : holds P (emit e).
Proof. intros w H. exact H. Qed.

Lemma holds_append text : holds P (modify (fun st => append_assistant st text)).
Proof using P_text. intros w H. simpl. apply P_text. exact H. Qed.

Lemma holds_tool_chunk pos raw : pos <> 0%Z -> holds P (tool_chunk pos raw).
Proof using P_chunk.
  intros Hpos w H. unfold tool_chunk.
  pose proof (P_chunk _ pos raw Hpos H) as Hr.
  destruct (onToolChunk w.1 pos raw). exact Hr.
Qed.

Lemma holds_bind {A B} (m : W A) (f : A -> W B) :
  holds P m -> (forall a, holds P (f a)) -> holds P (bind m f).
Proof.
  intros Hm Hf w H. unfold bind. specialize (Hm w H).
  destruct (m w) as [w' [a|e]]; simpl in *; [apply Hf|]; exact Hm.
Qed.

(** What follows a pure step is only run on the value that step gave. *)
Lemma holds_bind_lift {A B} (o : outcome A) (f : A -> W B) :
  (forall a, o = Ok a -> holds P (f a)) -> holds P (bind (lift o) f).
Proof.
  intros Hf w H. unfold bind, lift. destruct o as [a|e]; [|exact H].
  apply (Hf a eq_refl). exact H.
Qed.

Lemma holds_when b m : holds P m -> holds P (when b m).
Proof. intros H. destruct b; [exact H|apply holds_ret]. Qed.

Lemma holds_for_of {A} (xs : list A) body :
  (forall x, holds P (body x)) -> holds P (for_of xs body).
Proof.
  intros Hb. induction xs as [|x xs IH]; simpl.
  - apply holds_ret.
  - apply holds_bind; [apply Hb|intros _; exact IH].
Qed.

(** The position of a tool call is never 0: 0 counts as missing, and the
    last resort is 1. *)
Lemma position_of_not_zero o z : position_of o = Ok z -> z <> 0%Z.
Proof.
  unfold position_of, obind.
  destruct (Json.get o (js "position")) as [p|]; [|discriminate].
  destruct (Json.to_number (Json.get_opt_index0 p)) as [n1|]; [|discriminate].
  destruct n1 as [z1|]; simpl.
  - destruct (Z.eqb_spec z1 0) as [->|Hz]; simpl.
    + destruct (Json.get o (js "page_index")) as [q|]; [|discriminate].
      destruct (Json.to_number q) as [[z2|]|]; simpl; try discriminate.
      * destruct (Z.eqb_spec z2 0); simpl; intros [= <-]; [discriminate|assumption].
      * intros [= <-]. discriminate.
    + intros [= <-]. exact Hz.
  - destruct (Json.get o (js "page_index")) as [q|]; [|discriminate].
    destruct (Json.to_number q) as [[z2|]|]; simpl; try discriminate.
    + destruct (Z.eqb_spec z2 0); simpl; intros [= <-]; [discriminate|assumption].
    + intros [= <-]. discriminate.
Qed.

Lemma holds_walk_part part : holds P (walk_part part).
Proof using P_text P_chunk.
  unfold walk_part. apply holds_bind; [|intros _].
  - unfold walk_object_part. apply holds_bind_lift. intros ty _.
    destruct (is_str ty (js "object")); [|apply holds_ret].
    apply holds_bind_lift. intros o _. apply holds_when.
    apply holds_bind_lift. intros tn _.
    apply holds_bind_lift. intros nm _.
    apply holds_bind_lift. intros tool _. apply holds_when.
    apply holds_bind_lift. intros pos Hpos. apply position_of_not_zero in Hpos.
    apply holds_bind_lift. intros raw _.
    destruct raw as [| | | |[|c r]| |]; try apply holds_ret.
    apply holds_tool_chunk. exact Hpos.
  - unfold walk_text_part. apply holds_bind_lift. intros ty _.
    destruct (is_str ty (js "text")); [|apply holds_ret].
    apply holds_bind_lift. intros tx _.
    destruct tx; try apply holds_ret. apply holds_append.
Qed.

Lemma holds_walk_msg msg : holds P (walk_msg msg).
Proof using P_text P_chunk.
  unfold walk_msg.
  apply holds_bind_lift. intros ph _.
  apply holds_bind_lift. intros phase _.
  apply holds_bind; [apply holds_emit|intros _].
  apply holds_bind_lift. intros content _.
  apply holds_for_of, holds_walk_part.
Qed.

Lemma holds_walk_choice choice : holds P (walk_choice choice).
Proof using P_text P_chunk.
  unfold walk_choice.
  apply holds_bind_lift. intros ms _.
  apply holds_bind_lift. intros ms' _.
  apply holds_for_of, holds_walk_msg.
Qed.

Lemma holds_walkEvent obj : holds P (walkEvent obj).
Proof using P_text P_chunk.
  unfold walkEvent.
  apply holds_bind_lift. intros choices _.
  apply holds_bind; [apply holds_for_of, holds_walk_choice|intros _].
  apply holds_bind_lift. intros ot _.
  apply holds_bind_lift. intros d1 _.
  apply holds_bind_lift. intros delta _.
  destruct delta as [| | | |[|c r]| |]; try apply holds_ret.
  apply holds_append.
Qed.

End WalkInvariant.

Section WalkExtras2.
Import Re Extract Samples.


(** X19. No walk files a slide under position 0. The position of a tool call
    is the first of [position[0]], [page_index] and 1 that is a number
    other than 0, so a state without an entry for 0 has none after the
    walk either, however the walk ends. *)
Theorem no_slide_at_position_zero obj state eff :
  toolState state !! 0%Z = None ->
  toolState (fst (fst (walkEvent obj (state, eff)))) !! 0%Z = None.
Proof.
  intros H.
  apply (holds_walkEvent (fun st => toolState st !! 0%Z = None)); [| |exact H].
  - intros st text Hst. exact Hst.
  - intros st pos raw Hpos Hst. rewrite onToolChunk_other by congruence. exact Hst.
Qed.

Lemma no_slide_zero_witness :
  let state := createExtractionState in
  let obj := tool_call (js "insert_page") 0 (js "<p>x</p>") in
  toolState state !! 0%Z = None
  /\ toolState (fst (fst (walkEvent obj (state, [])))) !! 0%Z = None
  /\ buf <$> toolState (fst (fst (walkEvent obj (state, [])))) !! 1%Z = Some (js "<p>x</p>").
Proof.
  intros state obj.
  assert (H : toolState state !! 0%Z = None) by reflexivity.
  split; [exact H|].
  split; [exact (no_slide_at_position_zero obj state [] H)|].
  vm_compute. reflexivity.
Defined.


(** X20. A payload without [choices] cannot fail and touches no slide: the
    walk ends normally, calls neither callback, and changes nothing but
    the assistant text. What it appends there is the delta of the payload:
    the member [delta] of its [output_text] or, where that is missing or
    [null], its own member [delta] - if that value is a string, and
    nothing if it is anything else. *)
Theorem event_without_choices members state eff :
  Json.is_nullish (Json.own (js "choices") members) = true ->
  let inner := match Json.own (js "output_text") members with
               | Obj ms => Json.own (js "delta") ms
               | _ => Undefined
               end in
  let delta := if Json.is_nullish inner then Json.own (js "delta") members else inner in
  walkEvent (Obj members) (state, eff)
  = ((append_assistant state (match delta with Str text => text | _ => [] end), eff),
     Ok tt).
Proof.
  intros Hn inner delta. unfold walkEvent.
  assert (Hsame : (state, eff) = (append_assistant state [], eff)).
  { unfold append_assistant. rewrite app_nil_r. destruct state. reflexivity. }
  unfold bind at 1. unfold lift at 1. cbn [Json.get].
  assert (Ha : Json.asArray (Json.own (js "choices") members) = []).
  { destruct (Json.own (js "choices") members); try discriminate; reflexivity. }
  rewrite Ha. cbn [for_of]. unfold bind at 1. cbn [ret].
  unfold bind, lift, Json.get_opt. cbn [Json.is_nullish Json.get].
  assert (Hot : (if Json.is_nullish (Json.own (js "output_text") members)
                 then Ok Undefined
                 else Json.get (Json.own (js "output_text") members) (js "delta"))
                = Ok inner).
  { unfold inner. destruct (Json.own (js "output_text") members); reflexivity. }
  rewrite Hot. unfold Json.nullish_or, obind. unfold delta.
  destruct (Json.is_nullish inner) eqn:E1.
  - destruct (Json.is_nullish (Json.own (js "delta") members)) eqn:E2.
    + destruct (Json.own (js "delta") members); try discriminate;
        simpl; rewrite <- Hsame; reflexivity.
    + destruct (Json.own (js "delta") members) as [| | | |[|c r]| |]; try discriminate;
        try (simpl; rewrite <- Hsame; reflexivity).
      reflexivity.
  - destruct inner as [| | | |[|c r]| |]; try discriminate;
      try (simpl; rewrite <- Hsame; reflexivity).
    reflexivity.
Qed.

(** A delta inside [output_text] goes before the delta of the payload. *)
Lemma event_without_choices_witness :
  let members := [(js "delta", Str (js "outer"));
                  (js "output_text", Obj [(js "delta", Str (js "Hello"))])] in
  Json.is_nullish (Json.own (js "choices") members) = true
  /\ walkEvent (Obj members) (createExtractionState, [])
     = ((append_assistant createExtractionState (js "Hello"), []), Ok tt).
Proof.
  intros members.
  assert (H : Json.is_nullish (Json.own (js "choices") members) = true)
    by (vm_compute; reflexivity).
  split; [exact H|].
  exact (event_without_choices members createExtractionState [] H).
Defined.

End WalkExtras2.

Section ListenerMore.
Import Net.
Variable JSON_parse : jstr -> option value.
Variable Number : jstr -> option Z.
Variable breaks : bool.

Lemma remember_conv evt st : finalConvId (remember evt st) = finalConvId st.
Proof.
  unfold remember. destruct (SSE.id evt) as [j|]; [|reflexivity].
  destruct (SSE.nonempty j); reflexivity.
Qed.

(** A conversation id, once there, stays. *)
Lemma onEvent_conv_stays evt st :
  Json.truthy (finalConvId st) = true ->
  finalConvId (onEvent JSON_parse breaks evt st) = finalConvId st.
Proof.
  intros Ht. unfold onEvent. destruct (is_repeat evt st); [reflexivity|].
  destruct (jstr_eqb _ _).
  - destruct breaks; simpl; apply remember_conv.
  - destruct (JSON_parse _) as [d|]; [|simpl; apply remember_conv].
    unfold deliver. destruct (Json.get d (js "conversation_id")) as [cid|];
      [|simpl; apply remember_conv].
    rewrite remember_conv, Ht, andb_false_r.
    destruct (Extract.walkEvent d _) as [[ext eff] [?|?]]; reflexivity.
Qed.

Lemma hear_conv_stays evs : forall st,
  Json.truthy (finalConvId st) = true ->
  finalConvId (SSE.hear (onEvent JSON_parse breaks) st evs) = finalConvId st.
Proof.
  induction evs as [|e evs IH]; intros st Ht; simpl; [reflexivity|].
  rewrite IH; rewrite onEvent_conv_stays; auto.
Qed.

Lemma parse_conv_stays chunk flush p st :
  Json.truthy (finalConvId st) = true ->
  finalConvId (snd (parse JSON_parse Number breaks chunk flush p st)) = finalConvId st.
Proof.
  intros Ht. unfold parse. rewrite feed_framed. simpl. apply hear_conv_stays, Ht.
Qed.

Lemma read_loop_conv_stays pending : forall failure p st n,
  Json.truthy (finalConvId st) = true ->
  finalConvId (stream (read_loop JSON_parse Number breaks pending failure p st n))
  = finalConvId st.
Proof.
  induction pending as [|chunk rest IH]; intros failure p st n Ht; simpl.
  - destruct failure; [reflexivity|]. destruct breaks; reflexivity.
  - pose proof (parse_conv_stays chunk false p st Ht) as Hp.
    destruct (parse JSON_parse Number breaks chunk false p st) as [p' st'].
    simpl in Hp. destruct (breaks && shouldBreakLoop st'); [exact Hp|].
    rewrite IH; [exact Hp|]. rewrite Hp. exact Ht.
Qed.

(** Without a failure waiting at its end, the read loop ends normally. *)
Lemma read_loop_not_rejected pending : forall p st n,
  rejected (read_loop JSON_parse Number breaks pending None p st n) = None.
Proof.
  induction pending as [|chunk rest IH]; intros p st n; simpl; [reflexivity|].
  destruct (parse JSON_parse Number breaks chunk false p st) as [p' st'].
  destruct (breaks && shouldBreakLoop st'); [reflexivity|]. apply IH.
Qed.

Lemma consume_conv b conv cid slides :
  conv <> [] ->
  fst (consume JSON_parse Number breaks b conv) = Returns (OnComplete cid slides) ->
  cid = Str conv.
Proof.
  intros Hne. unfold consume.
  set (st0 := logged (start conv) _).
  assert (H0 : Json.truthy (finalConvId st0) = true).
  { simpl. destruct conv; [congruence|reflexivity]. }
  pose proof (read_loop_conv_stays (chunks b) (failure b) SSE.createSSEParser st0 0 H0) as Hr.
  destruct (rejected (read_loop _ _ _ _ _ _ _ _)); [discriminate|].
  assert (H1 : Json.truthy (finalConvId (stream
             (read_loop JSON_parse Number breaks (chunks b) (failure b)
                SSE.createSSEParser st0 0))) = true) by (rewrite Hr; exact H0).
  pose proof (parse_conv_stays [] true
                (parser (read_loop JSON_parse Number breaks (chunks b) (failure b)
                           SSE.createSSEParser st0 0)) _ H1) as Hp.
  destruct (parse _ _ _ _ _ _ _) as [p st]. simpl in Hp. simpl.
  intros [= <- _]. rewrite Hp, Hr. reflexivity.
Qed.






End ListenerMore.

Section TransportExtras.
Import Net.

(** X21. An update stays in its conversation. [updatePage] without a
    conversation id - none at all or the empty string - reports
    [conversationId is required for updatePage] and makes no request;
    with one, whatever the stream says about conversation ids, the id
    handed to [onComplete] is the id the update was called with. *)
Theorem update_stays_in_its_conversation JSON_parse Number breaks network :
  updatePage JSON_parse Number breaks network None
    = Some (OnError (js "conversationId is required for updatePage"))
  /\ updatePage JSON_parse Number breaks network (Some [])
     = Some (OnError (js "conversationId is required for updatePage"))
  /\ forall conv cid slides,
       updatePage JSON_parse Number breaks network (Some conv)
         = Some (OnComplete cid slides) ->
       cid = Str conv.
Proof.
  split; [reflexivity|]. split; [reflexivity|].
  intros conv cid slides H. destruct conv as [|c r]; [discriminate|].
  unfold updatePage, callGlmAgent in H.
  destruct (debugFetch network (js "agents") 3) as [[[response|e] trace]|];
    try discriminate.
  destruct (if ok response then body response else None) as [b|]; [|discriminate].
  destruct (fst (consume JSON_parse Number breaks b (c :: r))) as [cb|e] eqn:E;
    [|discriminate].
  injection H as ->. apply consume_conv in E; [exact E|discriminate].
Qed.


(** X22. The first conversation id wins. While the stream has no conversation
    id, an event that is delivered with a [conversation_id] that counts as
    true sets it - even if the walk of that event throws afterwards - and
    no later event changes it. *)
Theorem first_conversation_id_wins JSON_parse breaks evt d cid st later :
  Json.truthy (finalConvId st) = false ->
  is_repeat evt st = false ->
  jstr_eqb (trim (SSE.data evt)) (js "[DONE]") = false ->
  JSON_parse (SSE.data evt) = Some d ->
  Json.get d (js "conversation_id") = Ok cid ->
  Json.truthy cid = true ->
  finalConvId (SSE.hear (onEvent JSON_parse breaks) st (evt :: later)) = cid.
Proof.
  intros Hnone Hrep Hm Hparse Hget Ht. simpl.
  assert (H1 : finalConvId (onEvent JSON_parse breaks evt st) = cid).
  { unfold onEvent. rewrite Hrep, Hm, Hparse. unfold deliver. rewrite Hget.
    rewrite remember_conv, Hnone, Ht. simpl.
    destruct (Extract.walkEvent d _) as [[ext eff] [?|?]]; reflexivity. }
  rewrite hear_conv_stays; [exact H1|]. rewrite H1. exact Ht.
Qed.

Lemma first_conversation_id_witness :
  let text c := js "{" ++ quoted (js "conversation_id") ++ js ":" ++ quoted c ++ js "}" in
  let evt := {| SSE.event := js "message"; SSE.data := text (js "c-1");
                SSE.id := None; SSE.retry := None |} in
  let later := [{| SSE.event := js "message"; SSE.data := text (js "c-2");
                   SSE.id := None; SSE.retry := None |}] in
  let d := Obj [(js "conversation_id", Str (js "c-1"))] in
  Json.truthy (finalConvId (start [])) = false
  /\ is_repeat evt (start []) = false
  /\ jstr_eqb (trim (SSE.data evt)) (js "[DONE]") = false
  /\ Json.parse (SSE.data evt) = Some d
  /\ Json.get d (js "conversation_id") = Ok (Str (js "c-1"))
  /\ Json.truthy (Str (js "c-1")) = true
  /\ finalConvId (SSE.hear (onEvent Json.parse true) (start []) (evt :: later))
     = Str (js "c-1").
Proof.
  intros text evt later d.
  assert (H1 : Json.truthy (finalConvId (start [])) = false) by reflexivity.
  assert (H2 : is_repeat evt (start []) = false) by reflexivity.
  assert (H3 : jstr_eqb (trim (SSE.data evt)) (js "[DONE]") = false)
    by (vm_compute; reflexivity).
  assert (H4 : Json.parse (SSE.data evt) = Some d) by (vm_compute; reflexivity).
  assert (H5 : Json.get d (js "conversation_id") = Ok (Str (js "c-1")))
    by (vm_compute; reflexivity).
  assert (H6 : Json.truthy (Str (js "c-1")) = true) by reflexivity.
  split; [exact H1|]. split; [exact H2|]. split; [exact H3|]. split; [exact H4|].
  split; [exact H5|]. split; [exact H6|].
  exact (first_conversation_id_wins Json.parse true evt d (Str (js "c-1")) (start []) later
           H1 H2 H3 H4 H5 H6).
Defined.

(** X23. What is in the stream cannot turn a good response into an error.
    When [debugFetch] returns a response with a status from 200 to 299 and
    a body whose reads never fail, [callGlmAgent] ends in [onComplete],
    whatever the chunks hold: text that is no event, events that do not
    parse, payloads on which the walk throws. *)
Theorem well_read_stream_completes JSON_parse Number breaks network conv response trace b :
  debugFetch network (js "agents") 3 = Some (Returns response, trace) ->
  ok response = true ->
  body response = Some b ->
  failure b = None ->
  exists cid slides,
    callGlmAgent JSON_parse Number breaks network conv = Some (OnComplete cid slides).
Proof.
  intros Hf Hok Hb Hfail. unfold callGlmAgent. rewrite Hf, Hok, Hb.
  unfold consume. rewrite Hfail, read_loop_not_rejected.
  destruct (parse _ _ _ _ _ _ _) as [p st]. simpl. eauto.
Qed.

Lemma well_read_witness :
  let b := {| chunks := [js "no event at all" ++ [LF]; Samples.data_block (js "{not json");
                         Samples.data_block (js "{" ++ quoted (js "choices") ++ js ":[null]}")];
              failure := None |} in
  let network := fun _ : nat => Resolves (Samples.fine b) in
  debugFetch network (js "agents") 3 = Some (Returns (Samples.fine b), [Fetch 1])
  /\ ok (Samples.fine b) = true
  /\ body (Samples.fine b) = Some b
  /\ failure b = None
  /\ callGlmAgent Json.parse Json.string_to_number true network [] = Some (OnComplete (Str []) [])
  /\ exists cid slides,
       callGlmAgent Json.parse Json.string_to_number true network []
       = Some (OnComplete cid slides).
Proof.
  intros b network.
  assert (H1 : debugFetch network (js "agents") 3 = Some (Returns (Samples.fine b), [Fetch 1]))
    by reflexivity.
  assert (H2 : ok (Samples.fine b) = true) by reflexivity.
  assert (H3 : body (Samples.fine b) = Some b) by reflexivity.
  assert (H4 : failure b = None) by reflexivity.
  split; [exact H1|]. split; [exact H2|]. split; [exact H3|]. split; [exact H4|].
  split; [vm_compute; reflexivity|].
  exact (well_read_stream_completes Json.parse Json.string_to_number true network []
           (Samples.fine b) [Fetch 1] b H1 H2 H3 H4).
Defined.







End TransportExtras.

Section AppFacts.
Import Net App.

Lemma pad_spec rounds : forall slides,
  pad rounds slides = slides ++ (placeholder <$> seq (length slides) rounds).
Proof.
  induction rounds as [|n IH]; intros slides; simpl.
  - symmetry. apply app_nil_r.
  - rewrite IH, length_app, <- app_assoc. simpl. rewrite Nat.add_1_r. reflexivity.
Qed.

Lemma pad_length rounds slides : length (pad rounds slides) = (length slides + rounds)%nat.
Proof. rewrite pad_spec, length_app, length_fmap, length_seq. reflexivity. Qed.

Lemma pad_lookup_old rounds slides i :
  (i < length slides)%nat -> pad rounds slides !! i = slides !! i.
Proof. intros H. rewrite pad_spec. apply lookup_app_l. exact H. Qed.

Lemma pad_lookup_new rounds slides i :
  (length slides <= i < length slides + rounds)%nat ->
  pad rounds slides !! i = Some (placeholder i).
Proof.
  intros H. rewrite pad_spec, lookup_app_r by lia.
  rewrite list_lookup_fmap, lookup_seq_lt by lia. simpl.
  replace (length slides + (i - length slides))%nat with i by lia. reflexivity.
Qed.

End AppFacts.

Section AppMirror.
Import Net App.


Lemma mirrors_step st ui p raw :
  (p <= MAX_LENGTH)%Z ->
  mirrors st ui ->
  exists ui',
    replay (Extract.partials (Extract.onToolChunk st p raw).2) ui = Some ui'
    /\ mirrors (Extract.onToolChunk st p raw).1 ui'.
Proof.
  intros Hmax [Ha Hb].
  destruct (Extract.finalized (Extract.upsertPos st p).2) eqn:Ef.
  - (* a finalized position: nothing changes *)
    assert (H : Extract.onToolChunk st p raw = (st, Extract.ignoring p)).
    { unfold Extract.upsertPos in Ef.
      destruct (Extract.toolState st !! p) as [s|] eqn:El; [|discriminate].
      apply onToolChunk_finalized with s; assumption. }
    rewrite H. simpl. exists ui. split; [reflexivity|]. split; assumption.
  - destruct (onToolChunk_open_full st p raw Ef) as [Hst Hp].
    rewrite Hp. cbn [replay fst snd].
    set (taken := (Extract.ingest p (Extract.upsertPos st p).2 (Extract.cleanedRaw raw)).1) in *.
    set (s' := {| Extract.buf := Extract.buf taken; Extract.lastLen := Extract.lastLen taken;
                  Extract.finalized := Extract.is_complete (Extract.buf taken) |}) in *.
    assert (Hat : Extract.toolState (Extract.onToolChunk st p raw).1 !! p = Some s').
    { rewrite Hst. apply lookup_insert_eq. }
    assert (Hother : forall q, q <> p ->
              Extract.toolState (Extract.onToolChunk st p raw).1 !! q
              = Extract.toolState st !! q).
    { intros q Hq. apply onToolChunk_other. exact Hq. }
    unfold onPartial. destruct (Z.ltb_spec (p - 1) 0) as [Hneg|Hpos].
    + (* a position below 1 is not on screen *)
      exists ui. split; [reflexivity|]. split.
      * intros i slide Hi. rewrite Hother by lia. apply Ha, Hi.
      * intros pos s Hge Hl. rewrite Hother in Hl by lia. eapply Hb; eassumption.
    + destruct (Z.leb_spec MAX_LENGTH (p - 1)) as [Hfull|_]; [lia|].
      set (i0 := Z.to_nat (p - 1)).
      set (padded := pad (S i0 - length ui) ui).
      assert (Hlen : (i0 < length padded)%nat).
      { unfold padded. rewrite pad_length. lia. }
      assert (Hpad : forall i slide, padded !! i = Some slide ->
                slide = match Extract.toolState st !! (Z.of_nat i + 1)%Z with
                        | Some s => shown (Z.of_nat i + 1) s
                        | None => placeholder i
                        end).
      { intros i slide Hi. destruct (Nat.lt_ge_cases i (length ui)) as [Hlt|Hge].
        - unfold padded in Hi. rewrite pad_lookup_old in Hi by exact Hlt. apply Ha, Hi.
        - assert (Hin : (i < length padded)%nat) by (eapply lookup_lt_Some; exact Hi).
          unfold padded in Hi, Hin. rewrite pad_length in Hin.
          rewrite pad_lookup_new in Hi by lia. injection Hi as <-.
          destruct (Extract.toolState st !! (Z.of_nat i + 1)%Z) as [s|] eqn:El;
            [|reflexivity].
          apply Hb in El; [|lia]. replace (Z.to_nat (Z.of_nat i + 1 - 1)) with i in El by lia.
          lia. }
      destruct (padded !! i0) as [prev|] eqn:Eprev.
      2:{ apply lookup_ge_None in Eprev. lia. }
      assert (Hprev : html prev = [] /\ complete prev = false).
      { apply Hpad in Eprev. replace (Z.of_nat i0 + 1)%Z with p in Eprev by lia.
        pose proof (upsertPos_lookup st p) as Hu. unfold Extract.upsertPos in Hu, Ef.
        destruct (Extract.toolState st !! p) as [s0|] eqn:El; simpl in *.
        - subst prev. simpl. rewrite Ef. auto.
        - subst prev. auto. }
      destruct Hprev as [Hh Hc].
      assert (Hnew : drafted {| pageNumber := p; html := html prev; draft := draft prev;
                                complete := complete prev |}
                       (Extract.buf s') (Extract.finalized s')
                     = shown p s').
      { unfold drafted, shown. simpl. rewrite Hh, Hc.
        destruct (Extract.is_complete (Extract.buf taken)); reflexivity. }
      rewrite Hnew. eexists. split; [reflexivity|]. split.
      * intros i slide Hi. destruct (decide (i = i0)) as [->|Hne].
        -- rewrite list_lookup_insert_eq in Hi by exact Hlen. injection Hi as <-.
           replace (Z.of_nat i0 + 1)%Z with p by lia. rewrite Hat. reflexivity.
        -- rewrite list_lookup_insert_ne in Hi by congruence.
           rewrite Hother by lia. apply Hpad, Hi.
      * intros pos s Hge Hl. rewrite length_insert.
        destruct (decide (pos = p)) as [->|Hne]; [exact Hlen|].
        rewrite Hother in Hl by exact Hne. specialize (Hb _ _ Hge Hl).
        unfold padded. rewrite pad_length. lia.
Qed.

Lemma partials_app a b : Extract.partials (a ++ b) = Extract.partials a ++ Extract.partials b.
Proof. induction a as [|[ | |] a IH]; simpl; rewrite ?IH; reflexivity. Qed.

Lemma replay_app a b ui ui' :
  replay a ui = Some ui' -> replay (a ++ b) ui = replay b ui'.
Proof.
  revert ui. induction a as [|x a IH]; intros ui H; simpl in *.
  - injection H as <-. reflexivity.
  - destruct (onPartial ui x.1.1 x.1.2 x.2) as [ui1|]; [|discriminate]. apply IH, H.
Qed.

Lemma mirrors_run chunks : forall st ui,
  Forall (fun c => (c.1 <= MAX_LENGTH)%Z) chunks ->
  mirrors st ui ->
  exists ui',
    replay (Extract.partials (Extract.ingest_effects chunks st)) ui = Some ui'
    /\ mirrors (Extract.ingest_all chunks st) ui'.
Proof.
  induction chunks as [|[p raw] chunks IH]; intros st ui Hmax H.
  - exists ui. split; [reflexivity|exact H].
  - apply Forall_cons in Hmax. destruct Hmax as [Hp Hmax]. simpl in Hp.
    cbn [Extract.ingest_all Extract.ingest_effects fold_left fst snd].
    change (fold_left _ chunks ?s) with (Extract.ingest_all chunks s).
    destruct (mirrors_step st ui p raw Hp H) as (ui1 & Hr & Hs).
    destruct (Extract.onToolChunk st p raw) as [st' effs]. simpl in *.
    rewrite partials_app, (replay_app _ _ _ _ Hr). apply IH; assumption.
Qed.

(** X26. The drafts on screen mirror the extraction state. Starting from no
    slides, after any run of chunks whose positions are integers of at
    most 2^32 - 1 (what an array can hold), the calls of [onPartial] in
    [handleGenerate] have all given a list, and the last of these lists
    holds, for each position from 1 on that has an entry, a slide with
    that page number whose draft is the entry's buffer, whose [complete]
    is the entry's flag and whose html is the buffer once the entry is
    finalized and empty before; every other slide on screen is an
    untouched placeholder; and entries at positions below 1 are not on
    screen. *)
Theorem screen_mirrors_extraction (chunks : list (Z * jstr)) :
  Forall (fun c => (c.1 <= MAX_LENGTH)%Z) chunks ->
  let state := Extract.ingest_all chunks Extract.createExtractionState in
  exists ui,
    replay (Extract.partials (Extract.ingest_effects chunks Extract.createExtractionState)) []
    = Some ui
    /\ (forall i slide, ui !! i = Some slide ->
          slide = match Extract.toolState state !! (Z.of_nat i + 1)%Z with
                  | Some s => shown (Z.of_nat i + 1) s
                  | None => placeholder i
                  end)
    /\ (forall pos s, (1 <= pos)%Z -> Extract.toolState state !! pos = Some s ->
          ui !! Z.to_nat (pos - 1) = Some (shown pos s)).
Proof.
  intros Hmax state.
  destruct (mirrors_run chunks Extract.createExtractionState [] Hmax) as (ui & Hr & H).
  { split.
    - intros i slide Hi. rewrite lookup_nil in Hi. discriminate.
    - intros pos s _ Hl. unfold Extract.createExtractionState in Hl. simpl in Hl.
      rewrite lookup_empty in Hl. discriminate. }
  exists ui. split; [exact Hr|].
  destruct H as [Ha Hb]. split; [exact Ha|].
  intros pos s Hge Hl. specialize (Hb _ _ Hge Hl).
  destruct (ui !! Z.to_nat (pos - 1)) as [slide|] eqn:E.
  - apply Ha in E. replace (Z.of_nat (Z.to_nat (pos - 1)) + 1)%Z with pos in E by lia.
    fold state in E. rewrite Hl in E. subst slide. reflexivity.
  - apply lookup_ge_None in E. lia.
Qed.

(** Three chunks for two positions, the second position first: an
    unfinished draft for page 2 and a finished slide for page 1. *)
Lemma screen_mirrors_witness :
  let chunks := [(2%Z, js "<p>a"); (1%Z, js "<html>x</html>"); (2%Z, js "<p>ab")] in
  let state := Extract.ingest_all chunks Extract.createExtractionState in
  Forall (fun c => (c.1 <= MAX_LENGTH)%Z) chunks
  /\ replay (Extract.partials (Extract.ingest_effects chunks Extract.createExtractionState)) []
     = Some [ {| pageNumber := 1; html := js "<html>x</html>"; draft := js "<html>x</html>";
                 complete := true |};
              {| pageNumber := 2; html := []; draft := js "<p>ab"; complete := false |} ]
  /\ exists ui,
       replay (Extract.partials (Extract.ingest_effects chunks Extract.createExtractionState)) []
       = Some ui
       /\ (forall i slide, ui !! i = Some slide ->
             slide = match Extract.toolState state !! (Z.of_nat i + 1)%Z with
                     | Some s => shown (Z.of_nat i + 1) s
                     | None => placeholder i
                     end)
       /\ (forall pos s, (1 <= pos)%Z -> Extract.toolState state !! pos = Some s ->
             ui !! Z.to_nat (pos - 1) = Some (shown pos s)).
Proof.
  intros chunks state.
  assert (H : Forall (fun c : Z * jstr => (c.1 <= MAX_LENGTH)%Z) chunks).
  { repeat constructor; simpl; unfold MAX_LENGTH; lia. }
  split; [exact H|]. split; [vm_compute; reflexivity|].
  exact (screen_mirrors_extraction chunks H).
Defined.

End AppMirror.

Section AppUpdate.
Import Net App.

Lemma findIndex_Some n slides i :
  findIndex n slides = Some i ->
  exists s, slides !! i = Some s /\ pageNumber s = n.
Proof.
  revert i. induction slides as [|s slides IH]; intros i H; simpl in H; [discriminate|].
  destruct (Z.eqb_spec (pageNumber s) n) as [Heq|Hne].
  - injection H as <-. exists s. auto.
  - destruct (findIndex n slides) as [j|]; [|discriminate]. injection H as <-.
    apply IH. reflexivity.
Qed.

Lemma findIndex_None n slides :
  findIndex n slides = None -> n ∉ pageNumber <$> slides.
Proof.
  induction slides as [|s slides IH]; intros H; simpl in *; [apply not_elem_of_nil|].
  destruct (Z.eqb_spec (pageNumber s) n) as [Heq|Hne]; [discriminate|].
  destruct (findIndex n slides); [discriminate|].
  rewrite not_elem_of_cons. split; [congruence|auto].
Qed.

Lemma insert_same_number (slides : list GeneratedSlide) i s s' :
  slides !! i = Some s -> pageNumber s' = pageNumber s ->
  pageNumber <$> <[i := s']> slides = pageNumber <$> slides.
Proof.
  intros Hl Hn. rewrite list_fmap_insert, Hn.
  apply list_insert_id. rewrite list_lookup_fmap, Hl. reflexivity.
Qed.


(** One returned slide in [mergeUpdated]. *)
Lemma merge_step acc u :
  let acc' := match findIndex (pageNumber u) acc with
              | Some i => <[i := completed u]> acc
              | None => acc
              end in
  pageNumber <$> acc' = pageNumber <$> acc
  /\ (NoDup (pageNumber <$> acc) ->
      forall i s, acc !! i = Some s ->
        acc' !! i = Some (if (pageNumber u =? pageNumber s)%Z then completed u else s)).
Proof.
  intros acc'. unfold acc'. destruct (findIndex (pageNumber u) acc) as [j|] eqn:Ef.
  - destruct (findIndex_Some _ _ _ Ef) as (sj & Hj & Hnj). split.
    + apply insert_same_number with sj; [exact Hj|]. simpl. congruence.
    + intros Hnd i s Hi. destruct (decide (i = j)) as [->|Hne].
      * rewrite Hj in Hi. injection Hi as <-.
        rewrite list_lookup_insert_eq by (eapply lookup_lt_Some; exact Hj).
        rewrite Hnj, Z.eqb_refl. reflexivity.
      * rewrite list_lookup_insert_ne by congruence. rewrite Hi.
        destruct (Z.eqb_spec (pageNumber u) (pageNumber s)) as [Heq|_]; [|reflexivity].
        exfalso. apply Hne.
        apply (NoDup_lookup _ i j (pageNumber s) Hnd);
          rewrite list_lookup_fmap; [rewrite Hi|rewrite Hj]; simpl; congruence.
  - split; [reflexivity|]. intros _ i s Hi. rewrite Hi.
    destruct (Z.eqb_spec (pageNumber u) (pageNumber s)) as [Heq|_]; [|reflexivity].
    exfalso. apply findIndex_None in Ef. apply Ef. rewrite Heq.
    apply list_elem_of_fmap. exists s. split; [reflexivity|].
    eapply list_elem_of_lookup_2. exact Hi.
Qed.

Lemma mergeUpdated_numbers updated : forall current,
  pageNumber <$> mergeUpdated current updated = pageNumber <$> current.
Proof.
  induction updated as [|u updated IH]; intros current; [reflexivity|].
  unfold mergeUpdated. simpl. fold (mergeUpdated
    (match findIndex (pageNumber u) current with
     | Some i => <[i := completed u]> current
     | None => current
     end) updated).
  rewrite IH. apply (merge_step current u).
Qed.

(** What [onPartial] of [handleUpdateSlide] leaves at each index. *)
Lemma onPartialUpdate_lookup slides pos text done i :
  onPartialUpdate slides pos text done !! i
  = if bool_decide (Z.of_nat i = (pos - 1)%Z)
    then (fun prev => drafted prev text done) <$> slides !! i
    else slides !! i.
Proof.
  unfold onPartialUpdate.
  destruct (Z.leb_spec (Z.of_nat (length slides)) (pos - 1)) as [Hout|Hin].
  - case_bool_decide as E; [|reflexivity].
    rewrite (proj2 (lookup_ge_None slides i)) by lia. reflexivity.
  - destruct (Z.ltb_spec (pos - 1) 0) as [Hneg|Hpos].
    + case_bool_decide as E; [lia|reflexivity].
    + destruct (slides !! Z.to_nat (pos - 1)) as [prev|] eqn:Eprev.
      2:{ apply lookup_ge_None in Eprev. lia. }
      case_bool_decide as E.
      * replace (Z.to_nat (pos - 1)) with i in * by lia.
        rewrite list_lookup_insert_eq by (eapply lookup_lt_Some; exact Eprev).
        rewrite Eprev. reflexivity.
      * apply list_lookup_insert_ne. lia.
Qed.

(** Slides handed over for page numbers that are not on screen. *)
Lemma mergeUpdated_absent current updated :
  Forall (fun u => pageNumber u ∉ pageNumber <$> current) updated ->
  mergeUpdated current updated = current.
Proof.
  induction updated as [|u updated IH]; intros H; [reflexivity|].
  apply Forall_cons in H. destruct H as [Hu H].
  unfold mergeUpdated. cbn [fold_left].
  destruct (findIndex (pageNumber u) current) as [j|] eqn:Ef.
  - exfalso. apply Hu. destruct (findIndex_Some _ _ _ Ef) as (sj & Hj & <-).
    apply list_elem_of_fmap. exists sj. split; [reflexivity|].
    eapply list_elem_of_lookup_2. exact Hj.
  - apply IH, H.
Qed.

(** X27. An update never adds, drops or renumbers a slide: neither the drafts
    that come in while the update streams nor the slides it hands over at
    the end change how many slides there are or which page numbers they
    carry, and in which order. A draft for position [pos] goes to the
    slide at index [pos - 1] and to no other, whatever page number that
    slide carries; with no slide at that index nothing changes. Slides
    handed over at the end for page numbers that are not on screen are
    dropped. *)
Theorem update_keeps_the_deck (slides : list GeneratedSlide) :
  (forall pos text done,
     pageNumber <$> onPartialUpdate slides pos text done = pageNumber <$> slides)
  /\ (forall updated, pageNumber <$> mergeUpdated slides updated = pageNumber <$> slides)
  /\ (forall pos text done i,
        onPartialUpdate slides pos text done !! i
        = if bool_decide (Z.of_nat i = (pos - 1)%Z)
          then (fun prev => drafted prev text done) <$> slides !! i
          else slides !! i)
  /\ (forall updated,
        Forall (fun u => pageNumber u ∉ pageNumber <$> slides) updated ->
        mergeUpdated slides updated = slides).
Proof.
  split; [|split; [intros updated; apply mergeUpdated_numbers|]].
  - intros pos text done. unfold onPartialUpdate.
    destruct (Z.of_nat (length slides) <=? pos - 1)%Z; [reflexivity|].
    destruct (pos - 1 <? 0)%Z; [reflexivity|].
    destruct (slides !! Z.to_nat (pos - 1)) as [prev|] eqn:E; [|reflexivity].
    apply insert_same_number with prev; [exact E|reflexivity].
  - split.
    + intros pos text done i. apply onPartialUpdate_lookup.
    + intros updated. apply mergeUpdated_absent.
Qed.



End AppUpdate.

(** ** Masking *)
Section MaskFacts.
Import Re Debug.

(** A greedy star over a run of units of its class, with something behind
    the run that is not of the class, ends where what follows first takes
    it: at the end of the run if it succeeds there. *)
Lemma star_run ci items (c rest : jstr) i k e :
  forallb (in_class ci items) c = true ->
  match rest with [] => True | x :: _ => in_class ci items x = false end ->
  k (i + length c)%nat rest = Some e ->
  star ci items i (c ++ rest) k = Some e.
Proof.
  revert i. induction c as [|x c IH]; intros i Hc Hr Hk; simpl in *.
  - rewrite Nat.add_0_r in Hk. destruct rest as [|y rest]; simpl; [exact Hk|].
    rewrite Hr. exact Hk.
  - apply andb_true_iff in Hc. destruct Hc as [Hx Hc]. rewrite Hx.
    rewrite (IH (S i)); [reflexivity|exact Hc|exact Hr|].
    replace (S i + length c)%nat with (i + S (length c))%nat by lia. exact Hk.
Qed.

Lemma search_group_sound ci head tail : forall s i b j e,
  search_group ci head tail i s = Some (b, j, e) ->
  exists pre s', s = pre ++ s' /\ match_group ci head tail b s' = Some (j, e).
Proof.
  induction s as [|x s IH]; intros i b j e H; simpl in H.
  - destruct (match_group ci head tail i []) as [[j' e']|] eqn:E; [|discriminate].
    injection H as <- <- <-. exists [], []. auto.
  - destruct (match_group ci head tail i (x :: s)) as [[j' e']|] eqn:E.
    + injection H as <- <- <-. exists [], (x :: s). auto.
    + destruct (IH _ _ _ _ H) as (pre & s' & -> & Hm). exists (x :: pre), s'. auto.
Qed.

Lemma search_group_here ci head tail i s j e :
  match_group ci head tail i s = Some (j, e) ->
  search_group ci head tail i s = Some (i, j, e).
Proof. intros H. destruct s; simpl; rewrite H; reflexivity. Qed.

(** A match of the pattern begins with a match of its group. *)
Lemma match_group_head ci head tail i s j e :
  match_group ci head tail i s = Some (j, e) ->
  exists c rest, s = c ++ rest /\ matched ci head i c rest.
Proof.
  unfold match_group. intros H.
  destruct (rmatch ci head i s _) as [j'|] eqn:E; [|discriminate].
  apply rmatch_sound in E. destruct E as (c & rest & Hs & Hm & _). eauto.
Qed.

(** Where the group cannot match for want of a unit of the kind it needs,
    the text is left as it is. *)
Lemma mask_without ci head tail suffix (Q : N -> Prop) s :
  (forall i c rest, matched ci head i c rest -> Exists Q c) ->
  Forall (fun x => ~ Q x) s ->
  forall fuel i, mask_from ci head tail suffix fuel i s = s.
Proof.
  intros Hneeds Hx fuel i. destruct fuel as [|f]; [reflexivity|]. simpl.
  destruct (search_group ci head tail i s) as [[[b j] e]|] eqn:E; [|reflexivity].
  exfalso. apply search_group_sound in E. destruct E as (pre & s' & -> & Hm).
  apply match_group_head in Hm. destruct Hm as (c & rest & -> & Hc).
  apply Hneeds in Hc. apply Exists_exists in Hc. destruct Hc as (x & Hin & HQ).
  rewrite Forall_forall in Hx. apply (Hx x); [|exact HQ].
  rewrite !elem_of_app. auto.
Qed.

(** One match at the start of the text, and none behind it: the text of
    the group stays, the bullets and the suffix take the place of the
    rest of the match. *)
Lemma mask_one ci head tail suffix (P V R : jstr) :
  match_group ci head tail 0 (P ++ V ++ R) = Some (length P, length P + length V)%nat ->
  V <> [] ->
  (forall fuel i, mask_from ci head tail suffix fuel i R = R) ->
  mask ci head tail suffix (P ++ V ++ R) = P ++ BULLETS ++ suffix ++ R.
Proof.
  intros Hm HV HR. unfold mask.
  generalize (length (P ++ V ++ R)). intros f. cbn [mask_from].
  rewrite (search_group_here _ _ _ _ _ _ _ Hm).
  assert (Hne : (length P + length V =? 0)%nat = false).
  { apply Nat.eqb_neq. destruct V; [congruence|simpl; lia]. }
  rewrite Hne, !Nat.sub_0_r. unfold slice. rewrite Nat.sub_0_r.
  rewrite take_0, drop_0, take_app_length, app_nil_l.
  rewrite <- drop_drop, !drop_app_length, HR. reflexivity.
Qed.

Lemma lit_match_last ci p a c :
  between 65 90 a = false -> between 97 122 a = false ->
  lit_match ci (p ++ [a]) c = Some [] -> ci = true -> a ∈ c.
Proof.
  intros Hu Hl H ->. apply lit_match_Forall2 in H.
  apply Forall2_app_inv_l in H. destruct H as (c1 & c2 & _ & H2 & ->).
  inversion H2 as [|? y ? ? Hy Hnil]; subst. inversion Hnil; subst.
  apply chr_eq_no_letter in Hy; [|assumption..]. subst y.
  rewrite elem_of_app. right. left.
Qed.

(** The group of the first pattern holds a colon, that of the second a
    double quote. *)
Lemma BEARER_HEAD_colon i c rest :
  matched true BEARER_HEAD i c rest -> Exists (fun x => x = 58%N) c.
Proof.
  cbn [matched BEARER_HEAD]. intros (c1 & c2 & -> & H1 & _).
  apply Exists_exists. exists 58%N. split; [|reflexivity].
  rewrite elem_of_app. left.
  apply (lit_match_last true (js "Authorization") 58%N c1); auto.
Qed.

Lemma BEARER_HEAD_space i c rest :
  matched true BEARER_HEAD i c rest -> Exists (fun x => is_space x = true) c.
Proof.
  cbn [matched BEARER_HEAD].
  intros (c1 & c2 & -> & _ & (c3 & c4 & -> & _ & (c5 & c6 & -> & _
          & (c7 & c8 & -> & (x & -> & Hx) & _)))).
  apply Exists_exists. exists x. split.
  - rewrite !elem_of_app. do 3 right. left. left.
  - rewrite in_class_space in Hx. exact Hx.
Qed.

Lemma KEY_HEAD_quote i c rest :
  matched true KEY_HEAD i c rest -> Exists (fun x => x = DQUOTE) c.
Proof.
  intros H. apply Exists_exists. exists DQUOTE. split; [|reflexivity]. revert H.
  cbn [matched KEY_HEAD].
  intros (c1 & c2 & -> & _ & (c3 & c4 & -> & _ & (c5 & c6 & -> & _
          & (c7 & c8 & -> & _ & (c9 & c10 & -> & _ & (c11 & c12 & -> & _ & H)))))).
  rewrite !elem_of_app. do 6 right.
  apply (lit_match_last true [] DQUOTE c12); auto.
Qed.

End MaskFacts.

Section MaskBearer.
Import Re Debug.

Ltac to_props :=
  repeat match goal with
         | H : _ && _ = true |- _ => apply andb_true_iff in H; destruct H
         | H : _ || _ = true |- _ => apply orb_true_iff in H; destruct H
         | H : _ && _ = false |- _ => apply andb_false_iff in H; destruct H
         | H : _ || _ = false |- _ => apply orb_false_iff in H; destruct H
         | H : (_ <=? _)%N = true |- _ => apply N.leb_le in H
         | H : (_ <=? _)%N = false |- _ => apply N.leb_gt in H
         | H : (_ =? _)%N = true |- _ => apply N.eqb_eq in H
         | H : (_ =? _)%N = false |- _ => apply N.eqb_neq in H
         | H : false = true |- _ => discriminate H
         | H : true = false |- _ => discriminate H
         end.

(** The units of a token are ASCII units from the hyphen to [z]. *)
Lemma TOKEN_UNIT_range c : in_class true TOKEN_UNIT c = true -> (45 <= c <= 122)%N.
Proof.
  unfold in_class, TOKEN_UNIT. cbn [existsb in_item]. unfold chr_eq.
  change (ascii_upper 46) with 46%N. change (ascii_upper 45) with 45%N.
  change (ascii_upper 95) with 95%N.
  unfold ascii_upper, ascii_lower, between. cbn [andb]. intros H.
  destruct ((97 <=? c)%N && (c <=? 122)%N) eqn:E1;
    destruct ((65 <=? c)%N && (c <=? 90)%N) eqn:E2; to_props; lia.
Qed.

Lemma is_space_range c : is_space c = true -> (c <= 32 \/ 160 <= c)%N.
Proof. unfold is_space, between. intros H. to_props; lia. Qed.

Lemma TOKEN_UNIT_no_space c : in_class true TOKEN_UNIT c = true -> is_space c = false.
Proof.
  intros H. apply TOKEN_UNIT_range in H.
  destruct (is_space c) eqn:E; [|reflexivity]. apply is_space_range in E. lia.
Qed.

(** The group of the first pattern on the usual spelling of the header,
    when what follows is no white space. *)
Lemma BEARER_HEAD_eval x s' (k : cont) :
  is_space x = false ->
  rmatch true BEARER_HEAD 0 (js "Authorization: Bearer " ++ x :: s') k = k 22%nat (x :: s').
Proof.
  intros Hx. lazy -[is_space]. rewrite Hx. vm_compute.
  destruct (k 22%nat (x :: s')); reflexivity.
Qed.

Lemma BEARER_TOKEN_eval (tok rest : jstr) i :
  tok <> [] ->
  forallb (in_class true TOKEN_UNIT) tok = true ->
  match rest with [] => True | c :: _ => in_class true TOKEN_UNIT c = false end ->
  match_at true BEARER_TOKEN i (tok ++ rest) = Some (i + length tok)%nat.
Proof.
  intros Hne Htok Hrest. destruct tok as [|t0 tok]; [congruence|].
  cbn [forallb] in Htok. apply andb_true_iff in Htok. destruct Htok as [H0 Htok].
  unfold match_at, BEARER_TOKEN. cbn [rmatch app]. rewrite H0.
  apply star_run; [exact Htok|exact Hrest|]. f_equal. simpl. lia.
Qed.

(** The first pattern on the header: the token, and nothing else, gives
    way to the bullets. *)
Lemma match_group_bearer (tok rest : jstr) :
  tok <> [] ->
  forallb (in_class true TOKEN_UNIT) tok = true ->
  match rest with [] => True | c :: _ => in_class true TOKEN_UNIT c = false end ->
  match_group true BEARER_HEAD BEARER_TOKEN 0 (js "Authorization: Bearer " ++ tok ++ rest)
  = Some (22, 22 + length tok)%nat.
Proof.
  intros Hne Htok Hrest. destruct tok as [|t0 tok']; [congruence|].
  assert (Hsp : is_space t0 = false).
  { apply TOKEN_UNIT_no_space. pose proof Htok as Ht. cbn [forallb] in Ht.
    apply andb_true_iff in Ht. tauto. }
  unfold match_group.
  rewrite (BEARER_HEAD_eval t0 (tok' ++ rest)) by exact Hsp.
  change (t0 :: tok' ++ rest) with ((t0 :: tok') ++ rest).
  rewrite (BEARER_TOKEN_eval (t0 :: tok') rest 22 Hne Htok Hrest).
  rewrite Nat.sub_0_r.
  rewrite (drop_app_length' (js "Authorization: Bearer ")) by reflexivity.
  rewrite (BEARER_TOKEN_eval (t0 :: tok') rest 22 Hne Htok Hrest). reflexivity.
Qed.

(** The first pattern on the header: the token, and nothing else, gives
    way to the bullets. *)
Lemma mask_bearer (tok rest : jstr) :
  tok <> [] ->
  forallb (in_class true TOKEN_UNIT) tok = true ->
  match rest with [] => True | c :: _ => in_class true TOKEN_UNIT c = false end ->
  58%N ∉ rest ->
  mask true BEARER_HEAD BEARER_TOKEN [] (js "Authorization: Bearer " ++ tok ++ rest)
  = js "Authorization: Bearer " ++ BULLETS ++ rest.
Proof.
  intros Hne Htok Hrest Hcolon.
  apply (mask_one true BEARER_HEAD BEARER_TOKEN [] (js "Authorization: Bearer ") tok rest).
  - apply match_group_bearer; assumption.
  - exact Hne.
  - apply (mask_without true BEARER_HEAD BEARER_TOKEN [] (fun x => x = 58%N) rest
             BEARER_HEAD_colon).
    apply Forall_forall. intros x Hin ->. exact (Hcolon Hin).
Qed.


Lemma no_quote_in (s : jstr) :
  forallb (fun x => negb (x =? DQUOTE)%N) s = true -> Forall (fun x => ~ x = DQUOTE) s.
Proof.
  intros H. apply Forall_forall. intros x Hin ->.
  rewrite forallb_forall in H. specialize (H DQUOTE).
  rewrite <- list_elem_of_In in H. specialize (H Hin). discriminate.
Qed.

End MaskBearer.

Section MaskKey.
Import Re Debug.

Lemma upper_lower c : ascii_upper (ascii_lower c) = ascii_upper c.
Proof.
  unfold ascii_upper, ascii_lower, between.
  destruct ((65 <=? c)%N && (c <=? 90)%N) eqn:E1.
  - apply andb_true_iff in E1. destruct E1 as [A B]. apply N.leb_le in A, B.
    replace ((97 <=? c + 32)%N && (c + 32 <=? 122)%N) with true
      by (symmetry; apply andb_true_iff; split; apply N.leb_le; lia).
    replace ((97 <=? c)%N && (c <=? 122)%N) with false
      by (symmetry; apply andb_false_iff; left; apply N.leb_gt; lia).
    lia.
  - reflexivity.
Qed.

(** Under the flag [i] a unit is compared as its lower-case form is. *)
Lemma chr_eq_of_lower a c p : ascii_lower c = p -> chr_eq true a c = chr_eq true a p.
Proof. intros <-. unfold chr_eq. rewrite upper_lower. reflexivity. Qed.

Lemma lower_not_space c p : ascii_lower c = p -> is_space p = false -> is_space c = false.
Proof.
  intros Hl Hp. destruct (is_space c) eqn:E; [|reflexivity].
  assert (ascii_lower c = c).
  { apply is_space_range in E. unfold ascii_lower, between.
    replace ((65 <=? c)%N && (c <=? 90)%N) with false; [reflexivity|].
    symmetry. apply andb_false_iff. destruct E; [left|right]; apply N.leb_gt; lia. }
  congruence.
Qed.

(** A key by its units, each known by its lower-case form. *)
Ltac spell key H :=
  repeat (destruct key as [|? key]; [discriminate H|];
          cbn [toLowerCase map] in H;
          let E := fresh "E" in injection H as E H);
  destruct key; [clear H|discriminate H].

Ltac lower_facts :=
  repeat match goal with
         | E : ascii_lower ?c = _ |- context [chr_eq true ?a ?c] =>
             rewrite (chr_eq_of_lower a c _ E)
         end.

Ltac known_key key Hk :=
  unfold KEY_NAMES in Hk;
  repeat (apply elem_of_cons in Hk; destruct Hk as [Hk|Hk]);
    [..|apply elem_of_nil in Hk; contradiction];
  (remember (toLowerCase key) as L eqn:EL; vm_compute in Hk; subst L;
   unfold toLowerCase in Hk; spell key Hk).

Ltac decide_units :=
  repeat match goal with
         | |- context [chr_eq true ?a ?b] =>
             let v := eval vm_compute in (chr_eq true a b) in
             match v with
             | true => change (chr_eq true a b) with true
             | false => change (chr_eq true a b) with false
             end
         end.

Ltac run_key := repeat (progress (cbn -[chr_eq]; lower_facts; decide_units)).

Ltac finish_key :=
  cbn [length];
  match goal with
  | |- _ = ?K ?m ?R =>
      try match goal with
          | |- context [K ?n R] =>
              lazymatch n with m => fail | _ => replace n with m by lia end
          end;
      destruct (K m R); reflexivity
  end.

(** The name of the key, whatever the case of its letters, and then what
    remains to be matched. *)
Lemma KEY_NAME_eval key R (K : cont) i :
  toLowerCase key ∈ KEY_NAMES ->
  rmatch true KEY_NAME i (key ++ R) K = K (i + length key)%nat R.
Proof.
  intros Hk. known_key key Hk; run_key; finish_key.
Qed.

Lemma KEY_NAMES_no_space key :
  toLowerCase key ∈ KEY_NAMES -> Forall (fun x => ~ is_space x = true) key.
Proof.
  intros Hk. known_key key Hk;
    repeat constructor;
    match goal with
    | E : ascii_lower ?c = ?p |- ~ is_space ?c = true =>
        rewrite (lower_not_space c p E eq_refl); discriminate
    end.
Qed.

(** What follows the name in the first group, as [JSON.stringify] writes
    it: the closing quote of the key, the colon, the opening quote of the
    value. *)
Lemma KEY_HEAD_rest i X (k : cont) :
  rmatch true
    (Seq (Opt (Lit [DQUOTE]))
       (Seq (Star [Space]) (Seq (Lit (js ":")) (Seq (Star [Space]) (Lit [DQUOTE])))))
    i (DQUOTE :: 58%N :: DQUOTE :: X) k
  = k (i + 3)%nat X.
Proof. run_key. finish_key. Qed.

Lemma KEY_HEAD_eval key X (k : cont) :
  toLowerCase key ∈ KEY_NAMES ->
  rmatch true KEY_HEAD 0 (quoted key ++ js ":" ++ DQUOTE :: X) k
  = k (length key + 4)%nat X.
Proof.
  intros Hk. unfold KEY_HEAD, quoted.
  replace ((DQUOTE :: key ++ [DQUOTE]) ++ js ":" ++ DQUOTE :: X)
    with (DQUOTE :: key ++ DQUOTE :: 58%N :: DQUOTE :: X)
    by (simpl; rewrite <- app_assoc; reflexivity).
  set (REST := Seq (Opt (Lit [DQUOTE])) (Seq (Star [Space]) _)).
  cbn [rmatch]. change (lit_match true [DQUOTE] (DQUOTE :: ?s)) with (Some s).
  cbn [length Nat.add].
  rewrite (KEY_NAME_eval key _ _ 1 Hk). cbv beta. subst REST. rewrite KEY_HEAD_rest.
  replace (1 + length key + 3)%nat with (length key + 4)%nat by lia.
  destruct (k (length key + 4)%nat X) as [e|]; [reflexivity|].
  (* without the opening quote the name does not match *)
  unfold KEY_NAME. run_key. reflexivity.
Qed.

(** Every code unit but the double quote is of the class of the value. *)
Lemma NOT_QUOTE_unit c :
  c <> DQUOTE -> (c < 65536)%N -> in_class true NOT_QUOTE c = true.
Proof.
  intros Hq Hc. unfold in_class, NOT_QUOTE. cbn [existsb in_item]. unfold between.
  unfold DQUOTE in Hq.
  destruct (N.le_gt_cases c 33) as [Hle|Hgt].
  - replace (0 <=? c)%N with true by (symmetry; apply N.leb_le; lia).
    replace (c <=? 33)%N with true by (symmetry; apply N.leb_le; lia). reflexivity.
  - replace (35 <=? c)%N with true by (symmetry; apply N.leb_le; lia).
    replace (c <=? 65535)%N with true by (symmetry; apply N.leb_le; lia).
    cbn [andb orb]. rewrite orb_true_r. reflexivity.
Qed.

Lemma KEY_VALUE_eval (secret : jstr) i :
  secret <> [] ->
  Forall (fun c => c <> DQUOTE /\ (c < 65536)%N) secret ->
  match_at true KEY_VALUE i (secret ++ [DQUOTE]) = Some (i + length secret + 1)%nat.
Proof.
  intros Hne Hall. destruct secret as [|c0 secret]; [congruence|].
  apply Forall_cons in Hall. destruct Hall as [[Hq Hc] Hall].
  unfold match_at, KEY_VALUE. cbn [rmatch app].
  rewrite (NOT_QUOTE_unit c0 Hq Hc).
  apply star_run.
  - apply forallb_forall. intros x Hx. rewrite Forall_forall in Hall.
    apply list_elem_of_In in Hx. destruct (Hall x Hx). apply NOT_QUOTE_unit; assumption.
  - reflexivity.
  - cbn [rmatch lit_match]. change (chr_eq true DQUOTE DQUOTE) with true. cbn [length].
    f_equal. lia.
Qed.

(** The second pattern on a key and its value: the value gives way to the
    bullets. *)
Lemma match_group_key (key secret : jstr) :
  toLowerCase key ∈ KEY_NAMES ->
  secret <> [] ->
  Forall (fun c => c <> DQUOTE /\ (c < 65536)%N) secret ->
  match_group true KEY_HEAD KEY_VALUE 0
    ((quoted key ++ js ":" ++ [DQUOTE]) ++ (secret ++ [DQUOTE]) ++ [])
  = Some (length (quoted key ++ js ":" ++ [DQUOTE]),
          length (quoted key ++ js ":" ++ [DQUOTE]) + length (secret ++ [DQUOTE]))%nat.
Proof.
  intros Hk Hne Hall.
  assert (HP : length (quoted key ++ js ":" ++ [DQUOTE]) = (length key + 4)%nat).
  { unfold quoted. simpl. rewrite !length_app. simpl. lia. }
  assert (Hs : (quoted key ++ js ":" ++ [DQUOTE]) ++ (secret ++ [DQUOTE]) ++ []
               = quoted key ++ js ":" ++ DQUOTE :: (secret ++ [DQUOTE])).
  { rewrite app_nil_r, <- !app_assoc. reflexivity. }
  unfold match_group. rewrite Hs at 1.
  rewrite (KEY_HEAD_eval key (secret ++ [DQUOTE]) _ Hk).
  rewrite (KEY_VALUE_eval secret _ Hne Hall).
  rewrite Nat.sub_0_r, <- HP, drop_app_length, app_nil_r.
  rewrite (KEY_VALUE_eval secret _ Hne Hall).
  rewrite (length_app secret). cbn [length]. do 2 f_equal. lia.
Qed.

(** The second pattern on a key and its value: the value gives way to the
    bullets. *)
Lemma mask_key (key secret : jstr) :
  toLowerCase key ∈ KEY_NAMES ->
  secret <> [] ->
  Forall (fun c => c <> DQUOTE /\ (c < 65536)%N) secret ->
  mask true KEY_HEAD KEY_VALUE [DQUOTE] (quoted key ++ js ":" ++ quoted secret)
  = quoted key ++ js ":" ++ quoted BULLETS.
Proof.
  intros Hk Hne Hall.
  assert (Hin : quoted key ++ js ":" ++ quoted secret
                = (quoted key ++ js ":" ++ [DQUOTE]) ++ (secret ++ [DQUOTE]) ++ []).
  { unfold quoted. rewrite app_nil_r, <- !app_assoc. reflexivity. }
  assert (Hout : quoted key ++ js ":" ++ quoted BULLETS
                 = (quoted key ++ js ":" ++ [DQUOTE]) ++ BULLETS ++ [DQUOTE] ++ []).
  { unfold quoted. rewrite <- !app_assoc. reflexivity. }
  rewrite Hin, Hout. apply mask_one.
  - apply match_group_key; assumption.
  - destruct secret; discriminate.
  - intros fuel i. apply (mask_without true KEY_HEAD KEY_VALUE [DQUOTE] (fun x => x = DQUOTE) []
                            KEY_HEAD_quote (Forall_nil_2 _)).
Qed.

End MaskKey.

Section MaskExtras.
Import Re Debug.

(** X29. A bearer token does not reach the log. In a text that reads
    [Authorization: Bearer], then a token - a run of letters, digits,
    dots, hyphens and underscores - and then a rest that begins with no
    such unit and holds neither a colon nor a double quote, [maskSecrets]
    puts three bullets in the place of the token and leaves the rest as it
    is. So a token is hidden as far as its units are of that kind, and no
    further. *)
Theorem bearer_token_is_masked (tok rest : jstr) :
  tok <> [] ->
  forallb (in_class true TOKEN_UNIT) tok = true ->
  match rest with [] => True | c :: _ => in_class true TOKEN_UNIT c = false end ->
  58%N ∉ rest ->
  DQUOTE ∉ rest ->
  maskSecrets (js "Authorization: Bearer " ++ tok ++ rest)
  = js "Authorization: Bearer " ++ BULLETS ++ rest.
Proof.
  intros Hne Htok Hrest Hcolon Hquote. unfold maskSecrets.
  rewrite (mask_bearer tok rest Hne Htok Hrest Hcolon).
  apply (mask_without true KEY_HEAD KEY_VALUE [DQUOTE] (fun x => x = DQUOTE));
    [apply KEY_HEAD_quote|].
  apply Forall_app. split; [apply no_quote_in; reflexivity|].
  apply Forall_app. split; [apply no_quote_in; reflexivity|].
  apply Forall_forall. intros x Hin ->. exact (Hquote Hin).
Qed.

Lemma bearer_witness :
  let tok := js "678f5fbf.BTae6Sf2-x_y" in
  let rest := js "+abc" ++ [LF] ++ js "Accept" in
  tok <> []
  /\ forallb (in_class true TOKEN_UNIT) tok = true
  /\ match rest with [] => True | c :: _ => in_class true TOKEN_UNIT c = false end
  /\ (58%N ∉ rest) /\ (DQUOTE ∉ rest)
  /\ maskSecrets (js "Authorization: Bearer " ++ tok ++ rest)
     = js "Authorization: Bearer " ++ BULLETS ++ rest.
Proof.
  intros tok rest.
  assert (H1 : tok <> []) by discriminate.
  assert (H2 : forallb (in_class true TOKEN_UNIT) tok = true) by (vm_compute; reflexivity).
  assert (H3 : match rest with [] => True | c :: _ => in_class true TOKEN_UNIT c = false end)
    by (vm_compute; reflexivity).
  assert (H4 : 58%N ∉ rest) by (apply (bool_decide_unpack _); vm_compute; exact I).
  assert (H5 : DQUOTE ∉ rest) by (apply (bool_decide_unpack _); vm_compute; exact I).
  split; [exact H1|]. split; [exact H2|]. split; [exact H3|]. split; [exact H4|].
  split; [exact H5|].
  exact (bearer_token_is_masked tok rest H1 H2 H3 H4 H5).
Defined.


(** X30. The value of a secret in JSON does not reach the log. For a key
    that reads, in whatever case of letters, [token], [api_key],
    [download_token] or [access_token] (in the second and the last the
    underscore may be a hyphen or missing), the text of the key and a
    value as [JSON.stringify] writes them - key in quotes, colon, value in
    quotes - comes out of [maskSecrets] with three bullets in the place of
    the value, whatever the value is, as long as it is not empty and holds
    no white space and no double quote. *)
Theorem json_secret_is_masked (key secret : jstr) :
  toLowerCase key ∈ KEY_NAMES ->
  secret <> [] ->
  Forall (fun c => c <> DQUOTE /\ is_space c = false /\ (c < 65536)%N) secret ->
  maskSecrets (quoted key ++ js ":" ++ quoted secret)
  = quoted key ++ js ":" ++ quoted BULLETS.
Proof.
  intros Hk Hne Hall. unfold maskSecrets.
  assert (H1 : mask true BEARER_HEAD BEARER_TOKEN [] (quoted key ++ js ":" ++ quoted secret)
               = quoted key ++ js ":" ++ quoted secret).
  { apply (mask_without true BEARER_HEAD BEARER_TOKEN [] (fun x => is_space x = true));
      [apply BEARER_HEAD_space|].
    assert (Hq : ~ is_space DQUOTE = true) by (vm_compute; discriminate).
    unfold quoted. apply Forall_app. split; [|apply Forall_app; split].
    - apply Forall_cons. split; [exact Hq|]. apply Forall_app. split.
      + apply KEY_NAMES_no_space, Hk.
      + repeat constructor. exact Hq.
    - repeat constructor. vm_compute. discriminate.
    - apply Forall_cons. split; [exact Hq|]. apply Forall_app. split.
      + eapply Forall_impl; [exact Hall|]. intros x (_ & Hx & _). congruence.
      + repeat constructor. exact Hq. }
  rewrite H1. apply mask_key; [exact Hk|exact Hne|].
  eapply Forall_impl; [exact Hall|]. intros x (Hq & _ & Hc). auto.
Qed.

Lemma json_secret_witness :
  let key := js "Api_Key" in
  let secret := js "678f5fbf:BTae6+/=" in
  toLowerCase key ∈ KEY_NAMES
  /\ secret <> []
  /\ Forall (fun c => c <> DQUOTE /\ is_space c = false /\ (c < 65536)%N) secret
  /\ maskSecrets (quoted key ++ js ":" ++ quoted secret)
     = quoted key ++ js ":" ++ quoted BULLETS.
Proof.
  intros key secret.
  assert (H1 : toLowerCase key ∈ KEY_NAMES) by (apply (bool_decide_unpack _); vm_compute; exact I).
  assert (H2 : secret <> []) by discriminate.
  assert (H3 : Forall (fun c => c <> DQUOTE /\ is_space c = false /\ (c < 65536)%N) secret).
  { repeat constructor; discriminate. }
  split; [exact H1|]. split; [exact H2|]. split; [exact H3|].
  exact (json_secret_is_masked key secret H1 H2 H3).
Defined.

End MaskExtras.
